(** * Dispatch core of tera-proxy-game: hook registry and handler pipeline

    A shallow embedding of [lib/connection/dispatch/index.js]:
    - the values flowing through the pipeline (byte buffers and parsed events)
      and [deepClone];
    - the hook registry ([hook], [unhook], [unload], [reset]) with the
      [binarySearch] insertion into the per-opcode orderings;
    - [iterateHooks], the merged traversal of two orderings;
    - [handle], the per-frame hook loop, with a trace of the codec calls and of
      the callback invocations it performs;
    - [load] and [unload] with the code of the modules, and [write];
    - [parseSystemMessage] and [buildSystemMessage], and [setRevision] with
      the regular expression it matches;
    - the [RealClient] that follows it in the file.

    Conventions.  JavaScript objects are mutable and compared by reference: an
    object carries the address it was allocated at, and every function that
    allocates threads the next free address.  A hook object carries the rank
    of its creation, [h_id], which is its identity.  The codec
    ([protocol.parse], [protocol.write], the name and definition tables), the
    custom types of the codec and the callbacks of the hooks are not part of
    the file: they are fields of the records below or arguments.

    What is left out.  Numbers are integers ([order], versions, the numbers of
    an event).  Arrays have no holes and no other property than their elements.
    A callback reads and returns; it may write into the buffer or the event it
    is given and keep a state of its own ([World]), but it does not call
    [hook], [unhook] or [write] while a frame is handled, and a raw callback
    that returns a buffer other than the current one returns one that has not
    been the current buffer before.  The buffer given to [handle] has not been
    through [handle] before.  Logging is a mark in the trace. *)

From Stdlib Require Import ZArith List Bool Lia.
From Stdlib.Strings Require Import Byte.
From stdpp Require Import base gmap list strings option pretty sorting.

Local Open Scope Z_scope.
#[local] Set Warnings "-register-all".  (* value is nested through list and prod *)

(* ===================================================================== *)
(** ** Byte buffers *)
(* ===================================================================== *)

Definition bytes := list byte.

#[global] Instance byte_eq_decision : EqDecision byte := byte_eq_dec.

(** [buf.readUInt16LE(offset)]: [None] stands for the RangeError raised when
    the two bytes are not inside the buffer. *)
Definition readUInt16LE (buf : bytes) (offset : nat) : option Z :=
  match buf !! offset, buf !! S offset with
  | Some lo, Some hi => Some (Z.of_N (to_N lo) + Z.shiftl (Z.of_N (to_N hi)) 8)
  | _, _ => None
  end.

(** [a.equals(b)] on two buffers. *)
Definition buffer_equals (a b : bytes) : bool := bool_decide (a = b).

(* ===================================================================== *)
(** ** Values of the codec and [deepClone] *)
(* ===================================================================== *)

Definition addr := nat.

(** Values for which [typeof] is not ['object']. *)
Inductive prim :=
| PUndefined
| PBool (b : bool)
| PNum (z : Z)
| PBigInt (z : Z)
| PStr (s : string).

(** Everything else.  [VCustom] is an instance of a class (its prototype is
    the class's), [VRecord] a plain object, [VArray] an array without holes. *)
Inductive value :=
| VNull
| VPrim (p : prim)
| VBuffer (a : addr) (bs : bytes)
| VCustom (a : addr) (cls : string) (fields : list (string * value))
| VArray (a : addr) (elems : list value)
| VRecord (a : addr) (fields : list (string * value)).

(** [typeof v === 'object'] (true of [null]). *)
Definition typeof_object (v : value) : bool :=
  match v with VPrim _ => false | _ => true end.

(** JavaScript truthiness, as used by [||] and [if]. *)
Definition truthy (v : value) : bool :=
  match v with
  | VNull | VPrim PUndefined => false
  | VPrim (PBool b) => b
  | VPrim (PNum z) | VPrim (PBigInt z) => negb (z =? 0)
  | VPrim (PStr s) => negb (bool_decide (s = ""%string))
  | _ => true
  end.

Section value_induction.
Variable P : value → Prop.
Hypothesis Hnull : P VNull.
Hypothesis Hprim : ∀ p, P (VPrim p).
Hypothesis Hbuffer : ∀ a bs, P (VBuffer a bs).
Hypothesis Hcustom : ∀ a cls fs, Forall (λ kv, P kv.2) fs → P (VCustom a cls fs).
Hypothesis Harray : ∀ a es, Forall P es → P (VArray a es).
Hypothesis Hrecord : ∀ a fs, Forall (λ kv, P kv.2) fs → P (VRecord a fs).

Fixpoint value_nested_ind (v : value) : P v :=
  let fields :=
    fix fields (fs : list (string * value)) : Forall (λ kv, P kv.2) fs :=
      match fs with
      | [] => List.Forall_nil _
      | kv :: fs' => List.Forall_cons _ kv fs' (value_nested_ind kv.2) (fields fs')
      end in
  let elems :=
    fix elems (es : list value) : Forall P es :=
      match es with
      | [] => List.Forall_nil _
      | e :: es' => List.Forall_cons _ e es' (value_nested_ind e) (elems es')
      end in
  match v with
  | VNull => Hnull
  | VPrim p => Hprim p
  | VBuffer a bs => Hbuffer a bs
  | VCustom a cls fs => Hcustom a cls fs (fields fs)
  | VArray a es => Harray a es (elems es)
  | VRecord a fs => Hrecord a fs (fields fs)
  end.
End value_induction.

(** The loop [for(let key in obj) ...] of [deepClone], over the properties of
    a record and over the elements of an array; [rec] is the recursive call. *)
Section clone_loop.
Variable rec : value → addr → value * addr.

(** [if(typeof val === 'object') copy[key] = deepClone(val) else copy[key] = val] *)
Definition clone_entry (val : value) (next : addr) : value * addr :=
  if typeof_object val then rec val next else (val, next).

Fixpoint clone_props (fs : list (string * value)) (next : addr)
  : list (string * value) * addr :=
  match fs with
  | [] => ([], next)
  | (key, val) :: rest =>
      let '(val', n1) := clone_entry val next in
      let '(rest', n2) := clone_props rest n1 in
      ((key, val') :: rest', n2)
  end.

Fixpoint clone_elems (es : list value) (next : addr) : list value * addr :=
  match es with
  | [] => ([], next)
  | val :: rest =>
      let '(val', n1) := clone_entry val next in
      let '(rest', n2) := clone_elems rest n1 in
      (val' :: rest', n2)
  end.
End clone_loop.

(** The enumerable properties of a string primitive: its characters, keyed by
    their index. *)
Fixpoint string_props (i : nat) (s : string) : list (string * value) :=
  match s with
  | EmptyString => []
  | String c s' => (pretty i, VPrim (PStr (String c EmptyString))) :: string_props (S i) s'
  end.

Section deepClone.
(** [types]: the classes of the codec's custom value types
    ([Object.values(require('tera-data-parser').types)]). *)
Variable types : list string.

(** [deepClone(obj)].  The copy is allocated at [next]; the result carries
    the next free address. *)
Fixpoint deepClone (obj : value) (next : addr) {struct obj} : value * addr :=
  match obj with
  | VBuffer _ bs => (VBuffer next bs, S next)
  | VCustom _ cls fs =>
      if bool_decide (cls ∈ types) then (VCustom next cls fs, S next)
      else
        let '(fs', n') := clone_props deepClone fs (S next) in
        (VRecord next fs', n')
  | VArray _ es =>
      let '(es', n') := clone_elems deepClone es (S next) in
      (VArray next es', n')
  | VRecord _ fs =>
      let '(fs', n') := clone_props deepClone fs (S next) in
      (VRecord next fs', n')
  | VNull => (VRecord next [], S next)
  | VPrim (PStr s) => (VRecord next (string_props 0 s), S next)
  | VPrim _ => (VRecord next [], S next)
  end.
End deepClone.

(** Structure of a value, addresses forgotten. *)
Fixpoint erase (v : value) : value :=
  match v with
  | VNull => VNull
  | VPrim p => VPrim p
  | VBuffer _ bs => VBuffer O bs
  | VCustom _ cls fs => VCustom O cls (map (λ kv, (kv.1, erase kv.2)) fs)
  | VArray _ es => VArray O (map erase es)
  | VRecord _ fs => VRecord O (map (λ kv, (kv.1, erase kv.2)) fs)
  end.

Definition struct_eq (v w : value) : Prop := erase v = erase w.

(** Addresses of the mutable objects reachable from a value. *)
Fixpoint addrs (v : value) : list addr :=
  match v with
  | VNull | VPrim _ => []
  | VBuffer a _ => [a]
  | VCustom a _ fs => a :: concat (map (λ kv, addrs kv.2) fs)
  | VArray a es => a :: concat (map addrs es)
  | VRecord a fs => a :: concat (map (λ kv, addrs kv.2) fs)
  end.

(** The inputs [deepClone] is meant for: buffers, instances of the codec's
    custom types (records of primitives), arrays and plain records, with
    primitive leaves and no [null]. *)
Section clonable.
Variable types : list string.

Definition is_prim (v : value) : bool :=
  match v with VPrim _ => true | _ => false end.

End clonable.

(* ===================================================================== *)
(** ** A fragment of JavaScript numbers *)
(* ===================================================================== *)

(** Enough of the number type for the hook counter of [handle]:
    [undefined + n] is [NaN], and [NaN] is strictly equal to nothing. *)
Inductive jsnumber := JNum (z : Z) | JNaN.
Inductive jsval := JUndefined | JNumber (n : jsnumber).

Definition to_number (v : jsval) : jsnumber :=
  match v with JUndefined => JNaN | JNumber n => n end.

(** [a + b] on operands that are numbers or [undefined]. *)
Definition js_add (a b : jsval) : jsnumber :=
  match to_number a, to_number b with
  | JNum x, JNum y => JNum (x + y)
  | _, _ => JNaN
  end.

(** [a === b] on numbers. *)
Definition js_strict_eq (a b : jsnumber) : bool :=
  match a, b with
  | JNum x, JNum y => x =? y
  | _, _ => false
  end.

(** [a.size] for an Array [a]: arrays have [length]; [size] is not a property
    of theirs (it is one of Map and Set). *)
Definition array_size {A : Type} (a : list A) : jsval := JUndefined.

(* ===================================================================== *)
(** ** Hooks *)
(* ===================================================================== *)

(** Keys of [this.hooks]: the string ['*'] or an opcode. *)
Inductive HookCode := CWild | COp (c : Z).

#[global] Instance HookCode_eq_dec : EqDecision HookCode.
Proof. solve_decision. Defined.

#[global] Instance HookCode_countable : Countable HookCode.
Proof.
  refine (inj_countable' (λ c, match c with CWild => None | COp z => Some z end)
                         (λ o, match o with None => CWild | Some z => COp z end) _).
  by intros [].
Defined.

(** [hook.definitionVersion]: ['raw'], ['*'] or a number. *)
Inductive DefVersion := DRaw | DStar | DNum (v : Z).

#[global] Instance DefVersion_eq_dec : EqDecision DefVersion.
Proof. solve_decision. Defined.

#[global] Instance DefVersion_countable : Countable DefVersion.
Proof.
  refine (inj_countable'
            (λ v, match v with DRaw => inl true | DStar => inl false | DNum z => inr z end)
            (λ s, match s with inl true => DRaw | inl false => DStar | inr z => DNum z end) _).
  by intros [].
Defined.

(** The flags of a frame: [fake], [incoming] and the current [modified] and
    [silenced] of the invocation. *)
Record Flags := {
  fl_fake : bool;
  fl_incoming : bool;
  fl_modified : bool;
  fl_silenced : bool
}.

(** [hook.filter]: each field is [null] ([None]) or a required boolean. *)
Record Filter := {
  f_fake : option bool;
  f_incoming : option bool;
  f_modified : option bool;
  f_silenced : option bool
}.

(** [opts.filter]: a field is absent ([None]) or given, possibly as [null]. *)
Record FilterOpts := {
  fo_fake : option (option bool);
  fo_incoming : option (option bool);
  fo_modified : option (option bool);
  fo_silenced : option (option bool)
}.

(** [Object.assign({fake: false, incoming: null, modified: null, silenced: false}, opts.filter)] *)
Definition assign_filter (o : FilterOpts) : Filter :=
  {| f_fake := default (Some false) (fo_fake o);
     f_incoming := default None (fo_incoming o);
     f_modified := default None (fo_modified o);
     f_silenced := default (Some false) (fo_silenced o) |}.

Record HookOpts := {
  o_order : option Z;
  o_filter : FilterOpts;
  o_timeout : option Z
}.

(** What a raw callback returns: the buffer it was given, another buffer (one
    that has not been the current buffer of the invocation), a boolean, or
    anything else. *)
Inductive RawResult :=
| RRSame
| RRBuffer (result : bytes)
| RRBool (b : bool)
| RROther.

(** What a structured callback returns. *)
Inductive EventResult :=
| ERBool (b : bool)
| EROther.

(** The [version] argument of [hook]: [VerInvalid] is any value that is
    neither a number nor ['*'] nor ['raw']. *)
Inductive VersionArg := VerNum (v : Z) | VerStar | VerRaw | VerInvalid.

#[global] Instance VersionArg_eq_dec : EqDecision VersionArg.
Proof. solve_decision. Defined.

Inductive HookError :=
| InvalidVersion          (* TypeError: invalid version specified *)
| NotAFunction            (* TypeError: last argument not a function *)
| WildcardVersion         (* TypeError: * hook must request version '*' or 'raw' *)
| NoProtocolMap           (* TypeError: this.protocolMap is undefined *)
| UnmappedPacket          (* Error: unmapped packet *)
| ObsoleteDefinition      (* Error: obsolete defintion *)
| DefinitionNotFound      (* Error: definition not found *)
| SearchDiverged.         (* the search ran out of fuel: see binarySearch_total *)

#[global] Instance HookError_eq_dec : EqDecision HookError.
Proof. solve_decision. Defined.

Section Dispatch.
(** [World] is whatever state the modules keep between two calls of their
    callbacks. *)
Context {World : Type}.

(** Outcome of a raw callback: the content of the current buffer when it
    comes back (the callback may write into it), the value returned ([None]
    when the callback throws) and the modules' state. *)
Record RawOutcome := {
  ro_data : bytes;
  ro_result : option RawResult;
  ro_world : World
}.

(** Outcome of a structured callback: the event object it was given, as the
    callback leaves it, the value returned ([None] when it throws) and the
    modules' state. *)
Record EventOutcome := {
  eo_event : value;
  eo_result : option EventResult;
  eo_world : World
}.

(** [hook.callback], by the three ways it is called:
    [callback(code, data, incoming, fake)], [callback(event, fake)] and
    [callback(null)].  The flags are those readable on [data] or [event]. *)
Record Callback := {
  on_raw : Z → bytes → Flags → World → RawOutcome;
  on_event : value → Flags → World → EventOutcome;
  on_timeout : World → World
}.

(** A hook object.  [h_id] is its identity ([h !== hook] compares it). *)
Record Hook := {
  h_id : nat;
  h_namespace : string;
  h_code : HookCode;
  h_filter : Filter;
  h_order : Z;
  h_definitionVersion : DefVersion;
  h_callback : Callback;
  h_timeout : option nat;
  h_name : string
}.

(** An element of an ordering: [{ order, hooks }]. *)
Record HookGroup := {
  g_order : Z;
  g_hooks : list Hook
}.

(** [protocol.maps.get(version)]: [{ name, code }]. *)
Record ProtocolMap := {
  pm_name : gmap string Z;
  pm_code : gmap Z string
}.

(** The codec ([protocol] of tera-data-parser).  [parse] and [write] return
    [None] when they throw; [messages] maps a name to its definitions by
    version ([Schema] is the type of a definition, an array of fields);
    [first_version] is [protocol.maps.keys().next().value]. *)
Record Codec := {
  Schema : Type;
  parse : option Z → Z → DefVersion → bytes → option value;
  write : option Z → Z → DefVersion → value → option bytes;
  messages : gmap string (gmap Z Schema);
  maps : gmap Z ProtocolMap;
  first_version : option Z
}.

(** [Math.max(...defs.keys())]; [None] is [-Infinity], its value on no key. *)
Definition max_keys {A : Type} (defs : gmap Z A) : option Z :=
  foldr (λ k acc, Some (match acc with Some m => Z.max k m | None => k end))
        None (elements (dom defs)).

(** [latestDefVersion], filled from [protocol.messages] when the file loads. *)
Definition latestDefVersion (codec : Codec) : gmap string (option Z) :=
  max_keys <$> messages codec.

(** The state of a [Dispatch] object.  [timers] holds the one-shot timeouts
    that are armed, [next_id] counts the hook objects created so far. *)
Record Dispatch := {
  hooks : gmap HookCode (list HookGroup);
  modules : gset string;
  protocolVersion : option Z;
  protocolMap : option ProtocolMap;
  timers : gset nat;
  next_id : nat
}.

Definition new_Dispatch : Dispatch :=
  {| hooks := ∅; modules := ∅; protocolVersion := None; protocolMap := None;
     timers := ∅; next_id := O |}.

Definition set_hooks (d : Dispatch) (hs : gmap HookCode (list HookGroup)) : Dispatch :=
  {| hooks := hs; modules := modules d; protocolVersion := protocolVersion d;
     protocolMap := protocolMap d; timers := timers d; next_id := next_id d |}.

Definition set_timers (d : Dispatch) (ts : gset nat) : Dispatch :=
  {| hooks := hooks d; modules := modules d; protocolVersion := protocolVersion d;
     protocolMap := protocolMap d; timers := ts; next_id := next_id d |}.

(* ------------------------------------------------------------------- *)
(** *** [iterateHooks] *)

(** The merge loop of [iterateHooks] on two orderings, and the hooks it
    yields.  The wildcard group goes first when it exists and the opcode
    group does not, or when its order is not greater. *)
Fixpoint merge_groups (globalHooks codeHooks : list HookGroup) : list Hook :=
  let fix merge_code (codeHooks : list HookGroup) : list Hook :=
    match globalHooks, codeHooks with
    | [], [] => []
    | globalHookGroup :: globalRest, [] =>
        g_hooks globalHookGroup ++ merge_groups globalRest []
    | [], codeHookGroup :: codeRest =>
        g_hooks codeHookGroup ++ merge_code codeRest
    | globalHookGroup :: globalRest, codeHookGroup :: codeRest =>
        if g_order globalHookGroup <=? g_order codeHookGroup
        then g_hooks globalHookGroup ++ merge_groups globalRest codeHooks
        else g_hooks codeHookGroup ++ merge_code codeRest
    end in
  merge_code codeHooks.

(** [iterateHooks(globalHooks = [], codeHooks = [])]: an absent ordering
    ([undefined]) is the empty one. *)
Definition iterateHooks (globalHooks codeHooks : option (list HookGroup)) : list Hook :=
  merge_groups (default [] globalHooks) (default [] codeHooks).

(* ------------------------------------------------------------------- *)
(** *** [hook] *)

(** Modelled from the spec: [binarySearch] is the package binary-search, a
    dependency that is not in the repository.  The spec has [hook] look an
    [order] up by binary search, to append to the group of that order or to
    splice a new group in at its place.  The definition is the loop of the
    package, called as
    [binarySearch(ordering, { order }, (a, b) => a.order - b.order)]: it
    returns the index of a group of that order, or [~low] where [low] is the
    place at which one would go.  [fuel] bounds the iterations of its
    [while(low <= high)]; [binarySearch_total] shows it never runs out. *)
Fixpoint bs_loop (fuel : nat) (haystack : list HookGroup) (needle : Z) (low high : Z)
  : option Z :=
  match fuel with
  | O => None
  | S fuel' =>
      if low <=? high then
        let mid := low + Z.shiftr (high - low) 1 in
        match haystack !! Z.to_nat mid with
        | None => None
        | Some a =>
            let cmp := g_order a - needle in
            if cmp <? 0 then bs_loop fuel' haystack needle (mid + 1) high
            else if 0 <? cmp then bs_loop fuel' haystack needle low (mid - 1)
            else Some mid
        end
      else Some (Z.lnot low)
  end.

Definition binarySearch (haystack : list HookGroup) (needle : Z) : option Z :=
  bs_loop (S (length haystack)) haystack needle 0 (Z.of_nat (length haystack) - 1).

(** [ordering.splice(i, 0, g)] *)
Definition splice_in (i : nat) (g : HookGroup) (ordering : list HookGroup) : list HookGroup :=
  take i ordering ++ g :: drop i ordering.

(** [group.hooks.push(hook)] *)
Definition push_hook (hook : Hook) (g : HookGroup) : HookGroup :=
  {| g_order := g_order g; g_hooks := g_hooks g ++ [hook] |}.

(** [protocol.messages.get(name)] then [def.get(version)]: the definition,
    if there is one.  The keys are numbers: ['*'] finds none. *)
Definition find_definition (codec : Codec) (name : string) (version : VersionArg)
  : option (Schema codec) :=
  match messages codec !! name, version with
  | Some def, VerNum v => def !! v
  | _, _ => None
  end.

(** [latestDefVersion.get(name) > version]: false when the name has no
    entry ([undefined]), when it has no definition ([-Infinity]) and for the
    version ['*'] ([NaN]). *)
Definition latest_greater (codec : Codec) (name : string) (version : VersionArg) : bool :=
  match latestDefVersion codec !! name, version with
  | Some (Some latest), VerNum v => v <? latest
  | _, _ => false
  end.

(** "Retrieve opcode" of [hook]. *)
Definition resolve_code (codec : Codec) (d : Dispatch) (name : string) (version : VersionArg)
  : HookError + HookCode :=
  if bool_decide (name = "*"%string) then
    match version with
    | VerNum _ => inl WildcardVersion
    | _ => inr CWild
    end
  else
    match protocolMap d with
    | None => inl NoProtocolMap
    | Some map =>
        match pm_name map !! name with
        | None => inl UnmappedPacket
        | Some code =>
            if bool_decide (version = VerRaw) then inr (COp code)
            else
              match find_definition codec name version with
              | Some _ => inr (COp code)
              | None =>
                  if latest_greater codec name version then inl ObsoleteDefinition
                  else inl DefinitionNotFound
              end
        end
    end.

Definition def_version (version : VersionArg) : DefVersion :=
  match version with
  | VerNum v => DNum v
  | VerStar => DStar
  | _ => DRaw
  end.

(** [opts.timeout ? setTimeout(...) : null] *)
Definition timeout_given (opts : HookOpts) : bool :=
  match o_timeout opts with
  | Some t => negb (t =? 0)
  | None => false
  end.

(** "Add hook": the ordering of [code] after the insertion of [hook]. *)
Definition add_hook (hook : Hook) (ordering : list HookGroup) : option (list HookGroup) :=
  index ← binarySearch ordering (h_order hook);
  Some (if index <? 0
        then splice_in (Z.to_nat (Z.lnot index))
                       {| g_order := h_order hook; g_hooks := [hook] |} ordering
        else alter (push_hook hook) (Z.to_nat index) ordering).

(** [hook(namespace, name, version, opts, cb)]: the error thrown, or the
    hook returned and the new state. *)
Definition hook (codec : Codec) (d : Dispatch) (namespace name : string)
    (version : VersionArg) (opts : HookOpts) (cb : option Callback)
  : HookError + (Hook * Dispatch) :=
  if bool_decide (version = VerInvalid) then inl InvalidVersion else
  match cb with
  | None => inl NotAFunction
  | Some cb =>
      match resolve_code codec d name version with
      | inl e => inl e
      | inr code =>
          let order := default 0 (o_order opts) in
          let armed := timeout_given opts in
          let hook :=
            {| h_id := next_id d;
               h_namespace := namespace;
               h_code := code;
               h_filter := assign_filter (o_filter opts);
               h_order := order;
               h_definitionVersion := def_version version;
               h_callback := cb;
               h_timeout := if armed then Some (next_id d) else None;
               h_name := name |} in
          match add_hook hook (default [] (hooks d !! code)) with
          | None => inl SearchDiverged
          | Some ordering =>
              inr (hook,
                   {| hooks := <[code := ordering]> (hooks d);
                      modules := modules d;
                      protocolVersion := protocolVersion d;
                      protocolMap := protocolMap d;
                      timers := if armed then {[next_id d]} ∪ timers d else timers d;
                      next_id := S (next_id d) |})
          end
      end
  end.

(* ------------------------------------------------------------------- *)
(** *** [unhook], [unload], [reset] *)

(** [h => h !== hook] *)
Definition other_hook (hook h : Hook) : bool := negb (h_id h =? h_id hook)%nat.

(** [group.hooks = group.hooks.filter(h => h !== hook)] on the group that
    [ordering.find(o => o.order === hook.order)] returns, the first one of
    that order. *)
Fixpoint remove_from_group (hook : Hook) (ordering : list HookGroup) : list HookGroup :=
  match ordering with
  | [] => []
  | o :: rest =>
      if g_order o =? h_order hook
      then {| g_order := g_order o; g_hooks := List.filter (other_hook hook) (g_hooks o) |} :: rest
      else o :: remove_from_group hook rest
  end.

(** [unhook(hook)]; [None] is a [hook] that is [null] or [undefined]. *)
Definition unhook (d : Dispatch) (hook : option Hook) : Dispatch :=
  match hook with
  | None => d
  | Some hook =>
      match hooks d !! h_code hook with
      | None => d
      | Some ordering =>
          {| hooks := <[h_code hook := remove_from_group hook ordering]> (hooks d);
             modules := modules d;
             protocolVersion := protocolVersion d;
             protocolMap := protocolMap d;
             timers := match h_timeout hook with
                       | Some t => timers d ∖ {[t]}
                       | None => timers d
                       end;
             next_id := next_id d |}
      end
  end.

(** [ordering.hooks = ordering.hooks.filter(hook => hook.namespace !== name)]
    for every ordering of every code, as [load] does when the constructor of
    a module throws and as [unload] does. *)
Definition remove_namespace (name : string) (d : Dispatch) : Dispatch :=
  set_hooks d
    (map (λ o, {| g_order := g_order o;
                  g_hooks := List.filter (λ h, negb (bool_decide (h_namespace h = name)))
                                         (g_hooks o) |})
       <$> hooks d).

(** [unload(name)], the destructor of the module left out. *)
Definition unload (d : Dispatch) (name : string) : Dispatch * bool :=
  if bool_decide (name ∈ modules d) then
    let d' := remove_namespace name d in
    ({| hooks := hooks d'; modules := modules d ∖ {[name]};
        protocolVersion := protocolVersion d; protocolMap := protocolMap d;
        timers := timers d; next_id := next_id d |}, true)
  else (d, false).

(** [reset()]: every module unloaded, then both maps cleared. *)
Definition reset (d : Dispatch) : Dispatch :=
  {| hooks := ∅; modules := ∅; protocolVersion := protocolVersion d;
     protocolMap := protocolMap d; timers := timers d; next_id := next_id d |}.

(** The timer of [hook] fires: [this.unhook(hook)] then
    [hook.callback(null)]. *)
Definition fire_timeout (d : Dispatch) (w : World) (hook : Hook) : Dispatch * World :=
  match h_timeout hook with
  | Some t =>
      if bool_decide (t ∈ timers d)
      then (unhook (set_timers d (timers d ∖ {[t]})) (Some hook),
            on_timeout (h_callback hook) w)
      else (d, w)
  | None => (d, w)
  end.

(** Every hook of the registry. *)
Definition ordering_hooks (ordering : list HookGroup) : list Hook :=
  concat (map g_hooks ordering).

Definition registered (d : Dispatch) (h : Hook) : Prop :=
  ∃ ordering, hooks d !! h_code h = Some ordering ∧ h ∈ ordering_hooks ordering.

(** [this.modules.set(name, loadedModule)] of [load]. *)
Definition register_module (d : Dispatch) (name : string) : Dispatch :=
  {| hooks := hooks d; modules := {[name]} ∪ modules d;
     protocolVersion := protocolVersion d; protocolMap := protocolMap d;
     timers := timers d; next_id := next_id d |}.

(* ------------------------------------------------------------------- *)
(** *** [handle] *)

(** What [handle] does that is visible from outside: the calls of the
    codec and of the callbacks, in the order they happen. *)
Inductive CallArg :=
| ArgRaw (data : bytes)
| ArgEvent (event : value).

Inductive Event :=
| EvProbe (ver : option Z) (data : bytes) (ok : bool)
| EvParse (defVersion : DefVersion) (data : bytes) (ok : bool)
| EvCall (hook : Hook) (flags : Flags) (arg : CallArg)
| EvWrite (defVersion : DefVersion) (event : value) (ok : bool)
| EvLog.

(** The variables of the hook loop. [data] is the content of the current
    buffer, [heap] the next free address. *)
Record LoopState := {
  data : bytes;
  modified : bool;
  silenced : bool;
  eventCache : gmap DefVersion value;
  iter : Z;
  heap : addr;
  world : World;
  trace : list Event
}.

Definition set_result (st : LoopState) (d : bytes) (m s : bool) : LoopState :=
  {| data := d; modified := m; silenced := s; eventCache := eventCache st;
     iter := iter st; heap := heap st; world := world st; trace := trace st |}.

Definition set_cache (st : LoopState) (c : gmap DefVersion value) : LoopState :=
  {| data := data st; modified := modified st; silenced := silenced st; eventCache := c;
     iter := iter st; heap := heap st; world := world st; trace := trace st |}.

Definition set_iter (st : LoopState) (i : Z) : LoopState :=
  {| data := data st; modified := modified st; silenced := silenced st;
     eventCache := eventCache st; iter := i; heap := heap st; world := world st;
     trace := trace st |}.

Definition set_heap (st : LoopState) (n : addr) : LoopState :=
  {| data := data st; modified := modified st; silenced := silenced st;
     eventCache := eventCache st; iter := iter st; heap := n; world := world st;
     trace := trace st |}.

Definition set_world (st : LoopState) (w : World) : LoopState :=
  {| data := data st; modified := modified st; silenced := silenced st;
     eventCache := eventCache st; iter := iter st; heap := heap st; world := w;
     trace := trace st |}.

Definition emit (st : LoopState) (evs : list Event) : LoopState :=
  {| data := data st; modified := modified st; silenced := silenced st;
     eventCache := eventCache st; iter := iter st; heap := heap st; world := world st;
     trace := trace st ++ evs |}.

(** [filter.x != null && filter.x !== x] is what skips a hook. *)
Definition filter_field (required : option bool) (flag : bool) : bool :=
  match required with
  | None => true
  | Some b => eqb b flag
  end.

Definition filter_pass (filter : Filter) (fl : Flags) : bool :=
  filter_field (f_fake filter) (fl_fake fl)
  && filter_field (f_incoming filter) (fl_incoming fl)
  && filter_field (f_modified filter) (fl_modified fl)
  && filter_field (f_silenced filter) (fl_silenced fl).

(** A value [Object.defineProperties] accepts. *)
Definition is_object (v : value) : bool :=
  match v with VNull | VPrim _ => false | _ => true end.

Section hook_loop.
Variable codec : Codec.
Variable types : list string.
(** The constants of one invocation: [protocolVersion], [code], [copy],
    [incoming], [fake] and [hooks]. *)
Variable protoVer : option Z.
Variable code : Z.
Variable copy : bytes.
Variables incoming fake : bool.
Variable hooks_n : jsnumber.

Definition flags_of (st : LoopState) : Flags :=
  {| fl_fake := fake; fl_incoming := incoming;
     fl_modified := modified st; fl_silenced := silenced st |}.

(** The body of the loop for a hook of version ['raw']. *)
Definition raw_step (hook : Hook) (st : LoopState) : LoopState :=
  let fl := flags_of st in
  let out := on_raw (h_callback hook) code (data st) fl (world st) in
  let st1 := emit (set_world st (ro_world out)) [EvCall hook fl (ArgRaw (data st))] in
  let data' := ro_data out in
  match ro_result out with
  | Some (RRBuffer result) =>
      set_result st1 result
        (modified st || negb (length result =? length data')%nat
         || negb (buffer_equals result data'))
        (silenced st)
  | Some r =>
      set_result st1 data'
        (modified st || negb (buffer_equals data' copy))
        (match r with RRBool b => negb b | _ => silenced st end)
  | None =>
      emit (set_result st1 data' (modified st) (silenced st)) [EvLog]
  end.

(** [eventCache[defVersion] || (eventCache[defVersion] = protocol.parse(...))];
    no event when [parse] throws. *)
Definition obtain_event (defVersion : DefVersion) (st : LoopState)
  : option value * LoopState :=
  match eventCache st !! defVersion with
  | Some event =>
      if truthy event then (Some event, st)
      else
        match parse codec protoVer code defVersion (data st) with
        | Some event' =>
            (Some event', emit (set_cache st (<[defVersion := event']> (eventCache st)))
                            [EvParse defVersion (data st) true])
        | None => (None, emit st [EvParse defVersion (data st) false])
        end
  | None =>
      match parse codec protoVer code defVersion (data st) with
      | Some event' =>
          (Some event', emit (set_cache st (<[defVersion := event']> (eventCache st)))
                          [EvParse defVersion (data st) true])
      | None => (None, emit st [EvParse defVersion (data st) false])
      end
  end.

(** [objectAttachFlags(lastHook ? event : (event = deepClone(event)))]: the
    object handed to the callback; none when [defineProperties] throws. *)
Definition callback_event (lastHook : bool) (event : value) (next : addr)
  : option (value * addr) :=
  if lastHook then (if is_object event then Some (event, next) else None)
  else Some (deepClone types event next).

(** What follows the call of a structured callback that returned
    [result] and left [event]. *)
Definition commit (defVersion : DefVersion) (event : value)
    (result : option EventResult) (st : LoopState) : LoopState :=
  match result with
  | Some (ERBool true) =>
      match write codec protoVer code defVersion event with
      | Some bs =>
          emit (set_cache (set_result st bs true false) ∅) [EvWrite defVersion event true]
      | None =>
          emit (set_result st (data st) true false) [EvWrite defVersion event false; EvLog]
      end
  | Some (ERBool false) => set_result st (data st) (modified st) true
  | Some EROther => st
  | None => emit st [EvLog]
  end.

(** The body of the loop for a hook of another version. *)
Definition event_step (hook : Hook) (lastHook : bool) (st : LoopState) : LoopState :=
  let defVersion := h_definitionVersion hook in
  match obtain_event defVersion st with
  | (None, st1) => emit st1 [EvLog]
  | (Some cached, st1) =>
      match callback_event lastHook cached (heap st1) with
      | None => emit st1 [EvLog]
      | Some (event, next) =>
          let fl := flags_of st1 in
          let out := on_event (h_callback hook) event fl (world st1) in
          let cache :=
            if lastHook then <[defVersion := eo_event out]> (eventCache st1)
            else eventCache st1 in
          let st2 :=
            emit (set_world (set_heap (set_cache st1 cache) next) (eo_world out))
                 [EvCall hook fl (ArgEvent event)] in
          commit defVersion (eo_event out) (eo_result out) st2
      end
  end.

(** One turn of [for(const hook of iterateHooks(globalHooks, codeHooks))]. *)
Definition run_hook (st : LoopState) (hook : Hook) : LoopState :=
  if filter_pass (h_filter hook) (flags_of st) then
    let st' := set_iter st (iter st + 1) in
    let lastHook := js_strict_eq (JNum (iter st')) hooks_n in
    match h_definitionVersion hook with
    | DRaw => raw_step hook st'
    | _ => event_step hook lastHook st'
    end
  else st.

Definition run_hooks (hs : list Hook) (st : LoopState) : LoopState :=
  foldl run_hook st hs.
End hook_loop.

(** [setProtocolVersion(version)], without the revision and the system
    messages. *)
Definition setProtocolVersion (codec : Codec) (d : Dispatch) (version : Z) : Dispatch :=
  {| hooks := hooks d; modules := modules d; protocolVersion := Some version;
     protocolMap := maps codec !! version; timers := timers d; next_id := next_id d |}.

(** [obj[key]] on a record. *)
Definition get_prop (obj : value) (key : string) : option value :=
  match obj with
  | VRecord _ fs | VCustom _ _ fs => snd <$> List.find (λ kv, bool_decide (kv.1 = key)) fs
  | _ => None
  end.

(** [!this.protocolVersion] *)
Definition no_protocolVersion (d : Dispatch) : bool :=
  match protocolVersion d with
  | None => true
  | Some v => v =? 0
  end.

(** The C_CHECK_VERSION block of [handle].  A [value] of the item that is
    not a number is not followed. *)
Definition check_version (codec : Codec) (d : Dispatch) (code : Z) (data : bytes)
  : Dispatch * list Event :=
  if (code =? 19900) && no_protocolVersion d then
    let ver := first_version codec in
    match parse codec ver code (DNum 1) data with
    | None => (d, [EvProbe ver data false; EvLog])
    | Some parsed =>
        match get_prop parsed "version" with
        | Some (VArray _ (item :: _)) =>
            match get_prop item "index", get_prop item "value" with
            | Some (VPrim (PNum 0)), Some (VPrim (PNum v)) =>
                (setProtocolVersion codec d v, [EvProbe ver data true])
            | Some (VPrim (PNum 0)), _ => (d, [EvProbe ver data true])
            | _, _ => (d, [EvProbe ver data true; EvLog])
            end
        | _ => (d, [EvProbe ver data true; EvLog])
        end
    end
  else (d, []).

(** [(globalHooks ? globalHooks.size : 0) + (codeHooks ? codeHooks.size : 0)] *)
Definition hooks_count (globalHooks codeHooks : option (list HookGroup)) : jsnumber :=
  js_add (match globalHooks with Some g => array_size g | None => JNumber (JNum 0) end)
         (match codeHooks with Some c => array_size c | None => JNumber (JNum 0) end).

(** What [handle] returns: the current buffer, or [false] to suppress the
    frame; [Thrown] when it throws. *)
Inductive HandleReturn :=
| Returned (data : bytes)
| SUPPRESS
| Thrown.

Record Handled := {
  hd_return : HandleReturn;
  hd_dispatch : Dispatch;
  hd_heap : addr;
  hd_world : World;
  hd_trace : list Event
}.

Definition init_state (bs : bytes) (w : World) (next : addr) (tr : list Event) : LoopState :=
  {| data := bs; modified := false; silenced := false; eventCache := ∅; iter := 0;
     heap := next; world := w; trace := tr |}.

(** The state of the loop of [handle] when it ends, for a frame of opcode
    [code] and a registry that has hooks for it. *)
Definition handle_loop (codec : Codec) (types : list string) (d : Dispatch) (w : World)
    (next : addr) (tr : list Event) (code : Z) (bs : bytes) (incoming fake : bool)
  : LoopState :=
  let globalHooks := hooks d !! CWild in
  let codeHooks := hooks d !! COp code in
  run_hooks codec types (protocolVersion d) code bs incoming fake
    (hooks_count globalHooks codeHooks)
    (iterateHooks globalHooks codeHooks)
    (init_state bs w next tr).

(** [handle(data, incoming, fake)] *)
Definition handle (codec : Codec) (types : list string) (d : Dispatch) (w : World)
    (next : addr) (bs : bytes) (incoming fake : bool) : Handled :=
  match readUInt16LE bs 2 with
  | None =>
      {| hd_return := Thrown; hd_dispatch := d; hd_heap := next; hd_world := w;
         hd_trace := [] |}
  | Some code =>
      let '(d', tr) := check_version codec d code bs in
      match hooks d' !! CWild, hooks d' !! COp code with
      | None, None =>
          {| hd_return := Returned bs; hd_dispatch := d'; hd_heap := next; hd_world := w;
             hd_trace := tr |}
      | _, _ =>
          let st := handle_loop codec types d' w next tr code bs incoming fake in
          {| hd_return := if silenced st then SUPPRESS else Returned (data st);
             hd_dispatch := d'; hd_heap := heap st; hd_world := world st;
             hd_trace := trace st |}
      end
  end.

End Dispatch.

(* ===================================================================== *)
(** ** Predicates of the specification *)
(* ===================================================================== *)

(** What a faithful copy allocated from [next] is: same structure, and all
    of its objects at addresses taken from [next] on. *)
Definition fresh_copy (v : value) (next : addr) (r : value * addr) : Prop :=
  erase r.1 = erase v ∧ (next ≤ r.2)%nat ∧ Forall (λ a, next ≤ a < r.2)%nat (addrs r.1).

Section registry_predicates.
Context {World : Type}.
Implicit Types (ordering : list (@HookGroup World)) (h hook : @Hook World)
  (g : @HookGroup World) (d : @Dispatch World).

(** An ordering is sorted by strictly ascending [order]. *)
Definition orders_ascending ordering : Prop :=
  ∀ (i j : nat) a b, (i < j)%nat → ordering !! i = Some a → ordering !! j = Some b →
                     g_order a < g_order b.

(** What the search answers on a sorted ordering. *)
Definition search_result ordering (needle : Z) (index : Z) : Prop :=
  (0 ≤ index ∧ ∃ g, ordering !! Z.to_nat index = Some g ∧ g_order g = needle)
  ∨ (index < 0
     ∧ 0 ≤ Z.lnot index ≤ Z.of_nat (length ordering)
     ∧ (∀ (i : nat) g, ordering !! i = Some g → Z.of_nat i < Z.lnot index → g_order g < needle)
     ∧ (∀ (i : nat) g, ordering !! i = Some g → Z.lnot index ≤ Z.of_nat i → needle < g_order g)).

(** The hooks of a group of the ordering of [c] were registered for [c]
    with the order of the group, and stand in the order of their creation. *)
Definition group_ok (c : HookCode) (bound : nat) g : Prop :=
  Forall (λ h, h_code h = c ∧ h_order h = g_order g ∧ (h_id h < bound)%nat) (g_hooks g)
  ∧ StronglySorted lt (h_id <$> g_hooks g).

Definition ordering_ok (c : HookCode) (bound : nat) ordering : Prop :=
  orders_ascending ordering ∧ Forall (group_ok c bound) ordering.

Definition registry_ok d : Prop :=
  (∀ c ordering, hooks d !! c = Some ordering → ordering_ok c (next_id d) ordering)
  ∧ (∀ h1 h2, registered d h1 → registered d h2 → h_id h1 = h_id h2 → h1 = h2).

(** The states of a [Dispatch] object: what its methods make of a new one.
    [hook] counts when it returns a hook. *)
Inductive reachable (codec : Codec) : Dispatch → Prop :=
| reach_new : reachable codec new_Dispatch
| reach_setProtocolVersion d version :
    reachable codec d → reachable codec (setProtocolVersion codec d version)
| reach_hook d namespace name version opts cb h d' :
    reachable codec d →
    hook codec d namespace name version opts cb = inr (h, d') →
    reachable codec d'
| reach_unhook d (handle : option Hook) :
    reachable codec d → reachable codec (unhook d handle)
| reach_load d name :
    reachable codec d → reachable codec (register_module d name)
| reach_load_failed d name :
    reachable codec d → reachable codec (remove_namespace name d)
| reach_unload d name :
    reachable codec d → reachable codec (unload d name).1
| reach_reset d :
    reachable codec d → reachable codec (reset d)
| reach_timeout d (w : World) h :
    reachable codec d → reachable codec (fire_timeout d w h).1.

(** The order in which [handle] is to run two hooks: by ascending [order];
    at equal [order] the wildcard hook first; in one group, the hook
    registered first. *)
Definition runs_before h1 h2 : Prop :=
  h_order h1 < h_order h2
  ∨ (h_order h1 = h_order h2
     ∧ ((h_code h1 = CWild ∧ h_code h2 ≠ CWild)
        ∨ (h_code h1 = h_code h2 ∧ (h_id h1 < h_id h2)%nat))).

(** [hook.code === '*'] *)
Definition is_wildcard h : bool := bool_decide (h_code h = CWild).

(** *** Traces of [handle] *)

(** [protocol.parse] called by the hook loop for [defVersion]. *)
Definition is_parse (defVersion : DefVersion) (ev : @Event World) : bool :=
  match ev with
  | EvParse dv _ _ => bool_decide (dv = defVersion)
  | _ => false
  end.

(** Such a call that threw. *)
Definition is_parse_failure (defVersion : DefVersion) (ev : @Event World) : bool :=
  match ev with
  | EvParse dv _ false => bool_decide (dv = defVersion)
  | _ => false
  end.

(** [protocol.write] returned for a hook that had returned [true]: the
    event cache was cleared. *)
Definition is_commit (ev : @Event World) : bool :=
  match ev with
  | EvWrite _ _ true => true
  | _ => false
  end.

(** A callback was called. *)
Definition is_call (ev : @Event World) : bool :=
  match ev with
  | EvCall _ _ _ => true
  | _ => false
  end.

Definition count (p : @Event World → bool) (tr : list (@Event World)) : nat :=
  length (List.filter p tr).

Definition parse_calls (defVersion : DefVersion) (tr : list (@Event World)) : nat :=
  count (is_parse defVersion) tr.

Definition parse_failures (defVersion : DefVersion) (tr : list (@Event World)) : nat :=
  count (is_parse_failure defVersion) tr.

Definition commits (tr : list (@Event World)) : nat := count is_commit tr.

Definition has_call (tr : list (@Event World)) : bool := existsb is_call tr.

(** Every call of a callback in the trace was allowed by the filter of its
    hook on the flags of that moment, and a call that saw [modified] set
    comes after another call. *)
Definition calls_filtered (incoming fake : bool) (tr : list (@Event World)) : Prop :=
  ∀ pre h fl arg post,
    tr = pre ++ EvCall h fl arg :: post →
    filter_pass (h_filter h) fl = true
    ∧ fl_fake fl = fake ∧ fl_incoming fl = incoming
    ∧ (fl_modified fl = true → has_call pre = true).

(** The entry of the event cache for [defVersion] is usable. *)
Definition cached (defVersion : DefVersion) (st : @LoopState World) : bool :=
  match eventCache st !! defVersion with
  | Some event => truthy event
  | None => false
  end.

(** No callback is called in [evs]. *)
Definition quiet (evs : list (@Event World)) : bool := forallb (λ e, negb (is_call e)) evs.

(** The calls of the callbacks follow the filters, and [modified] is only
    set once a callback has been called. *)
Definition filters_kept (incoming fake : bool) (st : @LoopState World) : Prop :=
  calls_filtered incoming fake (trace st)
  ∧ (modified st = true → has_call (trace st) = true).

(** The definition versions [parse] returned an event for since the event
    cache was last cleared, the latest first. *)
Definition note_event (acc : list DefVersion) (ev : @Event World) : list DefVersion :=
  match ev with
  | EvWrite _ _ true => []
  | EvParse dv _ true => dv :: acc
  | _ => acc
  end.

Definition parsed_since_clear (tr : list (@Event World)) : list DefVersion :=
  foldl note_event [] tr.

(** A structured callback was called. *)
Definition is_event_call (ev : @Event World) : bool :=
  match ev with
  | EvCall _ _ (ArgEvent _) => true
  | _ => false
  end.

(** Every event handed to a callback was parsed after the cache was last
    cleared. *)
Definition events_parsed (tr : list (@Event World)) : Prop :=
  ∀ pre h fl event post,
    tr = pre ++ EvCall h fl (ArgEvent event) :: post →
    h_definitionVersion h ∈ parsed_since_clear pre.

Definition cache_parsed (st : @LoopState World) : Prop :=
  events_parsed (trace st)
  ∧ ∀ dv, is_Some (eventCache st !! dv) → dv ∈ parsed_since_clear (trace st).


(** [++iter === hooks] is false at every turn of the loop. *)
Definition never_last (hooks_n : jsnumber) : Prop :=
  ∀ i, 1 ≤ i → js_strict_eq (JNum i) hooks_n = false.


End registry_predicates.

(* ===================================================================== *)
(** ** Modules and [write] *)
(* ===================================================================== *)

(** The [version] argument of [write]: a number, a string or anything
    else. *)
Inductive WriteVersion := WNum (v : Z) | WStr (s : string) | WOther.

Section modules.
Context {World : Type}.

(** Code of a module that runs against the dispatch: the constructor that
    [load] calls, the destructor that [unload] calls.  It may register and
    remove hooks and change the state of the modules; the boolean tells
    whether it returns ([true]) or throws, and what it has done until then
    stays done. *)
Definition ModuleCode : Type :=
  @Dispatch World → World → @Dispatch World * World * bool.

(** [load(name, from, ...args)].  [ctor] is [from.require(name)] followed by
    [new ModuleConstructor(wrapper, ...args)].  The boolean of the result
    tells whether a module is returned; [false] is [null]. *)
Definition load (d : @Dispatch World) (w : World) (name : string) (ctor : ModuleCode)
  : @Dispatch World * World * bool :=
  if bool_decide (name ∈ modules d) then (d, w, true)
  else
    match ctor d w with
    | (d1, w1, true) => (register_module d1 name, w1, true)
    | (d1, w1, false) => (remove_namespace name d1, w1, false)
    end.

(** [unload(name)] with the destructor of the module: [None] when
    [mod.destructor] is not a function.  What the destructor throws is
    caught. *)
Definition unload_module (d : @Dispatch World) (w : World) (name : string)
    (destructor : option ModuleCode) : @Dispatch World * World * bool :=
  if bool_decide (name ∈ modules d) then
    let d1 := remove_namespace name d in
    let '(d2, w2) :=
      match destructor with
      | Some run => let '(d2, w2, _) := run d1 w in (d2, w2)
      | None => (d1, w)
      end in
    ({| hooks := hooks d2; modules := modules d2 ∖ {[name]};
        protocolVersion := protocolVersion d2; protocolMap := protocolMap d2;
        timers := timers d2; next_id := next_id d2 |}, w2, true)
  else (d, w, false).

(** What [write] is given: a buffer in the place of [name], or a name, a
    version and the data of an event. *)
Inductive WriteArg :=
| WriteBuffer (name : bytes)
| WriteNamed (name : string) (version : WriteVersion) (data : value).

(** What comes of a call of [write]: the boolean returned ([None] when
    [handle] throws), the frame handed to the connection with its direction
    ([true] for [sendServer], [false] for [sendClient]) and what [handle]
    left. *)
Record Written := {
  wr_return : option bool;
  wr_sent : option (bool * bytes);
  wr_dispatch : @Dispatch World;
  wr_heap : addr;
  wr_world : World;
  wr_trace : list (@Event World)
}.

(** The frame [write] passes to [handle]: a copy of the buffer, or what
    [protocol.write(this.protocolVersion, name, version, data)] returns.
    [None] is the [return false] of a missing version or of a codec that
    throws.  [write_named] is [protocol.write] called with a name. *)
Definition write_frame
    (write_named : option Z → string → WriteVersion → value → option bytes)
    (d : @Dispatch World) (arg : WriteArg) : option bytes :=
  match arg with
  | WriteBuffer name => Some name
  | WriteNamed name version data =>
      match version with
      | WOther => None
      | _ => write_named (protocolVersion d) name version data
      end
  end.

(** [write(outgoing, name, version, data)] of the dispatch ([write] alone
    is the function of the codec).  [connection] tells whether
    [this.connection] is set.  The messages that [write] logs itself are
    left out. *)
Definition dispatch_write (codec : Codec) (types : list string)
    (write_named : option Z → string → WriteVersion → value → option bytes)
    (d : @Dispatch World) (w : World) (next : addr)
    (connection outgoing : bool) (arg : WriteArg) : Written :=
  let unsent :=
    {| wr_return := Some false; wr_sent := None; wr_dispatch := d; wr_heap := next;
       wr_world := w; wr_trace := [] |} in
  if negb connection then unsent
  else
    match write_frame write_named d arg with
    | None => unsent
    | Some frame =>
        let r := handle codec types d w next frame (negb outgoing) true in
        {| wr_return := match hd_return r with
                        | Returned _ => Some true
                        | SUPPRESS => Some false
                        | Thrown => None
                        end;
           wr_sent := match hd_return r with
                      | Returned result => Some (outgoing, result)
                      | _ => None
                      end;
           wr_dispatch := hd_dispatch r; wr_heap := hd_heap r; wr_world := hd_world r;
           wr_trace := hd_trace r |}
    end.

(** *** What the traces of [handle] tell *)

(** The hooks whose callback is called, in the order of the calls. *)
Definition called (tr : list (@Event World)) : list (@Hook World) :=
  omap (λ ev, match ev with EvCall h _ _ => Some h | _ => None end) tr.

(** The flags these calls see. *)
Definition call_flags (tr : list (@Event World)) : list Flags :=
  omap (λ ev, match ev with EvCall _ fl _ => Some fl | _ => None end) tr.

(** Of two calls, the later one sees [modified] set when the earlier one
    did. *)
Definition modified_stays (earlier later : Flags) : Prop :=
  fl_modified earlier = true → fl_modified later = true.


(** What the loop of [handle] keeps about [modified]: the calls so far see
    it in ascending order, and a call that saw it set leaves it set. *)
Definition flags_kept (st : @LoopState World) : Prop :=
  StronglySorted modified_stays (call_flags (trace st))
  ∧ Forall (λ fl, fl_modified fl = true → modified st = true) (call_flags (trace st)).


(** The timers that are armed belong to hooks created so far. *)
Definition timers_bounded (d : @Dispatch World) : Prop :=
  ∀ t, t ∈ timers d → (t < next_id d)%nat.

End modules.

(* ===================================================================== *)
(** ** System messages *)
(* ===================================================================== *)

From Stdlib.Strings Require Import Ascii.

(** A fragment of JavaScript strings: the characters are those of one
    byte.  [vt] is ['\v'], the separator of the tokens of a system
    message. *)
Definition vt : ascii := "011"%char.

(** [s.includes(c)] for a string [c] of one character. *)
Fixpoint includes (c : ascii) (s : string) : bool :=
  match s with
  | EmptyString => false
  | String a rest => bool_decide (a = c) || includes c rest
  end.

(** [s.split(sep)] for a separator of one character: the pieces between the
    separators, one piece at least. *)
Fixpoint split (sep : ascii) (s : string) : list string :=
  match s with
  | EmptyString => [EmptyString]
  | String a rest =>
      if bool_decide (a = sep) then EmptyString :: split sep rest
      else
        match split sep rest with
        | piece :: pieces => String a piece :: pieces
        | [] => [String a EmptyString]
        end
  end.

(** [s.substring(1)] *)
Definition substring1 (s : string) : string :=
  match s with
  | EmptyString => EmptyString
  | String _ rest => rest
  end.

(** White space that [parseInt] skips: the characters from tab to carriage
    return, the space and the no-break space. *)
Definition is_whitespace (c : ascii) : bool :=
  let n := Z.of_nat (nat_of_ascii c) in
  ((9 <=? n) && (n <=? 13)) || (n =? 32) || (n =? 160).

Fixpoint skip_whitespace (s : string) : string :=
  match s with
  | EmptyString => EmptyString
  | String a rest => if is_whitespace a then skip_whitespace rest else s
  end.

(** [\d], and a string of such characters. *)
Definition is_digit (c : ascii) : bool :=
  let n := Z.of_nat (nat_of_ascii c) in
  (48 <=? n) && (n <=? 57).

Fixpoint all_digits (s : string) : bool :=
  match s with
  | EmptyString => true
  | String a rest => is_digit a && all_digits rest
  end.

(** The value of a character as a digit: [0-9], then the letters. *)
Definition digit_of (c : ascii) : option Z :=
  let n := Z.of_nat (nat_of_ascii c) in
  if (48 <=? n) && (n <=? 57) then Some (n - 48)
  else if (97 <=? n) && (n <=? 122) then Some (n - 87)
  else if (65 <=? n) && (n <=? 90) then Some (n - 55)
  else None.

(** The digits at the head of [s] in base [radix]; [acc] is the number read
    so far, [None] as long as no digit was read. *)
Fixpoint parse_digits (radix : Z) (s : string) (acc : option Z) : option Z :=
  match s with
  | EmptyString => acc
  | String a rest =>
      match digit_of a with
      | Some dgt =>
          if dgt <? radix then parse_digits radix rest (Some (default 0 acc * radix + dgt))
          else acc
      | None => acc
      end
  end.

(** [parseInt(s)]: white space, a sign, [0x] for base 16, then digits;
    [None] is [NaN]. *)
Definition parseInt (s : string) : option Z :=
  let s1 := skip_whitespace s in
  let '(sign, s2) :=
    match s1 with
    | String "-" rest => (-1, rest)
    | String "+" rest => (1, rest)
    | _ => (1, s1)
    end in
  let '(radix, s3) :=
    match s2 with
    | String "0" (String "x" rest) | String "0" (String "X" rest) => (16, rest)
    | _ => (10, s2)
    end in
  Z.mul sign <$> parse_digits radix s3 None.

(** [sysmsg.maps.get(version)]: [{ name, code }]. *)
Record SysmsgMap := {
  sm_name : gmap string Z;
  sm_code : gmap Z string
}.

Inductive SysmsgError :=
| ExpectedAt              (* Error: Invalid system message (expected @) *)
| NoSysmsgMap             (* TypeError: this.sysmsgMap is undefined *)
| UnmappedMessage         (* Error: Unmapped system message *)
| ExpectedObject          (* TypeError: Expected object or string *)
| IdRequired              (* Error: message.id is required *)
| UnknownMessage.         (* Error: Unknown system message *)

(** [data[key] = val] on the plain object [data]: an assignment to
    [__proto__] of a string adds no property. *)
Definition set_token (key val : string) (data : gmap string string) : gmap string string :=
  if bool_decide (key = "__proto__"%string) then data else <[key := val]> data.

(** [for(let i = 2; i < tokens.length; i += 2) data[tokens[i - 1]] = tokens[i]],
    on the tokens from [tokens[1]] on. *)
Fixpoint token_pairs (tokens : list string) (data : gmap string string)
  : gmap string string :=
  match tokens with
  | key :: val :: rest => token_pairs rest (set_token key val data)
  | _ => data
  end.

(** [parseSystemMessage(message)]: the error thrown, or [{id, tokens}]. *)
Definition parseSystemMessage (sysmsgMap : option SysmsgMap) (message : string)
  : SysmsgError + (string * gmap string string) :=
  match message with
  | String "@" _ =>
      let tokens := split vt message in
      let id := substring1 (hd EmptyString tokens) in
      let name :=
        if includes ":" id then inr (Some id)
        else
          match sysmsgMap with
          | None => inl NoSysmsgMap
          | Some map =>
              inr (match parseInt id with
                   | Some code => sm_code map !! code
                   | None => None
                   end)
          end in
      match name with
      | inl e => inl e
      | inr (Some name) =>
          if bool_decide (name = EmptyString) then inl UnmappedMessage
          else inr (name, token_pairs (tl tokens) ∅)
      | inr None => inl UnmappedMessage
      end
  | _ => inl ExpectedAt
  end.

(** What [buildSystemMessage] is given: a string and the tokens, an object
    [{id, tokens}] whose [id], if any, is a string, or something else.  The
    tokens are the enumerable properties of [data], in the order [for..in]
    goes through them, with their values as strings. *)
Inductive BuildArg :=
| MsgString (message : string) (data : list (string * string))
| MsgObject (id : option string) (tokens : list (string * string))
| MsgOther.

(** [for(let key in data) str += `\v${key}\v${data[key]}`] *)
Definition append_tokens (str : string) (data : list (string * string)) : string :=
  foldl (λ str kv, str +:+ String vt kv.1 +:+ String vt kv.2) str data.

(** [buildSystemMessage(message, data)]: the error thrown, or the string. *)
Definition buildSystemMessage (sysmsgMap : option SysmsgMap) (arg : BuildArg)
  : SysmsgError + string :=
  let message :=
    match arg with
    | MsgString message data => inr (message, data)
    | MsgObject None _ => inl IdRequired
    | MsgObject (Some id) tokens =>
        if bool_decide (id = EmptyString) then inl IdRequired else inr (id, tokens)
    | MsgOther => inl ExpectedObject
    end in
  match message with
  | inl e => inl e
  | inr (message_id, data) =>
      let id :=
        if includes ":" message_id then inr (Some message_id)
        else
          match sysmsgMap with
          | None => inl NoSysmsgMap
          | Some map =>
              inr (match sm_name map !! message_id with
                   | Some code => if code =? 0 then None else Some (pretty code)
                   | None => None
                   end)
          end in
      match id with
      | inl e => inl e
      | inr None => inl UnknownMessage
      | inr (Some id) => inr (append_tokens (String "@" id) data)
      end
  end.

(** The object that the token loop of [parseSystemMessage] makes of the
    pairs of a list. *)
Definition token_map (data : list (string * string)) : gmap string string :=
  foldl (λ m kv, set_token kv.1 kv.2 m) ∅ data.

(** No separator inside. *)
Definition no_vt (s : string) : Prop := includes vt s = false.

(* ===================================================================== *)
(** ** Revisions *)
(* ===================================================================== *)

(** The regular expressions that [setRevision] needs, matched the way
    [RegExp.prototype.exec] matches: from left to right, with backtracking.
    A quantifier is on a class of characters or is the [?] of a group. *)
Inductive regex :=
| RClass (p : ascii → bool)        (* one character of a class: [.], [\d], a literal *)
| RSeq (r1 r2 : regex)             (* [r1 r2] *)
| ROpt (r : regex)                 (* [r?]: with [r] first, then without *)
| RPlus (p : ascii → bool)         (* [p+]: the longest run first *)
| RPlusLazy (p : ascii → bool)     (* [p+?]: the shortest run first *)
| RGroup (i : nat) (r : regex)     (* the capture group of number [i] *)
| REnd.                            (* [$] *)

(** The groups that took part in the match, with what they captured. *)
Definition captures := gmap nat string.

(** What is left to match: given what was just matched, the input that is
    left and the captures, the captures of the whole match if there is
    one. *)
Definition continuation : Type := string → string → captures → option captures.

(** [p*] after the first character of [p+], the longest run first. *)
Fixpoint star_greedy (p : ascii → bool) (s : string) (c : captures) (k : continuation)
  : option captures :=
  match s with
  | EmptyString => k EmptyString s c
  | String a rest =>
      if p a then
        match star_greedy p rest c (λ m, k (String a m)) with
        | Some result => Some result
        | None => k EmptyString s c
        end
      else k EmptyString s c
  end.

(** [p*?] after the first character of [p+?], the shortest run first. *)
Fixpoint star_lazy (p : ascii → bool) (s : string) (c : captures) (k : continuation)
  : option captures :=
  match k EmptyString s c with
  | Some result => Some result
  | None =>
      match s with
      | EmptyString => None
      | String a rest => if p a then star_lazy p rest c (λ m, k (String a m)) else None
      end
  end.

(** The match of [r] at the head of [s], followed by [k]. *)
Fixpoint rmatch (r : regex) (s : string) (c : captures) (k : continuation)
  : option captures :=
  match r with
  | RClass p =>
      match s with
      | String a rest => if p a then k (String a EmptyString) rest c else None
      | EmptyString => None
      end
  | RSeq r1 r2 =>
      rmatch r1 s c (λ m1 s1 c1, rmatch r2 s1 c1 (λ m2, k (m1 +:+ m2)))
  | ROpt r1 =>
      match rmatch r1 s c k with
      | Some result => Some result
      | None => k EmptyString s c
      end
  | RPlus p =>
      match s with
      | String a rest => if p a then star_greedy p rest c (λ m, k (String a m)) else None
      | EmptyString => None
      end
  | RPlusLazy p =>
      match s with
      | String a rest => if p a then star_lazy p rest c (λ m, k (String a m)) else None
      | EmptyString => None
      end
  | RGroup i r1 => rmatch r1 s c (λ m s1 c1, k m s1 (<[i := m]> c1))
  | REnd =>
      match s with
      | EmptyString => k EmptyString s c
      | String _ _ => None
      end
  end.

(** [/^r/.exec(s)]: the expression is tried at the start of [s] only.
    Group 0 is the whole match. *)
Definition exec (r : regex) (s : string) : option captures :=
  rmatch r s ∅ (λ m _ c, Some (<[O := m]> c)).

(** The classes of [/^((.+?)-)?(\d+)(\.(\d+))?(\/(\d+))?$/]: [.] is any
    character but a line terminator. *)
Definition is_char (c a : ascii) : bool := bool_decide (a = c).

Definition any_char (a : ascii) : bool :=
  negb (bool_decide (a = "010"%char) || bool_decide (a = "013"%char)).

Definition region_part : regex :=
  ROpt (RGroup 1 (RSeq (RGroup 2 (RPlusLazy any_char)) (RClass (is_char "-")))).

Definition major_part : regex := RGroup 3 (RPlus is_digit).

Definition minor_part : regex :=
  ROpt (RGroup 4 (RSeq (RClass (is_char ".")) (RGroup 5 (RPlus is_digit)))).

Definition sysmsg_part : regex :=
  ROpt (RGroup 6 (RSeq (RClass (is_char "/")) (RGroup 7 (RPlus is_digit)))).

Definition revision_regex : regex :=
  RSeq region_part (RSeq major_part (RSeq minor_part (RSeq sysmsg_part REnd))).

(** [Number(s)] for a string of decimal digits. *)
Definition number_of (s : string) : Z := default 0 (parse_digits 10 s None).

(** What [setRevision] sets: [region] and [sysmsgVersion] may be
    [undefined]. *)
Record Revision := {
  region : option string;
  majorPatchVersion : jsnumber;
  minorPatchVersion : Z;
  sysmsgVersion : option Z
}.

(** [setRevision(rev)]; [None] is the error "Invalid revision". *)
Definition setRevision (rev : string) : option Revision :=
  match exec revision_regex rev with
  | None => None
  | Some m =>
      Some {| region := m !! 2%nat;
              majorPatchVersion :=
                match m !! 3%nat with Some s => JNum (number_of s) | None => JNaN end;
              minorPatchVersion :=
                match m !! 5%nat with Some s => number_of s | None => 0 end;
              sysmsgVersion :=
                match m !! 7%nat with
                | Some s => if bool_decide (s = EmptyString) then None else Some (number_of s)
                | None => None
                end |}
  end.

(** [this.sysmsgVersion || this.majorPatchVersion], the key of the map of
    the system messages in [setProtocolVersion]. *)
Definition sysmsg_key (rev : Revision) : jsnumber :=
  match sysmsgVersion rev with
  | Some v => if v =? 0 then majorPatchVersion rev else JNum v
  | None => majorPatchVersion rev
  end.

(** The format of a revision, as the comment of [setRevision] has it:
    [(region-)majorPatchVersion(.minorPatchVersion)(/sysmsgVersion)]. *)
Definition numbers_string (major : string) (minor sysmsg : option string) : string :=
  major +:+ from_option (String ".") EmptyString minor
        +:+ from_option (String "/") EmptyString sysmsg.

Definition revision_string (region : option string) (major : string)
    (minor sysmsg : option string) : string :=
  from_option (λ r, r +:+ "-") EmptyString region +:+ numbers_string major minor sysmsg.

(** A number of the format: decimal digits, one at least. *)
Definition digits_text (s : string) : Prop := s ≠ EmptyString ∧ all_digits s = true.

(** A region of the format: any characters but line terminators, one at
    least. *)
Fixpoint all_chars (p : ascii → bool) (s : string) : bool :=
  match s with
  | EmptyString => true
  | String a rest => p a && all_chars p rest
  end.

Definition region_text (s : string) : Prop := s ≠ EmptyString ∧ all_chars any_char s = true.

(** What [r] can match at the head of an input: [accepts r m rest] when [r]
    matches [m] and [rest] is what is left of the input. *)
Fixpoint accepts (r : regex) (m rest : string) : Prop :=
  match r with
  | RClass p => ∃ a, m = String a EmptyString ∧ p a = true
  | RSeq r1 r2 => ∃ m1 m2, m = m1 +:+ m2 ∧ accepts r1 m1 (m2 +:+ rest) ∧ accepts r2 m2 rest
  | ROpt r1 => m = EmptyString ∨ accepts r1 m rest
  | RPlus p | RPlusLazy p => m ≠ EmptyString ∧ all_chars p m = true
  | RGroup _ r1 => accepts r1 m rest
  | REnd => m = EmptyString ∧ rest = EmptyString
  end.

(* ===================================================================== *)
(** ** The client side of a connection *)
(* ===================================================================== *)

(** What a [RealClient] does to its socket, to its connection and to its
    packetizer. *)
Inductive ClientEffect :=
| SocketEnd
| SocketUnref
| SocketWrite (data : bytes)
| ConnectionClose
| ConnectionSendServer (data : bytes)
| PacketizerRecv (data : bytes).

(** The fields of a [RealClient], by whether they are set: a field that is
    [null] is [false]. *)
Record RealClient := {
  rc_connection : bool;
  rc_socket : bool;
  rc_session : bool;
  rc_packetizer : bool
}.

(** [new RealClient(connection, socket)] *)
Definition new_RealClient : RealClient :=
  {| rc_connection := true; rc_socket := true; rc_session := false; rc_packetizer := true |}.

(** [close()].  [connection.close()] may call the [close()] of the client
    again, as the comment of the method has it: [nested] is that call, if it
    happens. *)
Definition close_with (nested : option (RealClient → RealClient * list ClientEffect))
    (client : RealClient) : RealClient * list ClientEffect :=
  let ended := if rc_socket client then [SocketEnd; SocketUnref] else [] in
  let '(client', closed) :=
    if rc_connection client then
      let unlinked :=
        {| rc_connection := false; rc_socket := false;
           rc_session := rc_session client; rc_packetizer := rc_packetizer client |} in
      match nested with
      | Some again => let '(after, more) := again unlinked in (after, ConnectionClose :: more)
      | None => (unlinked, [ConnectionClose])
      end
    else
      ({| rc_connection := false; rc_socket := false;
          rc_session := rc_session client; rc_packetizer := rc_packetizer client |}, []) in
  ({| rc_connection := rc_connection client'; rc_socket := rc_socket client';
      rc_session := false; rc_packetizer := false |},
   ended ++ closed).

(** [close()], with a connection that calls back or not. *)
Definition close (calls_back : bool) (client : RealClient)
  : RealClient * list ClientEffect :=
  close_with (if calls_back then Some (close_with None) else None) client.

(** The handler of the event ['close'] of the socket:
    [this.socket = null; this.close()]. *)
Definition on_socket_close (calls_back : bool) (client : RealClient)
  : RealClient * list ClientEffect :=
  close calls_back
    {| rc_connection := rc_connection client; rc_socket := false;
       rc_session := rc_session client; rc_packetizer := rc_packetizer client |}.

(** [onData(data)]: [this.socket.write(data)]; [None] is the TypeError on a
    socket that is [null]. *)
Definition onData (client : RealClient) (data : bytes) : option (list ClientEffect) :=
  if rc_socket client then Some [SocketWrite data] else None.

(** The handler of the event ['data'] of the socket:
    [this.connection.sendServer(data); this.packetizer.recv(data)]; the
    effects until it returns or throws, and whether it returns. *)
Definition on_socket_data (client : RealClient) (data : bytes) : list ClientEffect * bool :=
  if rc_connection client then
    if rc_packetizer client then ([ConnectionSendServer data; PacketizerRecv data], true)
    else ([ConnectionSendServer data], false)
  else ([], false).

(* ===================================================================== *)
(** ** Sample data *)
(* ===================================================================== *)

(** The custom types of tera-data-parser. *)
Definition sample_types : list string := ["Vec3"; "SkillID"; "Customize"]%string.

(** A parsed event: a record with a number, a position, a buffer and an
    array of records. *)
Definition sample_event : value :=
  VRecord 0%nat
    [("gameId", VPrim (PBigInt 42));
     ("loc", VCustom 1%nat "Vec3" [("x", VPrim (PNum 1)); ("y", VPrim (PNum 2));
                                   ("z", VPrim (PNum 3))]);
     ("blob", VBuffer 2%nat [x01; x02]);
     ("items", VArray 3%nat [VRecord 4%nat [("id", VPrim (PNum 7))]])]%string.

(** An event with a [null] property. *)
Definition sample_null_event : value :=
  VRecord 0%nat [("name", VPrim (PStr "a")); ("guild", VNull)]%string.

(** A codec with one protocol version, two messages and, for S_LOGIN, the
    definitions 1 and 2.  Every frame parses to [sample_event] and every event
    is written as a frame of six bytes with the opcode [0x1234]. *)
Definition sample_map : ProtocolMap :=
  {| pm_name := {[ "S_LOGIN"%string := 4660; "S_CHAT"%string := 4661 ]};
     pm_code := {[ 4660 := "S_LOGIN"%string; 4661 := "S_CHAT"%string ]} |}.

Definition sample_frame : bytes := [x06; x00; x34; x12; xaa; xbb].
Definition sample_written : bytes := [x06; x00; x34; x12; xcc; xdd].

Definition sample_codec : Codec :=
  {| Schema := unit;
     parse := λ _ _ _ _, Some sample_event;
     write := λ _ _ _ _, Some sample_written;
     messages := {[ "S_LOGIN"%string := {[ 1 := (); 2 := () ]} ]};
     maps := {[ 1 := sample_map ]};
     first_version := Some 1 |}.

(** Callbacks of modules without state: one that returns [undefined], one
    that returns a boolean. *)
Definition returns_undefined : @Callback unit :=
  {| on_raw := λ _ bs _ w, {| ro_data := bs; ro_result := Some RROther; ro_world := w |};
     on_event := λ e _ w, {| eo_event := e; eo_result := Some EROther; eo_world := w |};
     on_timeout := λ w, w |}.

Definition returns_bool (b : bool) : @Callback unit :=
  {| on_raw := λ _ bs _ w, {| ro_data := bs; ro_result := Some (RRBool b); ro_world := w |};
     on_event := λ e _ w, {| eo_event := e; eo_result := Some (ERBool b); eo_world := w |};
     on_timeout := λ w, w |}.

Definition no_filter : FilterOpts :=
  {| fo_fake := None; fo_incoming := None; fo_modified := None; fo_silenced := None |}.

Definition with_order (order : Z) : HookOpts :=
  {| o_order := Some order; o_filter := no_filter; o_timeout := None |}.

Definition with_timeout (ms : Z) : HookOpts :=
  {| o_order := None; o_filter := no_filter; o_timeout := Some ms |}.

(** The state after a call of [hook], the same state if it throws. *)
Definition hook_state {World : Type} (codec : Codec) (d : @Dispatch World)
    (namespace name : string) (version : VersionArg) (opts : HookOpts) (cb : option Callback)
  : Dispatch :=
  match hook codec d namespace name version opts cb with
  | inr (_, d') => d'
  | inl _ => d
  end.

(** The hook returned by a call of [hook], if it returns. *)
Definition hook_handle {World : Type} (codec : Codec) (d : @Dispatch World)
    (namespace name : string) (version : VersionArg) (opts : HookOpts) (cb : option Callback)
  : option Hook :=
  match hook codec d namespace name version opts cb with
  | inr (h, _) => Some h
  | inl _ => None
  end.

Definition sample_base : @Dispatch unit := setProtocolVersion sample_codec new_Dispatch 1.

(** Three registrations: a hook of S_LOGIN with order 5, a wildcard hook with
    order 5, a hook of S_LOGIN with order 0. *)
Definition sample_registry : @Dispatch unit :=
  let d1 := hook_state sample_codec sample_base "mod" "S_LOGIN" (VerNum 2) (with_order 5)
              (Some returns_undefined) in
  let d2 := hook_state sample_codec d1 "mod" "*" VerRaw (with_order 5)
              (Some returns_undefined) in
  hook_state sample_codec d2 "other" "S_LOGIN" VerRaw (with_order 0)
    (Some returns_undefined).

(** A hook of S_LOGIN registered with a timeout. *)
Definition sample_timed_hook : @Hook unit :=
  {| h_id := 0%nat; h_namespace := "mod"; h_code := COp 4660;
     h_filter := {| f_fake := Some false; f_incoming := None; f_modified := None;
                    f_silenced := Some false |};
     h_order := 0; h_definitionVersion := DRaw; h_callback := returns_undefined;
     h_timeout := Some 0%nat; h_name := "S_LOGIN" |}.

Definition sample_timed : @Dispatch unit :=
  hook_state sample_codec sample_base "mod" "S_LOGIN" VerRaw (with_timeout 1000)
    (Some returns_undefined).

(** One structured hook of S_LOGIN, version 2, that returns [undefined]: the
    only hook, hence the last one, for a frame of S_LOGIN. *)
Definition sample_single : @Dispatch unit :=
  hook_state sample_codec sample_base "mod" "S_LOGIN" (VerNum 2) (with_order 0)
    (Some returns_undefined).


(** The same codec, parsing every frame to the event with a [null] property. *)
Definition sample_null_codec : Codec :=
  {| Schema := unit;
     parse := λ _ _ _ _, Some sample_null_event;
     write := λ _ _ _ _, Some sample_written;
     messages := messages sample_codec;
     maps := maps sample_codec;
     first_version := Some 1 |}.





(** One structured hook of S_LOGIN that returns [false]. *)
Definition sample_silencer : @Dispatch unit :=
  hook_state sample_codec sample_base "mod" "S_LOGIN" (VerNum 2) (with_order 0)
    (Some (returns_bool false)).



(** A raw hook of S_LOGIN whose filter lets fake frames through. *)
Definition any_fake : FilterOpts :=
  {| fo_fake := Some None; fo_incoming := None; fo_modified := None; fo_silenced := None |}.

Definition sample_fake : @Dispatch unit :=
  hook_state sample_codec sample_base "mod" "S_LOGIN" VerRaw
    {| o_order := None; o_filter := any_fake; o_timeout := None |} (Some returns_undefined).

Definition sample_fake_hook : @Hook unit :=
  {| h_id := 0%nat; h_namespace := "mod"; h_code := COp 4660;
     h_filter := assign_filter any_fake;
     h_order := 0; h_definitionVersion := DRaw; h_callback := returns_undefined;
     h_timeout := None; h_name := "S_LOGIN" |}.

(** The flags of a frame that a module sends to the client. *)
Definition sample_fake_flags : Flags :=
  {| fl_fake := true; fl_incoming := true; fl_modified := false; fl_silenced := false |}.

(** The codec called with a name: every message is written as the sample
    frame. *)
Definition sample_write_named (protoVer : option Z) (name : string) (version : WriteVersion)
    (event : value) : option bytes :=
  Some sample_written.

(** A map of system messages with one message, and two tokens. *)
Definition sample_sysmsg : SysmsgMap :=
  {| sm_name := {[ "SMT_HELLO"%string := 5 ]}; sm_code := {[ 5 := "SMT_HELLO"%string ]} |}.

Definition sample_tokens : list (string * string) :=
  [("name", "Bob"); ("count", "3")]%string.

(** The sample registry with the module "mod" loaded, and a constructor
    that registers a hook and then throws. *)
Definition sample_loaded : @Dispatch unit := register_module sample_registry "mod".

Definition failing_constructor : @ModuleCode unit :=
  λ d w, (hook_state sample_codec d "broken" "S_LOGIN" VerRaw (with_order 0)
            (Some returns_undefined), w, false).

(* ===================================================================== *)
(** * Properties *)
(* ===================================================================== *)

(** ** [deepClone] *)

Section deepClone_facts.
Variable types : list string.

Lemma fresh_copy_weaken v next r lo :
  (lo ≤ next)%nat → fresh_copy v next r →
  Forall (λ a, lo ≤ a < r.2)%nat (addrs r.1).
Proof.
  intros Hlo (_ & _ & Hall). eapply Forall_impl; [exact Hall|].
  simpl. intros a Ha. lia.
Qed.

Lemma clone_entry_prim rec val next :
  is_prim val = true → clone_entry rec val next = (val, next).
Proof. by destruct val. Qed.











(** An instance of a custom type is copied one level deep: an object held by
    one of its fields is the same object in the copy. *)
Lemma deepClone_custom_shallow a cls fs next :
  cls ∈ types → deepClone types (VCustom a cls fs) next = (VCustom next cls fs, S next).
Proof. intros Hin. simpl. by rewrite bool_decide_eq_true_2. Qed.

End deepClone_facts.

(** ** The registry *)

Section registry_facts.
Context {World : Type}.
Implicit Types (ordering : list (@HookGroup World)) (h hook : @Hook World)
  (g : @HookGroup World) (d : @Dispatch World).

(** *** [binarySearch] *)

Lemma shiftr1_bounds (n : Z) : 0 ≤ n → 0 ≤ Z.shiftr n 1 ≤ n.
Proof.
  intros Hn. rewrite Z.shiftr_div_pow2 by lia. change (2 ^ 1) with 2.
  split; [apply Z.div_pos; lia|]. apply Z.div_le_upper_bound; lia.
Qed.

(** The search returns, on any array: its indices stay inside. *)
Lemma bs_loop_total fuel ordering needle low high :
  0 ≤ low → high < Z.of_nat (length ordering) →
  (0 < fuel)%nat → high - low + 1 < Z.of_nat fuel →
  is_Some (bs_loop fuel ordering needle low high).
Proof.
  revert low high.
  induction fuel as [|fuel IH]; intros low high Hlow Hhigh Hpos Hfuel; [lia|].
  simpl. destruct (Z.leb_spec low high) as [Hle|Hgt]; [|by eexists].
  pose proof (shiftr1_bounds (high - low) ltac:(lia)) as Hmid.
  destruct (ordering !! Z.to_nat (low + Z.shiftr (high - low) 1)) as [a|] eqn:Ha.
  - destruct (Z.ltb_spec (g_order a - needle) 0); [apply IH; lia|].
    destruct (Z.ltb_spec 0 (g_order a - needle)); [apply IH; lia|]. by eexists.
  - apply lookup_ge_None in Ha. lia.
Qed.

Lemma binarySearch_total ordering needle : is_Some (binarySearch ordering needle).
Proof. apply bs_loop_total; lia. Qed.

Lemma bs_loop_sorted fuel ordering needle low high index :
  orders_ascending ordering →
  0 ≤ low → high < Z.of_nat (length ordering) → low ≤ high + 1 →
  (∀ (i : nat) g, ordering !! i = Some g → Z.of_nat i < low → g_order g < needle) →
  (∀ (i : nat) g, ordering !! i = Some g → high < Z.of_nat i → needle < g_order g) →
  bs_loop fuel ordering needle low high = Some index →
  search_result ordering needle index.
Proof.
  intros Hsorted. revert low high.
  induction fuel as [|fuel IH]; intros low high Hlow Hhigh Hlh Hbelow Habove Hres;
    [done|].
  simpl in Hres. destruct (Z.leb_spec low high) as [Hle|Hgt].
  - pose proof (shiftr1_bounds (high - low) ltac:(lia)) as Hmid.
    set (mid := low + Z.shiftr (high - low) 1) in *.
    destruct (ordering !! Z.to_nat mid) as [a|] eqn:Ha; [|done].
    destruct (Z.ltb_spec (g_order a - needle) 0) as [Hlt|Hge].
    { apply (IH (mid + 1) high); try lia; [|done..].
      intros i g Hg Hi.
      destruct (decide (i = Z.to_nat mid)) as [->|Hne]; [rewrite Ha in Hg; injection Hg as <-; lia|].
      assert (g_order g < g_order a); [|lia].
      apply (Hsorted i (Z.to_nat mid)); [lia|done..]. }
    destruct (Z.ltb_spec 0 (g_order a - needle)) as [Hgt|Heq].
    { apply (IH low (mid - 1)); try lia; [done| |done].
      intros i g Hg Hi.
      destruct (decide (i = Z.to_nat mid)) as [->|Hne]; [rewrite Ha in Hg; injection Hg as <-; lia|].
      assert (g_order a < g_order g); [|lia].
      apply (Hsorted (Z.to_nat mid) i); [lia|done..]. }
    injection Hres as <-. left. split; [lia|]. exists a. split; [done|lia].
  - injection Hres as <-. right. rewrite Z.lnot_involutive.
    assert (Z.lnot low < 0) by (unfold Z.lnot; lia).
    repeat split; try lia.
    + intros i g Hg Hi. by apply (Hbelow i).
    + intros i g Hg Hi. apply (Habove i); [done|lia].
Qed.

Lemma binarySearch_sorted ordering needle index :
  orders_ascending ordering →
  binarySearch ordering needle = Some index →
  search_result ordering needle index.
Proof.
  intros Hsorted. apply bs_loop_sorted; try done; try lia.
  intros i g Hg Hi. apply lookup_lt_Some in Hg. lia.
Qed.

(** *** The invariant of the registry *)

Lemma orders_ascending_nil : @orders_ascending World [].
Proof. intros i j a b _ Hi. by rewrite lookup_nil in Hi. Qed.

Lemma orders_ascending_cons g ordering :
  orders_ascending (g :: ordering) ↔
  orders_ascending ordering ∧ Forall (λ g', g_order g < g_order g') ordering.
Proof.
  split.
  - intros Hs. split.
    + intros i j a b Hij Ha Hb. apply (Hs (S i) (S j)); [lia|done..].
    + apply Forall_lookup. intros i g' Hg'. apply (Hs O (S i)); [lia|done..].
  - intros [Hs Hall] [|i] [|j] a b Hij Ha Hb; simpl in *; try lia.
    + injection Ha as <-. rewrite Forall_lookup in Hall. by apply (Hall j).
    + apply (Hs i j); [lia|done..].
Qed.

Lemma splice_in_lookup (k i : nat) g ordering :
  (k ≤ length ordering)%nat →
  splice_in k g ordering !! i =
    if decide (i < k)%nat then ordering !! i
    else if decide (i = k) then Some g else ordering !! (i - 1)%nat.
Proof.
  intros Hk. unfold splice_in.
  destruct (decide (i < k)%nat).
  - rewrite lookup_app_l by (rewrite length_take; lia). apply lookup_take_lt. lia.
  - rewrite lookup_app_r by (rewrite length_take; lia).
    rewrite length_take, Nat.min_l by lia.
    destruct (decide (i = k)) as [->|].
    + by rewrite Nat.sub_diag.
    + destruct (i - k)%nat as [|m] eqn:Hm; [lia|]. simpl.
      rewrite lookup_drop. f_equal. lia.
Qed.

Lemma ordering_hooks_splice k g ordering h :
  h ∈ ordering_hooks (splice_in k g ordering) ↔ h ∈ g_hooks g ∨ h ∈ ordering_hooks ordering.
Proof.
  unfold ordering_hooks, splice_in.
  rewrite <-(take_drop k ordering) at 3.
  rewrite !map_app, !concat_app. simpl. rewrite !elem_of_app. tauto.
Qed.

Lemma ordering_hooks_group ordering h :
  h ∈ ordering_hooks ordering ↔ ∃ g, g ∈ ordering ∧ h ∈ g_hooks g.
Proof.
  unfold ordering_hooks. induction ordering as [|g0 ordering IH]; simpl.
  - split; [by intros ?%elem_of_nil | by intros (g & ?%elem_of_nil & _)].
  - rewrite elem_of_app, IH. split.
    + intros [Hh | (g & Hg & Hh)]; [exists g0 | exists g]; split; try done.
      * apply elem_of_cons; by left.
      * apply elem_of_cons; by right.
    + intros (g & [-> | Hg]%elem_of_cons & Hh); [by left | right; eauto].
Qed.

Lemma ordering_hooks_elem ordering h :
  h ∈ ordering_hooks ordering ↔ ∃ (j : nat) g, ordering !! j = Some g ∧ h ∈ g_hooks g.
Proof.
  rewrite ordering_hooks_group. split.
  - intros (g & Hg & Hh). apply list_elem_of_lookup in Hg as [j Hj]. eauto.
  - intros (j & g & Hj & Hh). exists g. split; [|done].
    apply list_elem_of_lookup. eauto.
Qed.

Lemma ordering_hooks_alter (f : HookGroup → HookGroup) (i : nat) g ordering h :
  ordering !! i = Some g →
  h ∈ ordering_hooks (alter f i ordering) ↔
  h ∈ g_hooks (f g) ∨ ∃ (j : nat) g', j ≠ i ∧ ordering !! j = Some g' ∧ h ∈ g_hooks g'.
Proof.
  intros Hi. rewrite ordering_hooks_elem. split.
  - intros (j & g' & Hj & Hh).
    destruct (decide (j = i)) as [->|Hne].
    + rewrite list_lookup_alter_eq, Hi in Hj. simpl in Hj. injection Hj as <-. by left.
    + rewrite list_lookup_alter_ne in Hj by done. right. eauto.
  - intros [Hh | (j & g' & Hne & Hj & Hh)].
    + exists i, (f g). split; [|done]. by rewrite list_lookup_alter_eq, Hi.
    + exists j, g'. split; [|done]. by rewrite list_lookup_alter_ne.
Qed.

Lemma group_ok_mono c b b' g : (b ≤ b')%nat → group_ok c b g → group_ok c b' g.
Proof.
  intros Hb [Hall Hs]. split; [|done].
  eapply Forall_impl; [exact Hall|]. simpl. intros h (? & ? & ?). repeat split; [done..|lia].
Qed.

Lemma ids_sorted_snoc (hs : list (@Hook World)) hook :
  StronglySorted lt (h_id <$> hs) → Forall (λ h, h_id h < h_id hook)%nat hs →
  StronglySorted lt (h_id <$> (hs ++ [hook])).
Proof.
  induction hs as [|h hs IH]; simpl; intros Hs Hall.
  - repeat constructor.
  - apply StronglySorted_inv in Hs as [Hs Hh]. apply Forall_cons in Hall as [Hlt Hall].
    constructor; [by apply IH|].
    rewrite fmap_app. apply Forall_app. split; [done|]. by repeat constructor.
Qed.

(** *** [hook] keeps the invariant *)

Lemma alter_push_order hook (i j : nat) ordering a :
  alter (push_hook hook) i ordering !! j = Some a →
  ∃ a0, ordering !! j = Some a0 ∧ g_order a = g_order a0.
Proof.
  rewrite list_lookup_alter. destruct (decide (i = j)) as [->|Hne].
  - destruct (ordering !! j) as [a0|]; [|done]. simpl. intros [= <-]. by exists a0.
  - intros Ha. by exists a.
Qed.

Lemma add_hook_ok c hook ordering ordering' :
  ordering_ok c (h_id hook) ordering →
  h_code hook = c →
  add_hook hook ordering = Some ordering' →
  ordering_ok c (S (h_id hook)) ordering'
  ∧ ∀ h, h ∈ ordering_hooks ordering' ↔ h = hook ∨ h ∈ ordering_hooks ordering.
Proof.
  intros [Hsorted Hgroups] Hcode. unfold add_hook.
  destruct (binarySearch ordering (h_order hook)) as [index|] eqn:Hsearch; [|done].
  simpl. intros [= <-].
  assert (Forall (group_ok c (S (h_id hook))) ordering) as Hgroups'.
  { eapply Forall_impl; [exact Hgroups|]. intros g. apply group_ok_mono. lia. }
  apply binarySearch_sorted in Hsearch; [|done].
  destruct Hsearch as [(Hpos & g & Hg & Horder) | (Hneg & Hk & Hbelow & Habove)].
  - (* a group of that order exists: the hook is pushed onto it *)
    destruct (Z.ltb_spec index 0) as [|_]; [lia|].
    split; [split|].
    + intros i j a b Hij Ha Hb.
      apply alter_push_order in Ha as (a0 & Ha0 & ->).
      apply alter_push_order in Hb as (b0 & Hb0 & ->).
      by apply (Hsorted i j).
    + apply Forall_alter; [done|].
      intros g0 Hg0 [Hall Hids]. rewrite Hg in Hg0. injection Hg0 as <-.
      rewrite Forall_lookup in Hgroups.
      destruct (Hgroups _ _ Hg) as [Hold _].
      split; simpl.
      * apply Forall_app. split; [done|]. repeat constructor; [done|lia].
      * apply ids_sorted_snoc; [done|].
        eapply Forall_impl; [exact Hold|]. simpl. tauto.
    + intros h. rewrite (ordering_hooks_alter _ _ g) by done.
      rewrite ordering_hooks_elem. simpl. rewrite elem_of_app, list_elem_of_singleton.
      split.
      * intros [[Hh| ->] | (j & g' & _ & Hj & Hh)]; eauto.
      * intros [-> | (j & g' & Hj & Hh)]; [by left; right|].
        destruct (decide (j = Z.to_nat index)) as [->|Hne]; [|right; eauto].
        rewrite Hg in Hj. injection Hj as <-. by left; left.
  - (* no group of that order: a new one is spliced in at [~index] *)
    destruct (Z.ltb_spec index 0) as [_|]; [|lia].
    set (k := Z.to_nat (Z.lnot index)) in *.
    assert (k ≤ length ordering)%nat as Hkl by lia.
    split; [split|].
    + intros i j a b Hij. rewrite !splice_in_lookup by done.
      repeat case_decide; try lia; intros Ha Hb.
      * by apply (Hsorted i j).
      * injection Hb as <-. simpl. apply (Hbelow i a); [done|lia].
      * apply (Hsorted i (j - 1)%nat); [lia|done..].
      * injection Ha as <-. simpl. apply (Habove (j - 1)%nat b); [done|lia].
      * apply (Hsorted (i - 1)%nat (j - 1)%nat); [lia|done..].
    + unfold splice_in. apply Forall_app. split; [by apply Forall_take|].
      constructor; [|by apply Forall_drop].
      split; simpl; [|repeat constructor].
      constructor; [|constructor]. repeat split; [done|lia].
    + intros h. rewrite ordering_hooks_splice. simpl.
      by rewrite list_elem_of_singleton.
Qed.

Lemma ordering_ok_mono c b b' ordering :
  (b ≤ b')%nat → ordering_ok c b ordering → ordering_ok c b' ordering.
Proof.
  intros Hb [Hs Hg]. split; [done|].
  eapply Forall_impl; [exact Hg|]. intros g. by apply group_ok_mono.
Qed.

Lemma ordering_ok_nil c b : @ordering_ok World c b [].
Proof. split; [apply orders_ascending_nil | constructor]. Qed.

Lemma ordering_ok_id c b ordering h :
  ordering_ok c b ordering → h ∈ ordering_hooks ordering →
  h_code h = c ∧ (h_id h < b)%nat.
Proof.
  intros [_ Hg] (g & Hin & Hh)%ordering_hooks_group.
  rewrite Forall_forall in Hg. destruct (Hg g Hin) as [Hall _].
  rewrite Forall_forall in Hall. destruct (Hall h Hh) as (? & ? & ?). done.
Qed.

Lemma registered_id_bound d h :
  registry_ok d → registered d h → (h_id h < next_id d)%nat.
Proof.
  intros [Hok _] (ordering & Hl & Hh).
  by destruct (ordering_ok_id _ _ _ _ (Hok _ _ Hl) Hh).
Qed.

(** A hook returned by [hook] is new, is registered, and leaves the other
    hooks where they were. *)
Lemma hook_registers codec d namespace name version opts cb h d' :
  registry_ok d →
  hook codec d namespace name version opts cb = inr (h, d') →
  registry_ok d'
  ∧ h_id h = next_id d
  ∧ next_id d' = S (next_id d)
  ∧ ∀ h', registered d' h' ↔ h' = h ∨ registered d h'.
Proof.
  intros Hreg. pose proof Hreg as [Hok Huniq]. unfold hook.
  case_bool_decide; [done|].
  destruct cb as [cb|]; [|done].
  destruct (resolve_code codec d name version) as [e|code]; [done|].
  match goal with |- context [add_hook ?x _] => set (new := x) end.
  destruct (add_hook new (default [] (hooks d !! code))) as [ordering|] eqn:Hadd; [|done].
  intros [= <- <-].
  assert (ordering_ok code (h_id new) (default [] (hooks d !! code))) as Hold.
  { destruct (hooks d !! code) as [o|] eqn:Ho; simpl; [by apply Hok|apply ordering_ok_nil]. }
  destruct (add_hook_ok code new _ _ Hold eq_refl Hadd) as [Hnew Hmem].
  assert (∀ h', registered
            {| hooks := <[code:=ordering]> (hooks d); modules := modules d;
               protocolVersion := protocolVersion d; protocolMap := protocolMap d;
               timers := if timeout_given opts then {[next_id d]} ∪ timers d else timers d;
               next_id := S (next_id d) |} h'
          ↔ h' = new ∨ registered d h') as Hregd.
  { intros h'. unfold registered; simpl. split.
    - intros (o & Ho & Hh').
      destruct (decide (h_code h' = code)) as [Hc|Hc].
      + rewrite Hc, lookup_insert_eq in Ho. injection Ho as <-.
        apply Hmem in Hh' as [-> | Hh']; [by left|right].
        rewrite Hc. destruct (hooks d !! code) as [o|]; simpl in *; [eauto|].
        by apply elem_of_nil in Hh'.
      + rewrite lookup_insert_ne in Ho by done. right; eauto.
    - intros [-> | (o & Ho & Hh')].
      + exists ordering. simpl. rewrite lookup_insert_eq. split; [done|].
        apply Hmem. by left.
      + destruct (decide (h_code h' = code)) as [Hc|Hc].
        * exists ordering. rewrite Hc, lookup_insert_eq. split; [done|].
          apply Hmem. right. rewrite Hc in Ho. by rewrite Ho.
        * exists o. by rewrite lookup_insert_ne. }
  split; [split|]; simpl.
  - intros c o. destruct (decide (c = code)) as [->|Hne].
    + rewrite lookup_insert_eq. by intros [= <-].
    + rewrite lookup_insert_ne by done. intros Ho.
      apply (ordering_ok_mono c (next_id d)); [lia|by apply Hok].
  - intros h1 h2 [->|H1]%Hregd [->|H2]%Hregd Hid; try done.
    + apply (registered_id_bound _ _ Hreg) in H2. simpl in Hid. lia.
    + apply (registered_id_bound _ _ Hreg) in H1. simpl in Hid. lia.
    + by apply Huniq.
  - done.
Qed.

(** *** [unhook], [unload] and [reset] keep the invariant *)

Lemma orders_ascending_ext ordering ordering' :
  g_order <$> ordering = g_order <$> ordering' →
  orders_ascending ordering → orders_ascending ordering'.
Proof.
  intros Heq Hs i j a b Hij Ha Hb.
  assert (∀ (k : nat) x, ordering' !! k = Some x →
            ∃ y, ordering !! k = Some y ∧ g_order y = g_order x) as Hback.
  { intros k x Hk.
    assert ((g_order <$> ordering) !! k = Some (g_order x)) as Hx
        by by rewrite Heq, list_lookup_fmap, Hk.
    rewrite list_lookup_fmap in Hx.
    destruct (ordering !! k) as [y|]; [|done]. exists y. split; [done|].
    by injection Hx. }
  destruct (Hback _ _ Ha) as (a0 & Ha0 & <-).
  destruct (Hback _ _ Hb) as (b0 & Hb0 & <-).
  by apply (Hs i j).
Qed.

Lemma ids_sorted_filter (p : Hook → bool) (hs : list (@Hook World)) :
  StronglySorted lt (h_id <$> hs) → StronglySorted lt (h_id <$> List.filter p hs).
Proof.
  induction hs as [|h hs IH]; simpl; [done|].
  intros [Hs Hh]%StronglySorted_inv.
  destruct (p h); [|by apply IH]. simpl. constructor; [by apply IH|].
  rewrite Forall_fmap in Hh |- *.
  apply Forall_forall. intros x Hx. rewrite Forall_forall in Hh. apply Hh.
  apply list_elem_of_In in Hx. apply List.filter_In in Hx as [Hx _].
  by apply list_elem_of_In.
Qed.

Lemma group_ok_filter c b g (p : Hook → bool) :
  group_ok c b g →
  group_ok c b {| g_order := g_order g; g_hooks := List.filter p (g_hooks g) |}.
Proof.
  intros [Hall Hs]. split; simpl; [|by apply ids_sorted_filter].
  apply Forall_forall. intros x Hx. rewrite Forall_forall in Hall. apply Hall.
  apply list_elem_of_In in Hx. apply List.filter_In in Hx as [Hx _].
  by apply list_elem_of_In.
Qed.

Lemma remove_from_group_orders hook ordering :
  g_order <$> remove_from_group hook ordering = g_order <$> ordering.
Proof.
  induction ordering as [|o rest IH]; simpl; [done|].
  destruct (g_order o =? h_order hook); simpl; [done|]. f_equal. exact IH.
Qed.

Lemma remove_from_group_ok c b hook ordering :
  ordering_ok c b ordering → ordering_ok c b (remove_from_group hook ordering).
Proof.
  intros [Hs Hg]. split.
  - eapply orders_ascending_ext; [|exact Hs]. by rewrite remove_from_group_orders.
  - clear Hs. induction Hg as [|o rest Ho Hrest IH]; simpl; [constructor|].
    destruct (g_order o =? h_order hook); constructor; try done.
    by apply group_ok_filter.
Qed.

(** The hooks left by [unhook]: those of the first group of the order of
    [hook] that are not [hook], and all those of the other groups. *)
Lemma remove_from_group_elem hook ordering h :
  h ∈ ordering_hooks (remove_from_group hook ordering) →
  h ∈ ordering_hooks ordering.
Proof.
  unfold ordering_hooks. induction ordering as [|o rest IH]; simpl; [done|].
  destruct (g_order o =? h_order hook); simpl; rewrite !elem_of_app.
  - intros [Hh|Hh]; [left|by right].
    apply list_elem_of_In in Hh. apply List.filter_In in Hh as [Hh _].
    by apply list_elem_of_In.
  - intros [Hh|Hh]; [by left|right; by apply IH].
Qed.

Lemma registered_unhook d handle h :
  registered (unhook d handle) h → registered d h.
Proof.
  destruct handle as [hook|]; [|done]. unfold unhook.
  destruct (hooks d !! h_code hook) as [ordering|] eqn:Ho; [|done].
  intros (o & Hl & Hh). simpl in Hl.
  destruct (decide (h_code h = h_code hook)) as [Hc|Hc].
  - rewrite Hc, lookup_insert_eq in Hl. injection Hl as <-.
    exists ordering. rewrite Hc. split; [done|]. by eapply remove_from_group_elem.
  - rewrite lookup_insert_ne in Hl by done. by exists o.
Qed.

Lemma unhook_ok d handle : registry_ok d → registry_ok (unhook d handle).
Proof.
  intros [Hok Huniq]. split.
  - destruct handle as [hook|]; [|done]. unfold unhook.
    destruct (hooks d !! h_code hook) as [ordering|] eqn:Ho; [|done].
    simpl. intros c o. destruct (decide (c = h_code hook)) as [->|Hne].
    + rewrite lookup_insert_eq. intros [= <-]. apply remove_from_group_ok. by apply Hok.
    + rewrite lookup_insert_ne by done. apply Hok.
  - intros h1 h2 H1%registered_unhook H2%registered_unhook. by apply Huniq.
Qed.

Lemma registered_remove_namespace name d h :
  registered (remove_namespace name d) h → registered d h.
Proof.
  intros (o & Hl & Hh). unfold remove_namespace in Hl. simpl in Hl.
  rewrite lookup_fmap in Hl.
  destruct (hooks d !! h_code h) as [ordering|] eqn:Ho; [|done].
  simpl in Hl. injection Hl as <-. exists ordering. split; [done|].
  apply ordering_hooks_group in Hh as (g & Hg & Hh).
  apply list_elem_of_In, List.in_map_iff in Hg as (g0 & <- & Hg0). simpl in Hh.
  apply ordering_hooks_group. exists g0. split; [by apply list_elem_of_In|].
  apply list_elem_of_In in Hh. apply List.filter_In in Hh as [Hh _].
  by apply list_elem_of_In.
Qed.

Lemma remove_namespace_ok name d : registry_ok d → registry_ok (remove_namespace name d).
Proof.
  intros [Hok Huniq]. split.
  - intros c o. unfold remove_namespace. simpl. rewrite lookup_fmap.
    destruct (hooks d !! c) as [ordering|] eqn:Ho; [|done].
    simpl. intros [= <-]. destruct (Hok _ _ Ho) as [Hs Hg]. split.
    + eapply orders_ascending_ext; [|exact Hs].
      change (map ?f ?l) with (f <$> l). rewrite <-list_fmap_compose.
      by apply list_fmap_ext.
    + clear Hs Ho. induction Hg as [|g rest Hg Hrest IH]; simpl; [constructor|].
      constructor; [by apply group_ok_filter | done].
  - intros h1 h2 H1%registered_remove_namespace H2%registered_remove_namespace.
    by apply Huniq.
Qed.

Lemma registry_ok_same_hooks d d' :
  hooks d' = hooks d → next_id d' = next_id d → registry_ok d → registry_ok d'.
Proof.
  intros Hh Hn [Hok Huniq]. split.
  - intros c o. rewrite Hh, Hn. apply Hok.
  - unfold registered. rewrite Hh. apply Huniq.
Qed.

Lemma reset_ok d : registry_ok (reset d).
Proof.
  split.
  - intros c o. simpl. by rewrite lookup_empty.
  - intros h1 h2 (o & Hl & _). simpl in Hl. by rewrite lookup_empty in Hl.
Qed.

(** Every state of a [Dispatch] object satisfies the invariant. *)
Lemma reachable_ok codec d : reachable codec d → registry_ok d.
Proof.
  induction 1 as [| d version _ IH | d ns name version opts cb h d' _ IH Hhook
                  | d handle _ IH | d name _ IH | d name _ IH | d name _ IH
                  | d _ IH | d w h _ IH].
  - split.
    + intros c o. simpl. by rewrite lookup_empty.
    + intros h1 h2 (o & Hl & _). simpl in Hl. by rewrite lookup_empty in Hl.
  - by apply (registry_ok_same_hooks d).
  - by destruct (hook_registers _ _ _ _ _ _ _ _ _ IH Hhook).
  - by apply unhook_ok.
  - by apply (registry_ok_same_hooks d).
  - by apply remove_namespace_ok.
  - unfold unload. case_bool_decide; simpl; [|done].
    apply (registry_ok_same_hooks (remove_namespace name d)); [done..|].
    by apply remove_namespace_ok.
  - apply reset_ok.
  - unfold fire_timeout. destruct (h_timeout h) as [t|]; [|done].
    case_bool_decide; [|done]. cbn [fst].
    apply unhook_ok. by apply (registry_ok_same_hooks d).
Qed.

End registry_facts.

(** ** [iterateHooks] *)

Section order_facts.
Context {World : Type}.
Implicit Types (ordering gs cs : list (@HookGroup World)) (h hook : @Hook World)
  (g cg : @HookGroup World) (d : @Dispatch World).

Lemma merge_groups_nil_l ordering : merge_groups [] ordering = ordering_hooks ordering.
Proof.
  unfold ordering_hooks. induction ordering as [|g rest IH]; simpl; [done|].
  by rewrite <-IH.
Qed.

Lemma merge_groups_nil_r ordering : merge_groups ordering [] = ordering_hooks ordering.
Proof.
  unfold ordering_hooks. induction ordering as [|g rest IH]; simpl; [done|].
  by rewrite <-IH.
Qed.

Lemma merge_groups_cons g gs cg cs :
  merge_groups (g :: gs) (cg :: cs) =
    if g_order g <=? g_order cg
    then g_hooks g ++ merge_groups gs (cg :: cs)
    else g_hooks cg ++ merge_groups (g :: gs) cs.
Proof. done. Qed.

Lemma merge_groups_elem gs cs h :
  h ∈ merge_groups gs cs ↔ h ∈ ordering_hooks gs ∨ h ∈ ordering_hooks cs.
Proof.
  revert cs. induction gs as [|g gs IHg]; intros cs.
  { rewrite merge_groups_nil_l. unfold ordering_hooks at 1. simpl.
    rewrite elem_of_nil. tauto. }
  induction cs as [|cg cs IHc].
  { rewrite merge_groups_nil_r. unfold ordering_hooks at 3. simpl.
    rewrite elem_of_nil. tauto. }
  rewrite merge_groups_cons. destruct (g_order g <=? g_order cg).
  - rewrite elem_of_app, IHg. unfold ordering_hooks. simpl. rewrite !elem_of_app. tauto.
  - rewrite elem_of_app, IHc. unfold ordering_hooks. simpl. rewrite !elem_of_app. tauto.
Qed.

Lemma ordering_ok_cons c b g rest :
  ordering_ok c b (g :: rest) ↔
  group_ok c b g ∧ ordering_ok c b rest ∧ Forall (λ g', g_order g < g_order g') rest.
Proof.
  unfold ordering_ok. rewrite orders_ascending_cons, Forall_cons. tauto.
Qed.

(** The hooks of a group run in the order of their registration. *)
Lemma group_sorted c b g : group_ok c b g → StronglySorted runs_before (g_hooks g).
Proof.
  intros [Hall Hids]. induction (g_hooks g) as [|h hs IH]; [constructor|].
  apply Forall_cons in Hall as [(Hc & Ho & _) Hall].
  simpl in Hids. apply StronglySorted_inv in Hids as [Hids Hh].
  constructor; [by apply IH|].
  rewrite Forall_fmap in Hh. rewrite Forall_forall in Hh, Hall |- *.
  intros x Hx. destruct (Hall x Hx) as (Hcx & Hox & _). specialize (Hh x Hx).
  right. split; [congruence|]. right. split; [congruence|done].
Qed.

Lemma ordering_hooks_order c b ordering (lo : Z) h :
  ordering_ok c b ordering → Forall (λ g', lo < g_order g') ordering →
  h ∈ ordering_hooks ordering → h_code h = c ∧ lo < h_order h.
Proof.
  intros [_ Hg] Hlo (g & Hin & Hh)%ordering_hooks_group.
  rewrite Forall_forall in Hg, Hlo. destruct (Hg g Hin) as [Hall _].
  rewrite Forall_forall in Hall. destruct (Hall h Hh) as (? & -> & _).
  split; [done|]. by apply Hlo.
Qed.

Lemma group_hooks_order c b g h :
  group_ok c b g → h ∈ g_hooks g → h_code h = c ∧ h_order h = g_order g.
Proof.
  intros [Hall _] Hh. rewrite Forall_forall in Hall.
  by destruct (Hall h Hh) as (? & ? & _).
Qed.

(** The sequence [iterateHooks] yields is sorted by [runs_before]. *)
Lemma merge_groups_sorted b (code : Z) gs cs :
  ordering_ok CWild b gs → ordering_ok (COp code) b cs →
  StronglySorted runs_before (merge_groups gs cs).
Proof.
  revert cs. induction gs as [|g gs IHg]; intros cs Hgs.
  - induction cs as [|cg cs IHc]; intros Hcs; [constructor|].
    apply ordering_ok_cons in Hcs as (Hcg & Hcs & Hlt).
    change (merge_groups [] (cg :: cs)) with (g_hooks cg ++ merge_groups [] cs).
    apply StronglySorted_app. split; [|split; [by eapply group_sorted | by apply IHc]].
    intros x1 x2 H1 H2. rewrite merge_groups_nil_l in H2.
    destruct (group_hooks_order _ _ _ _ Hcg H1) as [_ Ho1].
    destruct (ordering_hooks_order _ _ _ _ _ Hcs Hlt H2) as [_ Ho2].
    left. lia.
  - apply ordering_ok_cons in Hgs as (Hg & Hgs & Hglt).
    induction cs as [|cg cs IHc]; intros Hcs.
    + change (merge_groups (g :: gs) []) with (g_hooks g ++ merge_groups gs []).
      apply StronglySorted_app.
      split; [|split; [by eapply group_sorted | by apply IHg; [|apply ordering_ok_nil]]].
      intros x1 x2 H1 H2. rewrite merge_groups_nil_r in H2.
      destruct (group_hooks_order _ _ _ _ Hg H1) as [_ Ho1].
      destruct (ordering_hooks_order _ _ _ _ _ Hgs Hglt H2) as [_ Ho2].
      left. lia.
    + pose proof Hcs as Hcs0.
      apply ordering_ok_cons in Hcs as (Hcg & Hcs & Hclt).
      rewrite merge_groups_cons.
      destruct (Z.leb_spec (g_order g) (g_order cg)) as [Hle|Hgt].
      * apply StronglySorted_app.
        split; [|split; [by eapply group_sorted | by apply IHg]].
        intros x1 x2 H1 H2.
        destruct (group_hooks_order _ _ _ _ Hg H1) as [Hc1 Ho1].
        apply merge_groups_elem in H2 as [H2|H2].
        { destruct (ordering_hooks_order _ _ _ _ _ Hgs Hglt H2) as [_ Ho2]. left. lia. }
        unfold ordering_hooks in H2. simpl in H2. apply elem_of_app in H2 as [H2|H2].
        { destruct (group_hooks_order _ _ _ _ Hcg H2) as [Hc2 Ho2].
          destruct (decide (g_order g = g_order cg)); [|left; lia].
          right. split; [lia|]. left. split; [done|]. by rewrite Hc2. }
        destruct (ordering_hooks_order _ _ _ _ _ Hcs Hclt H2) as [_ Ho2]. left. lia.
      * apply StronglySorted_app.
        split; [|split; [by eapply group_sorted | by apply IHc]].
        intros x1 x2 H1 H2.
        destruct (group_hooks_order _ _ _ _ Hcg H1) as [Hc1 Ho1].
        apply merge_groups_elem in H2 as [H2|H2].
        { unfold ordering_hooks in H2. simpl in H2. apply elem_of_app in H2 as [H2|H2].
          - destruct (group_hooks_order _ _ _ _ Hg H2) as [_ Ho2]. left. lia.
          - destruct (ordering_hooks_order _ _ _ _ _ Hgs Hglt H2) as [_ Ho2]. left. lia. }
        destruct (ordering_hooks_order _ _ _ _ _ Hcs Hclt H2) as [_ Ho2]. left. lia.
Qed.

Lemma filter_keep (p : Hook → bool) (l : list (@Hook World)) :
  Forall (λ h, p h = true) l → List.filter p l = l.
Proof. induction 1 as [|h l Hh _ IH]; simpl; [done|]. by rewrite Hh, IH. Qed.

Lemma filter_drop (p : Hook → bool) (l : list (@Hook World)) :
  Forall (λ h, p h = false) l → List.filter p l = [].
Proof. induction 1 as [|h l Hh _ IH]; simpl; [done|]. by rewrite Hh, IH. Qed.

Lemma group_all_code c b g : group_ok c b g → Forall (λ h, h_code h = c) (g_hooks g).
Proof. intros [Hall _]. eapply Forall_impl; [exact Hall|]. simpl. tauto. Qed.

Lemma filter_wild_group b g :
  group_ok CWild b g →
  List.filter is_wildcard (g_hooks g) = g_hooks g
  ∧ List.filter (λ h, negb (is_wildcard h)) (g_hooks g) = [].
Proof.
  intros Hall%group_all_code. split; [apply filter_keep | apply filter_drop];
    (eapply Forall_impl; [exact Hall|]); simpl; intros h Hc; unfold is_wildcard;
    by rewrite bool_decide_eq_true_2.
Qed.

Lemma filter_code_group b (code : Z) g :
  group_ok (COp code) b g →
  List.filter is_wildcard (g_hooks g) = []
  ∧ List.filter (λ h, negb (is_wildcard h)) (g_hooks g) = g_hooks g.
Proof.
  intros Hall%group_all_code. split; [apply filter_drop | apply filter_keep];
    (eapply Forall_impl; [exact Hall|]); simpl; intros h Hc; unfold is_wildcard;
    by rewrite bool_decide_eq_false_2 by (by rewrite Hc).
Qed.

Lemma ordering_hooks_cons g ordering :
  ordering_hooks (g :: ordering) = g_hooks g ++ ordering_hooks ordering.
Proof. done. Qed.

(** The sequence [iterateHooks] yields interleaves the two orderings: its
    wildcard hooks are those of the first, in their order, and the others
    those of the second, in theirs. *)
Lemma merge_groups_interleaves b (code : Z) gs cs :
  ordering_ok CWild b gs → ordering_ok (COp code) b cs →
  List.filter is_wildcard (merge_groups gs cs) = ordering_hooks gs
  ∧ List.filter (λ h, negb (is_wildcard h)) (merge_groups gs cs) = ordering_hooks cs.
Proof.
  revert cs. induction gs as [|g gs IHg]; intros cs Hgs.
  - induction cs as [|cg cs IHc]; intros Hcs; [done|].
    apply ordering_ok_cons in Hcs as (Hcg & Hcs & _).
    change (merge_groups [] (cg :: cs)) with (g_hooks cg ++ merge_groups [] cs).
    destruct (filter_code_group _ _ _ Hcg) as [Hw Hc]. destruct (IHc Hcs) as [IHw IHn].
    by rewrite ordering_hooks_cons, !List.filter_app, Hw, Hc, IHw, IHn.
  - apply ordering_ok_cons in Hgs as (Hg & Hgs & _).
    destruct (filter_wild_group _ _ Hg) as [Hgw Hgc].
    induction cs as [|cg cs IHc]; intros Hcs.
    + change (merge_groups (g :: gs) []) with (g_hooks g ++ merge_groups gs []).
      destruct (IHg [] Hgs (ordering_ok_nil _ _)) as [IHw IHn].
      by rewrite ordering_hooks_cons, !List.filter_app, Hgw, Hgc, IHw, IHn.
    + pose proof Hcs as Hcs0.
      apply ordering_ok_cons in Hcs as (Hcg & Hcs & _).
      destruct (filter_code_group _ _ _ Hcg) as [Hw Hc].
      rewrite merge_groups_cons. destruct (g_order g <=? g_order cg).
      * destruct (IHg _ Hgs Hcs0) as [IHw IHn].
        by rewrite ordering_hooks_cons, !List.filter_app, Hgw, Hgc, IHw, IHn.
      * destruct (IHc Hcs) as [IHw IHn].
        by rewrite (ordering_hooks_cons cg), !List.filter_app, Hw, Hc, IHw, IHn.
Qed.

Lemma reachable_ordering codec d c :
  reachable codec d → ordering_ok c (next_id d) (default [] (hooks d !! c)).
Proof.
  intros [Hok _]%reachable_ok.
  destruct (hooks d !! c) as [o|] eqn:Ho; simpl; [by apply Hok | apply ordering_ok_nil].
Qed.

(** C1.  Whatever hooks are registered, the hooks [handle] goes through for
    an opcode are the hooks of the WILDCARD ordering and those of the
    ordering of the opcode, merged: each ordering keeps its sequence, and
    the whole is sorted by ascending order of the groups, the wildcard hooks
    first at equal order, the hooks of one group in the order of their
    registration ([h_id] counts the registrations). *)
Theorem iterateHooks_stable_merge codec d (code : Z) :
  reachable codec d →
  let sequence := iterateHooks (hooks d !! CWild) (hooks d !! COp code) in
  StronglySorted runs_before sequence
  ∧ List.filter is_wildcard sequence = ordering_hooks (default [] (hooks d !! CWild))
  ∧ List.filter (λ h, negb (is_wildcard h)) sequence
    = ordering_hooks (default [] (hooks d !! COp code)).
Proof.
  intros Hd. simpl. unfold iterateHooks.
  pose proof (reachable_ordering codec d CWild Hd) as Hw.
  pose proof (reachable_ordering codec d (COp code) Hd) as Hc.
  split; [by eapply merge_groups_sorted|]. by eapply merge_groups_interleaves.
Qed.

(** A hook registered later has a greater [h_id] than every registered hook. *)
Lemma hook_id_after codec d namespace name version opts cb h d' h' :
  reachable codec d →
  hook codec d namespace name version opts cb = inr (h, d') →
  registered d h' → (h_id h' < h_id h)%nat.
Proof.
  intros Hd%reachable_ok Hhook Hh'.
  destruct (hook_registers _ _ _ _ _ _ _ _ _ Hd Hhook) as (_ & -> & _).
  by apply registered_id_bound.
Qed.

End order_facts.

Lemma reachable_hook_state {World : Type} codec (d : @Dispatch World)
    namespace name version opts cb :
  reachable codec d → reachable codec (hook_state codec d namespace name version opts cb).
Proof.
  intros Hd. unfold hook_state.
  destruct (hook codec d namespace name version opts cb) as [e|[h d']] eqn:Hhook; [done|].
  by eapply reach_hook.
Qed.

Lemma sample_base_reachable : reachable sample_codec sample_base.
Proof. apply reach_setProtocolVersion, reach_new. Qed.

Lemma sample_registry_reachable : reachable sample_codec sample_registry.
Proof. repeat apply reachable_hook_state. apply sample_base_reachable. Qed.

(** On the sample registry a frame of S_LOGIN meets the hook of order 0, then
    the wildcard hook of order 5, then the hook of S_LOGIN of order 5. *)
Example sample_registry_sequence :
  h_id <$> iterateHooks (hooks sample_registry !! CWild) (hooks sample_registry !! COp 4660)
  = [2; 1; 0]%nat.
Proof. vm_compute. reflexivity. Qed.

(** ** [hook] and [unhook] *)

Section hook_facts.
Context {World : Type}.
Implicit Types (ordering : list (@HookGroup World)) (h hook : @Hook World)
  (g : @HookGroup World) (d : @Dispatch World).

(** [max_keys] is the greatest key. *)
Lemma max_list_spec (l : list Z) :
  match foldr (λ k acc, Some (match acc with Some m => Z.max k m | None => k end)) None l with
  | Some m => m ∈ l ∧ ∀ k, k ∈ l → k ≤ m
  | None => l = []
  end.
Proof.
  induction l as [|x l IH]; simpl; [done|].
  destruct (foldr _ None l) as [m|].
  - destruct IH as [Hm Hmax]. split.
    + destruct (Z.max_spec x m) as [[_ ->] | [_ ->]]; [by right | by left].
    + intros k [->|Hk]%elem_of_cons; [lia|]. specialize (Hmax k Hk). lia.
  - subst l. split; [by left|]. intros k [->|Hk]%elem_of_cons; [lia|].
    by apply elem_of_nil in Hk.
Qed.

Lemma max_keys_Some {A : Type} (defs : gmap Z A) latest :
  max_keys defs = Some latest →
  is_Some (defs !! latest) ∧ ∀ v, is_Some (defs !! v) → v ≤ latest.
Proof.
  unfold max_keys. pose proof (max_list_spec (elements (dom defs))) as H.
  intros Heq. rewrite Heq in H. destruct H as [Hin Hmax]. split.
  - by apply elem_of_dom, elem_of_elements.
  - intros v Hv. by apply Hmax, elem_of_elements, elem_of_dom.
Qed.

Lemma max_keys_None {A : Type} (defs : gmap Z A) : max_keys defs = None → defs = ∅.
Proof.
  unfold max_keys. pose proof (max_list_spec (elements (dom defs))) as H.
  intros Heq. rewrite Heq in H.
  apply elements_empty_inv in H. apply leibniz_equiv in H. by apply dom_empty_inv_L.
Qed.

(** A version above the latest one has no definition. *)
Lemma newer_than_latest codec name latest v :
  latestDefVersion codec !! name = Some (Some latest) → latest < v →
  find_definition codec name (VerNum v) = None
  ∧ latest_greater codec name (VerNum v) = false.
Proof.
  intros Hlatest Hv. unfold latest_greater. rewrite Hlatest. split.
  - unfold latestDefVersion in Hlatest. rewrite lookup_fmap in Hlatest.
    unfold find_definition. destruct (messages codec !! name) as [defs|]; [|done].
    simpl in Hlatest. injection Hlatest as Hl.
    apply max_keys_Some in Hl as [_ Hmax].
    destruct (defs !! v) as [s|] eqn:Hs; [|done].
    specialize (Hmax v ltac:(by eexists)). lia.
  - destruct (Z.ltb_spec v latest); [lia|done].
Qed.

Lemma resolve_named codec d name version map code :
  name ≠ "*"%string → protocolMap d = Some map → pm_name map !! name = Some code →
  version ≠ VerRaw →
  resolve_code codec d name version =
    match find_definition codec name version with
    | Some _ => inr (COp code)
    | None => if latest_greater codec name version
              then inl ObsoleteDefinition else inl DefinitionNotFound
    end.
Proof.
  intros Hname Hmap Hcode Hraw. unfold resolve_code.
  rewrite bool_decide_eq_false_2, Hmap, Hcode by done.
  by rewrite bool_decide_eq_false_2 by done.
Qed.

(** C7, amended.  A registration for a named message that the protocol map
    resolves, with a number as version: when the codec has no definition of
    the message at that version, [hook] throws, "obsolete definition" if the
    latest version the codec knows is greater and "definition not found"
    otherwise, which is the case of a version above the latest one and of a
    message the codec does not know; the error is what the caller gets, no
    hook and no new state.  When the codec has a definition at that version
    the registration goes through, also below the latest version. *)
Theorem hook_definition_errors codec d namespace name (v : Z) opts cb map code :
  name ≠ "*"%string →
  protocolMap d = Some map →
  pm_name map !! name = Some code →
  (find_definition codec name (VerNum v) = None →
     (∀ latest, latestDefVersion codec !! name = Some (Some latest) → v < latest →
        hook codec d namespace name (VerNum v) opts (Some cb) = inl ObsoleteDefinition)
     ∧ ((∀ latest, latestDefVersion codec !! name = Some (Some latest) → latest ≤ v) →
        hook codec d namespace name (VerNum v) opts (Some cb) = inl DefinitionNotFound))
  ∧ (∀ latest, latestDefVersion codec !! name = Some (Some latest) → latest < v →
       hook codec d namespace name (VerNum v) opts (Some cb) = inl DefinitionNotFound)
  ∧ (is_Some (find_definition codec name (VerNum v)) →
       ∃ h d', hook codec d namespace name (VerNum v) opts (Some cb) = inr (h, d')
               ∧ h_code h = COp code ∧ h_definitionVersion h = DNum v).
Proof.
  intros Hname Hmap Hcode.
  pose proof (resolve_named codec d name (VerNum v) map code Hname Hmap Hcode
                ltac:(done)) as Hres.
  assert (∀ e, resolve_code codec d name (VerNum v) = inl e →
               hook codec d namespace name (VerNum v) opts (Some cb) = inl e) as Habort.
  { intros e He. unfold hook. rewrite bool_decide_eq_false_2 by done. by rewrite He. }
  assert (find_definition codec name (VerNum v) = None →
          (∀ latest, latestDefVersion codec !! name = Some (Some latest) → latest ≤ v) →
          hook codec d namespace name (VerNum v) opts (Some cb) = inl DefinitionNotFound)
    as Hnotfound.
  { intros Hnone Hlatest. apply Habort. rewrite Hres, Hnone. unfold latest_greater.
    destruct (latestDefVersion codec !! name) as [[latest|]|] eqn:Hl; try done.
    specialize (Hlatest latest eq_refl). by destruct (Z.ltb_spec v latest); [lia|]. }
  split; [|split].
  - intros Hnone. split; [|by apply Hnotfound].
    intros latest Hlatest Hv. apply Habort. rewrite Hres, Hnone.
    unfold latest_greater. rewrite Hlatest. by destruct (Z.ltb_spec v latest); [|lia].
  - intros latest Hlatest Hv.
    destruct (newer_than_latest codec name latest v Hlatest Hv) as [Hnone _].
    apply Hnotfound; [done|]. intros l Hl. rewrite Hlatest in Hl. injection Hl as <-. lia.
  - intros [s Hs]. unfold hook. rewrite bool_decide_eq_false_2 by done.
    rewrite Hres, Hs. simpl.
    match goal with |- context [add_hook ?x ?o] =>
      destruct (binarySearch_total o (h_order x)) as [index Hindex];
      unfold add_hook; rewrite Hindex end.
    simpl. eauto.
Qed.

(** *** [unhook] *)




Lemma remove_from_group_keeps hook ordering h :
  h ∈ ordering_hooks ordering → h_id h ≠ h_id hook →
  h ∈ ordering_hooks (remove_from_group hook ordering).
Proof.
  intros Hh Hid. induction ordering as [|o rest IH]; simpl; [done|].
  rewrite ordering_hooks_cons in Hh. apply elem_of_app in Hh as [Hh|Hh].
  - destruct (g_order o =? h_order hook); rewrite ordering_hooks_cons, elem_of_app;
      left; [|done]. simpl.
    apply list_elem_of_In, List.filter_In. split; [by apply list_elem_of_In|].
    unfold other_hook. by destruct (Nat.eqb_spec (h_id h) (h_id hook)).
  - destruct (g_order o =? h_order hook); rewrite ordering_hooks_cons, elem_of_app;
      right; [done|by apply IH].
Qed.

Lemma remove_from_group_gone c b hook ordering :
  ordering_ok c b ordering → hook ∉ ordering_hooks (remove_from_group hook ordering).
Proof.
  induction ordering as [|o rest IH]; simpl; [by intros _ ?%elem_of_nil|].
  intros (Ho & Hrest & Hlt)%ordering_ok_cons.
  destruct (Z.eqb_spec (g_order o) (h_order hook)) as [Heq|Hne];
    rewrite ordering_hooks_cons, elem_of_app; intros [Hh|Hh].
  - simpl in Hh. apply list_elem_of_In, List.filter_In in Hh as [_ Hh].
    unfold other_hook in Hh. by rewrite Nat.eqb_refl in Hh.
  - destruct (ordering_hooks_order _ _ _ _ _ Hrest Hlt Hh) as [_ Hlo]. lia.
  - by destruct (group_hooks_order _ _ _ _ Ho Hh) as [_ ?].
  - by apply IH in Hh.
Qed.


End hook_facts.

(** The sample codec knows the versions 1 and 2 of S_LOGIN: a registration
    for version 1, older than the latest, returns a hook. *)
Lemma hook_older_version_accepted :
  latestDefVersion sample_codec !! "S_LOGIN"%string = Some (Some 2)
  ∧ latest_greater sample_codec "S_LOGIN" (VerNum 1) = true
  ∧ hook sample_codec sample_base "mod" "S_LOGIN" (VerNum 1) (with_order 0)
      (Some returns_undefined) ≠ inl ObsoleteDefinition
  ∧ ∃ h d', hook sample_codec sample_base "mod" "S_LOGIN" (VerNum 1) (with_order 0)
              (Some returns_undefined) = inr (h, d').
Proof. vm_compute. repeat split; [discriminate | eauto]. Qed.

Lemma sample_timed_registered :
  hook sample_codec sample_base "mod" "S_LOGIN" VerRaw (with_timeout 1000)
    (Some returns_undefined) = inr (sample_timed_hook, sample_timed).
Proof. vm_compute. reflexivity. Qed.

(** After [reset()] the ordering of the opcode is gone, and [unhook] returns
    before it reaches [clearTimeout]: the timeout of a hook registered before
    the reset stays armed. *)
Example unhook_after_reset :
  0%nat ∈ timers (unhook (reset sample_timed) (Some sample_timed_hook)).
Proof. vm_compute. set_solver. Qed.

(** ** [handle] *)

(** Case analysis on the innermost test of the goal. *)
Ltac case_inner :=
  match goal with
  | |- context [match ?x with _ => _ end] =>
      lazymatch x with
      | context [match _ with _ => _ end] => fail
      | _ => destruct x eqn:?
      end
  end.

Section loop_facts.
Context {World : Type}.
Variable codec : Codec.
Variable types : list string.
Variable protoVer : option Z.
Variable code : Z.
Variable copy : bytes.
Variables incoming fake : bool.
Variable hooks_n : jsnumber.

Implicit Types (st : @LoopState World) (hook : @Hook World)
  (tr evs : list (@Event World)).

Local Abbreviation run := (run_hook codec types protoVer code copy incoming fake hooks_n).
Local Abbreviation run_all := (run_hooks codec types protoVer code copy incoming fake hooks_n).
Local Abbreviation flags := (flags_of incoming fake).

Lemma run_hook_skip st hook :
  filter_pass (h_filter hook) (flags st) = false → run st hook = st.
Proof. intros H. unfold run_hook. by rewrite H. Qed.



Lemma run_hooks_nil st : run_all [] st = st.
Proof. done. Qed.

Lemma run_hooks_cons hook hs st : run_all (hook :: hs) st = run_all hs (run st hook).
Proof. done. Qed.







(** *** Invariants of the loop *)

Lemma run_hooks_invariant (P : LoopState → Prop) :
  (∀ st hook, P st → P (run st hook)) →
  ∀ hs st, P st → P (run_all hs st).
Proof.
  intros Hstep hs. induction hs as [|hook hs IH]; intros st Hst; [done|].
  rewrite run_hooks_cons. by apply IH, Hstep.
Qed.

Lemma run_hook_iter st hook : 0 ≤ iter st → 0 ≤ iter (run st hook).
Proof.
  intros Hi. unfold run_hook, raw_step, event_step, obtain_event, callback_event,
    commit.
  repeat (case_inner; simpl); lia.
Qed.

Lemma snoc_split {A : Type} (tr pre post : list A) (e x : A) :
  tr ++ [e] = pre ++ x :: post →
  (∃ post', post = post' ++ [e] ∧ tr = pre ++ x :: post')
  ∨ (post = [] ∧ pre = tr ∧ x = e).
Proof.
  destruct post as [|y post' _] using rev_ind.
  - intros [-> ->]%app_inj_tail. by right.
  - intros H. left. exists post'. split; [|].
    + rewrite app_comm_cons, app_assoc in H. by apply app_inj_tail in H as [_ ->].
    + rewrite app_comm_cons, app_assoc in H. by apply app_inj_tail in H as [-> _].
Qed.

Lemma has_call_app (tr tr' : list (@Event World)) :
  has_call (tr ++ tr') = has_call tr || has_call tr'.
Proof. apply existsb_app. Qed.

Lemma calls_filtered_quiet tr evs :
  calls_filtered incoming fake tr → forallb (λ e, negb (is_call e)) evs = true →
  calls_filtered incoming fake (tr ++ evs).
Proof.
  revert tr. induction evs as [|e evs IH]; intros tr Htr Hq.
  { by rewrite app_nil_r. }
  simpl in Hq. apply andb_prop in Hq as [He Hq].
  rewrite (cons_middle e), app_assoc. apply IH; [|done].
  intros pre h fl arg post [(post' & -> & ->) | (_ & _ & <-)]%snoc_split; [|done].
  by eapply Htr.
Qed.

Lemma calls_filtered_call tr hook fl arg :
  calls_filtered incoming fake tr →
  filter_pass (h_filter hook) fl = true →
  fl_fake fl = fake → fl_incoming fl = incoming →
  (fl_modified fl = true → has_call tr = true) →
  calls_filtered incoming fake (tr ++ [EvCall hook fl arg]).
Proof.
  intros Htr Hpass Hf Hi Hm pre h fl' arg' post
    [(post' & -> & ->) | (_ & -> & [= -> -> ->])]%snoc_split; [by eapply Htr|done].
Qed.


Local Ltac shape_with before after :=
  right; split; [reflexivity|]; exists before; eexists _; exists after;
  simpl; rewrite <-?app_assoc; simpl; split; [reflexivity|]; split; reflexivity.

Local Ltac shape_quiet evs :=
  left; exists evs; simpl; rewrite ?app_nil_r; split; [reflexivity|]; split; reflexivity.

Local Ltac shape_leaf :=
  solve
    [ shape_quiet (@nil (@Event World))
    | match goal with
      | |- context [trace ?st ++ [?a]] =>
          first [ shape_quiet [a] | shape_with (@nil (@Event World)) (@nil (@Event World)) ]
      | |- context [trace ?st ++ [?a; ?b]] =>
          first [ shape_quiet [a; b]
                | shape_with (@nil (@Event World)) [b]
                | shape_with [a] (@nil (@Event World)) ]
      | |- context [trace ?st ++ [?a; ?b; ?c]] =>
          first [ shape_with (@nil (@Event World)) [b; c] | shape_with [a] [c] ]
      | |- context [trace ?st ++ [?a; ?b; ?c; ?d]] =>
          first [ shape_with [a] [c; d] ]
      end ].

(** A turn of the loop either calls no callback and leaves [modified] as it
    was, or calls the callback of its hook once, the filter having passed
    on the flags of the state it started from. *)
Lemma run_hook_shape st hook :
  (∃ evs, trace (run st hook) = trace st ++ evs ∧ quiet evs = true
          ∧ modified (run st hook) = modified st)
  ∨ (filter_pass (h_filter hook) (flags st) = true
     ∧ ∃ before arg after,
         trace (run st hook)
         = (trace st ++ before) ++ [EvCall hook (flags st) arg] ++ after
         ∧ quiet before = true ∧ quiet after = true).
Proof.
  unfold run_hook.
  destruct (filter_pass (h_filter hook) (flags st)) eqn:Hpass.
  2:{ left. exists []. by rewrite app_nil_r. }
  unfold raw_step, event_step, obtain_event, callback_event, commit.
  change (flags_of incoming fake (set_iter st (iter st + 1))) with (flags st).
  repeat (case_inner; simpl); rewrite <-?app_assoc; simpl; shape_leaf.
Qed.

Lemma quiet_has_call evs : quiet evs = true → has_call evs = false.
Proof.
  induction evs as [|e evs IH]; simpl; [done|].
  intros [He Hq]%andb_prop. rewrite (IH Hq). by destruct (is_call e).
Qed.

Lemma run_hook_filters st hook :
  filters_kept incoming fake st → filters_kept incoming fake (run st hook).
Proof.
  intros [Hcalls Hmod]. unfold filters_kept.
  destruct (run_hook_shape st hook)
    as [(evs & -> & Hq & ->) | (Hpass & before & arg & after & -> & Hq1 & Hq2)].
  - split; [by apply calls_filtered_quiet|].
    intros Hm. by rewrite has_call_app, (Hmod Hm).
  - split.
    + rewrite app_assoc. apply calls_filtered_quiet; [|done].
      apply calls_filtered_call; try done.
      * by apply calls_filtered_quiet.
      * intros Hm. by rewrite has_call_app, (Hmod Hm).
    + intros _. rewrite !has_call_app. simpl. by rewrite orb_true_r.
Qed.

Lemma run_hooks_filters hs st :
  filters_kept incoming fake st → filters_kept incoming fake (run_all hs st).
Proof. apply (run_hooks_invariant (filters_kept incoming fake)), run_hook_filters. Qed.


(** *** The event cache holds what was parsed since it was cleared *)

Lemma parsed_since_clear_app tr evs :
  parsed_since_clear (tr ++ evs) = foldl note_event (parsed_since_clear tr) evs.
Proof. apply foldl_app. Qed.

Lemma events_parsed_quiet tr evs :
  events_parsed tr → forallb (λ e, negb (is_event_call e)) evs = true →
  events_parsed (tr ++ evs).
Proof.
  intros Htr Hq pre h fl event post Hsplit.
  apply List.app_eq_app in Hsplit as [l [[-> Hpost] | [-> Hevs]]].
  - destruct l as [|x l].
    + simpl in Hpost. subst evs. by simpl in Hq.
    + simpl in Hpost. injection Hpost as <- ->. by eapply Htr.
  - subst evs. rewrite forallb_app in Hq. by apply andb_prop in Hq as [_ Hq].
Qed.

Lemma events_parsed_call tr hook fl event :
  events_parsed tr → h_definitionVersion hook ∈ parsed_since_clear tr →
  events_parsed (tr ++ [EvCall hook fl (ArgEvent event)]).
Proof.
  intros Htr Hin pre h fl' event' post
    [(post' & -> & ->) | (_ & -> & [= -> -> ->])]%snoc_split; [by eapply Htr|done].
Qed.

Local Ltac solve_events Hev Hcache :=
  first
    [ exact Hev
    | apply events_parsed_quiet; [solve_events Hev Hcache | reflexivity]
    | apply events_parsed_call;
      [ solve_events Hev Hcache
      | match goal with H : h_definitionVersion _ = _ |- _ => rewrite H end;
        first [ rewrite parsed_since_clear_app; simpl; by apply list_elem_of_here
              | apply Hcache; by eauto ] ] ].

Local Ltac solve_cache Hcache :=
  let dv := fresh "dv" in
  let Hdv := fresh "Hdv" in
  intros dv Hdv; rewrite ?parsed_since_clear_app; simpl;
  first
    [ by (rewrite lookup_empty in Hdv; destruct Hdv)
    | by apply Hcache
    | apply lookup_insert_is_Some in Hdv as [<- | [_ Hdv]];
      [ by apply list_elem_of_here | apply list_elem_of_further; by apply Hcache ] ].

Lemma run_hook_cache_parsed st hook :
  never_last hooks_n → 0 ≤ iter st →
  cache_parsed st → cache_parsed (run st hook).
Proof.
  intros Hnever Hiter [Hev Hcache]. unfold cache_parsed.
  unfold run_hook, raw_step, event_step, obtain_event, callback_event, commit.
  cbv zeta. change (iter (set_iter st (iter st + 1))) with (iter st + 1).
  rewrite (Hnever (iter st + 1)) by lia. simpl.
  repeat (case_inner; simpl);
    (split; [solve_events Hev Hcache | solve_cache Hcache]).
Qed.

End loop_facts.

Section handle_facts.
Context {World : Type}.
Implicit Types (d : @Dispatch World) (st : @LoopState World) (h : @Hook World)
  (tr pre post : list (@Event World)).

(** [hooks] is [NaN] whenever the loop runs: [lastHook] is never true. *)
Lemma hooks_count_never_last (globalHooks codeHooks : option (list (@HookGroup World))) :
  never_last (hooks_count globalHooks codeHooks).
Proof.
  intros i Hi. destruct globalHooks, codeHooks; try reflexivity.
  change (js_strict_eq (JNum i) (hooks_count None None)) with (i =? 0).
  apply Z.eqb_neq. lia.
Qed.

Lemma hooks_count_NaN (globalHooks codeHooks : option (list (@HookGroup World))) :
  is_Some globalHooks ∨ is_Some codeHooks → hooks_count globalHooks codeHooks = JNaN.
Proof. intros [[g ->] | [c ->]]; [done|]. by destruct globalHooks. Qed.

Lemma check_version_hooks codec d code bs : hooks (check_version codec d code bs).1 = hooks d.
Proof.
  unfold check_version. repeat (case_inner; simpl); done.
Qed.

Lemma check_version_quiet codec d code bs defVersion :
  let tr := (check_version codec d code bs).2 in
  forallb (λ e, negb (is_call e)) tr = true
  ∧ parse_calls defVersion tr = O ∧ commits tr = O ∧ parse_failures defVersion tr = O.
Proof.
  unfold check_version. repeat (case_inner; simpl); done.
Qed.

Lemma quiet_calls_filtered incoming fake tr :
  forallb (λ e, negb (is_call e)) tr = true → calls_filtered incoming fake tr.
Proof.
  intros Hq pre h fl arg post ->.
  rewrite forallb_app in Hq. by apply andb_prop in Hq as [_ Hq].
Qed.



(** The trace of [handle] is that of its loop when there are hooks. *)
Lemma handle_trace codec types d w next bs incoming fake :
  let r := handle codec types d w next bs incoming fake in
  hd_trace r = []
  ∨ (∃ code, readUInt16LE bs 2 = Some code
             ∧ (hd_trace r = (check_version codec d code bs).2
                ∨ hd_trace r = trace (handle_loop codec types (check_version codec d code bs).1
                                        w next (check_version codec d code bs).2
                                        code bs incoming fake))).
Proof.
  unfold handle. destruct (readUInt16LE bs 2) as [code|]; [|by left].
  right. exists code. split; [done|].
  destruct (check_version codec d code bs) as [d' tr]. simpl.
  destruct (hooks d' !! CWild), (hooks d' !! COp code); simpl; auto.
Qed.

(** C6.  With the opcode of the frame read, [handle] returns the frame it
    was given when there are neither WILDCARD hooks nor hooks for the
    opcode; otherwise it returns SUPPRESS exactly when [silenced] is true
    once the loop over the hooks has ended, and the current bytes when it
    is false. *)
Theorem handle_returns codec types d w next bs incoming fake code :
  readUInt16LE bs 2 = Some code →
  let checked := check_version codec d code bs in
  let st := handle_loop codec types checked.1 w next checked.2 code bs incoming fake in
  let result := hd_return (handle codec types d w next bs incoming fake) in
  (hooks d !! CWild = None → hooks d !! COp code = None → result = Returned bs)
  ∧ (is_Some (hooks d !! CWild) ∨ is_Some (hooks d !! COp code) →
       (result = SUPPRESS ↔ silenced st = true)
       ∧ (silenced st = false → result = Returned (data st))).
Proof.
  intros Hcode. simpl. unfold handle. rewrite Hcode.
  pose proof (check_version_hooks codec d code bs) as Hh.
  destruct (check_version codec d code bs) as [d' tr]. simpl in *. rewrite Hh.
  split.
  - by intros -> ->.
  - intros Hsome.
    set (st := handle_loop codec types d' w next tr code bs incoming fake).
    assert (hd_return
              match hooks d !! CWild, hooks d !! COp code with
              | None, None =>
                  {| hd_return := Returned bs; hd_dispatch := d'; hd_heap := next;
                     hd_world := w; hd_trace := tr |}
              | _, _ =>
                  {| hd_return := if silenced st then SUPPRESS else Returned (data st);
                     hd_dispatch := d'; hd_heap := heap st; hd_world := world st;
                     hd_trace := trace st |}
              end = if silenced st then SUPPRESS else Returned (data st)) as ->.
    { destruct Hsome as [[g ->] | [c ->]]; [done|]. by destruct (hooks d !! CWild). }
    destruct (silenced st); split; done.
Qed.

Lemma init_filters_kept incoming fake bs w next tr :
  forallb (λ e, negb (is_call e)) tr = true →
  filters_kept incoming fake (init_state bs w next tr).
Proof. intros Hq. split; [by apply quiet_calls_filtered | done]. Qed.

Lemma handle_calls_filtered codec types d w next bs incoming fake :
  calls_filtered incoming fake (hd_trace (handle codec types d w next bs incoming fake)).
Proof.
  destruct (handle_trace codec types d w next bs incoming fake)
    as [-> | (code & _ & [-> | ->])].
  - by apply quiet_calls_filtered.
  - apply quiet_calls_filtered. by destruct (check_version_quiet codec d code bs DRaw).
  - unfold handle_loop. apply run_hooks_filters, init_filters_kept.
    by destruct (check_version_quiet codec d code bs DRaw).
Qed.



Lemma parsed_since_clear_elem (evs : list (@Event World)) acc dv :
  dv ∈ foldl note_event acc evs → dv ∈ acc ∨ ∃ bs, EvParse dv bs true ∈ evs.
Proof.
  revert acc. induction evs as [|e evs IH]; intros acc; simpl; [by left|].
  intros [Hacc | (bs & Hbs)]%IH.
  - destruct e as [| dv' bs' [|] | | dv' ev' [|] |]; simpl in Hacc; auto.
    + apply elem_of_cons in Hacc as [-> | Hacc]; [|by left].
      right. exists bs'. apply list_elem_of_here.
    + by apply elem_of_nil in Hacc.
  - right. exists bs. by apply list_elem_of_further.
Qed.

Lemma handle_events_parsed codec types d w next bs incoming fake :
  events_parsed (hd_trace (handle codec types d w next bs incoming fake)).
Proof.
  assert (∀ tr : list (@Event World),
            forallb (λ e, negb (is_call e)) tr = true → events_parsed tr) as Hquiet.
  { intros tr Hq pre h fl event post ->.
    rewrite forallb_app in Hq. by apply andb_prop in Hq as [_ Hq]. }
  destruct (handle_trace codec types d w next bs incoming fake)
    as [-> | (code & _ & [-> | ->])].
  - by apply Hquiet.
  - apply Hquiet. by destruct (check_version_quiet codec d code bs DRaw).
  - unfold handle_loop.
    set (hs := iterateHooks _ _). set (n := hooks_count _ _). set (st0 := init_state _ _ _ _).
    assert (0 ≤ iter (run_hooks codec types
                        (protocolVersion (check_version codec d code bs).1)
                        code bs incoming fake n hs st0)
            ∧ cache_parsed
                (run_hooks codec types
                   (protocolVersion (check_version codec d code bs).1)
                   code bs incoming fake n hs st0)) as [_ [Hev _]]; [|done].
    apply (run_hooks_invariant _ _ _ _ _ _ _ _ (λ st, 0 ≤ iter st ∧ cache_parsed st)).
    + intros st hook [Hi Hc]. split; [by apply run_hook_iter|].
      apply run_hook_cache_parsed; try done. apply hooks_count_never_last.
    + split; [done|]. split.
      * apply Hquiet. by destruct (check_version_quiet codec d code bs DRaw).
      * intros dv Hdv. simpl in Hdv. rewrite lookup_empty in Hdv. by destruct Hdv.
Qed.

(** Once a hook has returned [true] and its event has been written, every
    event handed to a later structured hook of the invocation comes from a
    call of [parse] made after that: none is the value cached before. *)
Theorem events_parsed_after_commit codec types d w next bs incoming fake
    pre defVersion written between h fl event post :
  hd_trace (handle codec types d w next bs incoming fake)
  = pre ++ EvWrite defVersion written true :: between
        ++ EvCall h fl (ArgEvent event) :: post →
  ∃ bs', EvParse (h_definitionVersion h) bs' true ∈ between.
Proof.
  intros Htrace.
  pose proof (handle_events_parsed codec types d w next bs incoming fake
                (pre ++ EvWrite defVersion written true :: between) h fl event post) as Hin.
  rewrite <-app_assoc in Hin. specialize (Hin Htrace).
  rewrite parsed_since_clear_app in Hin. simpl in Hin.
  apply parsed_since_clear_elem in Hin as [Hin|Hin]; [|done].
  by apply elem_of_nil in Hin.
Qed.

End handle_facts.


(** C4: the code at a registry with one structured hook.  That hook is the
    last to run, and it is handed a deep clone, an object allocated for it,
    not the event held in the cache. *)
Theorem last_hook_receives_clone :
  ∃ h fl,
    hd_trace (handle sample_codec sample_types sample_single tt 10%nat sample_frame true false)
    = [EvParse (DNum 2) sample_frame true;
       EvCall h fl (ArgEvent (deepClone sample_types sample_event 10%nat).1)]
    ∧ (deepClone sample_types sample_event 10%nat).1 ≠ sample_event.
Proof. eexists _, _. split; [vm_compute; reflexivity | by vm_compute]. Qed.

(** With an event that has a [null] property the difference shows: the last
    hook sees an empty object in its place. *)
Example last_hook_sees_empty_object :
  ∃ h fl a b,
    hd_trace (handle sample_null_codec sample_types sample_single tt 10%nat sample_frame
                true false)
    = [EvParse (DNum 2) sample_frame true;
       EvCall h fl (ArgEvent (VRecord a [("name", VPrim (PStr "a"));
                                        ("guild", VRecord b [])]%string))].
Proof. eexists _, _, _, _. vm_compute. reflexivity. Qed.

(* ===================================================================== *)
(** * More on the registry *)
(* ===================================================================== *)

Section registry_more.
Context {World : Type}.
Implicit Types (ordering gs cs : list (@HookGroup World)) (h hook : @Hook World)
  (g : @HookGroup World) (d : @Dispatch World).

Lemma registered_default d h :
  registered d h ↔ h ∈ ordering_hooks (default [] (hooks d !! h_code h)).
Proof.
  unfold registered. split.
  - intros (ordering & Ho & Hin). by rewrite Ho.
  - destruct (hooks d !! h_code h) as [ordering|]; simpl; [eauto|].
    intros Hin. by apply elem_of_nil in Hin.
Qed.

Lemma orders_sorted ordering :
  orders_ascending ordering → StronglySorted Z.lt (g_order <$> ordering).
Proof.
  induction ordering as [|g rest IH]; intros Hasc; [constructor|].
  apply orders_ascending_cons in Hasc as [Hrest Hlt].
  rewrite fmap_cons. constructor; [by apply IH|].
  rewrite List.Forall_forall in Hlt |- *. intros order Hin.
  apply list_elem_of_In, list_elem_of_fmap in Hin as (g' & -> & Hg').
  apply Hlt. by apply list_elem_of_In.
Qed.

(** The timers that are armed are those of hooks that were created. *)
Lemma reachable_timers codec d : reachable codec d → timers_bounded d.
Proof.
  induction 1 as [|d version _ IH|d namespace name version opts cb h d' _ IH Hhook
                 |d handle _ IH|d name _ IH|d name _ IH|d name _ IH|d _ IH|d w h _ IH];
    intros t; simpl.
  - intros Ht. by apply elem_of_empty in Ht.
  - apply IH.
  - revert Hhook. unfold hook. case_bool_decide; [done|].
    destruct cb as [cb|]; [|done].
    destruct (resolve_code codec d name version) as [e|code]; [done|].
    match goal with |- context [add_hook ?x ?o] => destruct (add_hook x o); [|done] end.
    intros [= _ <-]. simpl. destruct (timeout_given opts).
    + intros [->%elem_of_singleton | Ht%IH]%elem_of_union; lia.
    + intros Ht%IH. lia.
  - destruct handle as [hook|]; simpl; [|apply IH].
    destruct (hooks d !! h_code hook); simpl; [|apply IH].
    destruct (h_timeout hook); [|apply IH].
    intros [Ht _]%elem_of_difference. by apply IH.
  - apply IH.
  - apply IH.
  - unfold unload. case_bool_decide; simpl; apply IH.
  - apply IH.
  - unfold fire_timeout. destruct (h_timeout h) as [t0|]; simpl; [|apply IH].
    case_bool_decide; simpl; [|apply IH].
    destruct (hooks d !! h_code h); simpl.
    + destruct (h_timeout h); simpl.
      * intros [[Ht _]%elem_of_difference _]%elem_of_difference. by apply IH.
      * intros [Ht _]%elem_of_difference. by apply IH.
    + intros [Ht _]%elem_of_difference. by apply IH.
Qed.

(** X1.  An invariant of the registry, in every state the methods of a
    dispatch lead to: the groups of an ordering stand by strictly ascending
    [order], every hook is stored under its own opcode in the group of its
    own [order], two registered hooks are two objects, and a timer that is
    armed is the one of a hook that was created. *)
Theorem registry_invariant codec d :
  reachable codec d →
  (∀ c ordering, hooks d !! c = Some ordering →
     StronglySorted Z.lt (g_order <$> ordering)
     ∧ ∀ g h, g ∈ ordering → h ∈ g_hooks g →
         h_code h = c ∧ h_order h = g_order g ∧ (h_id h < next_id d)%nat)
  ∧ (∀ h1 h2, registered d h1 → registered d h2 → h_id h1 = h_id h2 → h1 = h2)
  ∧ (∀ t, t ∈ timers d → (t < next_id d)%nat).
Proof.
  intros Hd. destruct (reachable_ok _ _ Hd) as [Hok Huniq].
  split; [|split; [done|by apply (reachable_timers codec)]].
  intros c ordering Ho. destruct (Hok _ _ Ho) as [Hasc Hgroups].
  split; [by apply orders_sorted|].
  intros g h Hg Hh. rewrite List.Forall_forall in Hgroups.
  destruct (Hgroups g) as [Hall _]; [by apply list_elem_of_In|].
  rewrite List.Forall_forall in Hall. apply Hall. by apply list_elem_of_In.
Qed.

(** *** [hook] then [unhook] *)

Lemma remove_after_push hook ordering (i : nat) g :
  orders_ascending ordering →
  ordering !! i = Some g → g_order g = h_order hook →
  Forall (λ h, h_id h ≠ h_id hook) (g_hooks g) →
  ordering_hooks (remove_from_group hook (alter (push_hook hook) i ordering))
  = ordering_hooks ordering.
Proof.
  revert i. induction ordering as [|o rest IH]; intros i Hasc Hi Hg Hids; [done|].
  destruct i as [|i]; simpl in *.
  - injection Hi as ->. rewrite Hg, Z.eqb_refl, !ordering_hooks_cons. simpl.
    f_equal. rewrite List.filter_app. simpl.
    unfold other_hook at 2. rewrite Nat.eqb_refl. simpl. rewrite app_nil_r.
    apply filter_keep. eapply Forall_impl; [done|].
    intros h Hh. unfold other_hook. by apply negb_true_iff, Nat.eqb_neq.
  - apply orders_ascending_cons in Hasc as [Hrest Hlt].
    rewrite List.Forall_forall in Hlt.
    assert (g_order o < g_order g) as Ho.
    { apply Hlt, list_elem_of_In. by eapply list_elem_of_lookup_2. }
    destruct (Z.eqb_spec (g_order o) (h_order hook)) as [Heq|_]; [lia|].
    rewrite !ordering_hooks_cons. f_equal. by eapply IH.
Qed.

Lemma remove_after_splice hook (k : nat) ordering :
  (∀ (i : nat) g, ordering !! i = Some g → (i < k)%nat → g_order g ≠ h_order hook) →
  ordering_hooks
    (remove_from_group hook
       (splice_in k {| g_order := h_order hook; g_hooks := [hook] |} ordering))
  = ordering_hooks ordering.
Proof.
  unfold splice_in. revert k.
  induction ordering as [|o rest IH]; intros k Hbefore.
  - rewrite take_nil, drop_nil. simpl. rewrite Z.eqb_refl.
    unfold other_hook. by rewrite Nat.eqb_refl.
  - destruct k as [|k]; simpl.
    + rewrite Z.eqb_refl. unfold other_hook. by rewrite Nat.eqb_refl.
    + destruct (Z.eqb_spec (g_order o) (h_order hook)) as [Heq|_].
      { by destruct (Hbefore O o eq_refl ltac:(lia)). }
      rewrite !ordering_hooks_cons. f_equal. apply IH.
      intros i g Hi Hlt. apply (Hbefore (S i) g Hi). lia.
Qed.

Lemma add_hook_remove c hook ordering ordering' :
  ordering_ok c (h_id hook) ordering →
  add_hook hook ordering = Some ordering' →
  ordering_hooks (remove_from_group hook ordering') = ordering_hooks ordering.
Proof.
  intros [Hasc Hgroups] Hadd. unfold add_hook in Hadd.
  destruct (binarySearch ordering (h_order hook)) as [index|] eqn:Hindex; [|done].
  simpl in Hadd. injection Hadd as <-.
  destruct (binarySearch_sorted _ _ _ Hasc Hindex)
    as [(Hpos & g & Hg & Horder) | (Hneg & Hrange & Hbefore & _)].
  - destruct (Z.ltb_spec index 0) as [|_]; [lia|].
    eapply remove_after_push; [done..|].
    rewrite List.Forall_forall in Hgroups.
    destruct (Hgroups g) as [Hall _].
    { apply list_elem_of_In. by eapply list_elem_of_lookup_2. }
    eapply Forall_impl; [done|]. intros h (_ & _ & Hid). simpl in Hid. lia.
  - destruct (Z.ltb_spec index 0) as [_|]; [|lia].
    apply remove_after_splice. intros i g Hi Hlt.
    specialize (Hbefore i g Hi ltac:(lia)). lia.
Qed.

(** The dispatch sequence is the only list sorted by [runs_before] that
    splits into its wildcard hooks and its opcode hooks. *)
Lemma runs_before_asym h1 h2 : runs_before h1 h2 → runs_before h2 h1 → False.
Proof.
  unfold runs_before. intros [?|[? [[? ?]|[? ?]]]] [?|[? [[? ?]|[? ?]]]];
    try lia; congruence.
Qed.

Lemma sorted_split_unique (p : @Hook World → bool) (l l' : list (@Hook World)) :
  StronglySorted runs_before l → StronglySorted runs_before l' →
  List.filter p l = List.filter p l' →
  List.filter (λ h, negb (p h)) l = List.filter (λ h, negb (p h)) l' →
  l = l'.
Proof.
  assert (∀ (q : @Hook World → bool) (x y : @Hook World) t t',
             StronglySorted runs_before (x :: t) → StronglySorted runs_before (y :: t') →
             q x = true → q y = false →
             List.filter q (x :: t) = List.filter q (y :: t') →
             List.filter (λ h, negb (q h)) (x :: t) = List.filter (λ h, negb (q h)) (y :: t') →
             False) as Hcross.
  { intros q x y t t' Hs Hs' Hx Hy Hq Hn.
    apply StronglySorted_inv in Hs as [_ Hxt]. apply StronglySorted_inv in Hs' as [_ Hyt].
    rewrite List.Forall_forall in Hxt, Hyt.
    assert (In x t') as Hx'.
    { assert (In x (List.filter q (y :: t'))) as Hin.
      { rewrite <-Hq. simpl. rewrite Hx. by left. }
      apply List.filter_In in Hin as [[->|Hin] _]; [congruence|done]. }
    assert (In y t) as Hy'.
    { assert (In y (List.filter (λ h, negb (q h)) (x :: t))) as Hin.
      { rewrite Hn. simpl. rewrite Hy. by left. }
      apply List.filter_In in Hin as [[->|Hin] _]; [congruence|done]. }
    exact (runs_before_asym _ _ (Hxt _ Hy') (Hyt _ Hx')). }
  revert l'. induction l as [|x t IH]; intros l' Hs Hs' Hp Hn.
  - destruct l' as [|y t']; [done|]. simpl in Hp, Hn. by destruct (p y).
  - destruct l' as [|y t'].
    { simpl in Hp, Hn. by destruct (p x). }
    destruct (p x) eqn:Hx, (p y) eqn:Hy.
    + simpl in Hp, Hn. rewrite Hx, Hy in Hp, Hn. simpl in Hn. injection Hp as -> Hp.
      f_equal. apply IH; [by apply StronglySorted_inv in Hs as []
                         |by apply StronglySorted_inv in Hs' as []|done..].
    + destruct (Hcross p x y t t'); done.
    + destruct (Hcross p y x t' t); done.
    + simpl in Hp, Hn. rewrite Hx, Hy in Hp, Hn. simpl in Hn. injection Hn as -> Hn.
      f_equal. apply IH; [by apply StronglySorted_inv in Hs as []
                         |by apply StronglySorted_inv in Hs' as []|done..].
Qed.

(** In the states of a dispatch, the hooks of the two orderings decide the
    dispatch sequence: groups left empty do not show. *)
Lemma iterateHooks_hooks codec codec' d d' (code : Z) :
  reachable codec d → reachable codec' d' →
  ordering_hooks (default [] (hooks d' !! CWild))
  = ordering_hooks (default [] (hooks d !! CWild)) →
  ordering_hooks (default [] (hooks d' !! COp code))
  = ordering_hooks (default [] (hooks d !! COp code)) →
  iterateHooks (hooks d' !! CWild) (hooks d' !! COp code)
  = iterateHooks (hooks d !! CWild) (hooks d !! COp code).
Proof.
  intros Hd Hd' Hwild Hcode. unfold iterateHooks.
  pose proof (reachable_ordering codec d CWild Hd) as Hg.
  pose proof (reachable_ordering codec d (COp code) Hd) as Hc.
  pose proof (reachable_ordering codec' d' CWild Hd') as Hg'.
  pose proof (reachable_ordering codec' d' (COp code) Hd') as Hc'.
  destruct (merge_groups_interleaves _ code _ _ Hg Hc) as [Hw Hn].
  destruct (merge_groups_interleaves _ code _ _ Hg' Hc') as [Hw' Hn'].
  apply (sorted_split_unique is_wildcard).
  - by eapply merge_groups_sorted.
  - by eapply merge_groups_sorted.
  - by rewrite Hw, Hw'.
  - by rewrite Hn, Hn'.
Qed.

(** X2.  Registration is undone by [unhook]: after [hook] returns a hook
    and [unhook] is given that hook, every ordering holds the hooks it held
    before, in the same order, the timers are those that were armed before,
    and the dispatch sequence of every opcode is the one before the
    registration.  The group made for the hook may stay behind, empty. *)
Theorem hook_unhook_round_trip codec d namespace name version opts cb h d' :
  reachable codec d →
  hook codec d namespace name version opts cb = inr (h, d') →
  let d'' := unhook d' (Some h) in
  (∀ c, ordering_hooks (default [] (hooks d'' !! c))
        = ordering_hooks (default [] (hooks d !! c)))
  ∧ (∀ h', registered d'' h' ↔ registered d h')
  ∧ timers d'' = timers d
  ∧ ∀ code : Z, iterateHooks (hooks d'' !! CWild) (hooks d'' !! COp code)
                = iterateHooks (hooks d !! CWild) (hooks d !! COp code).
Proof.
  intros Hd Hhook d''.
  assert (reachable codec d'') as Hd''.
  { apply reach_unhook. by eapply reach_hook. }
  assert (∀ c, ordering_hooks (default [] (hooks d'' !! c))
               = ordering_hooks (default [] (hooks d !! c))
          ∧ timers d'' = timers d) as Hsame.
  { intros c. subst d''. revert Hhook. unfold hook.
    case_bool_decide; [done|]. destruct cb as [cb|]; [|done].
    destruct (resolve_code codec d name version) as [e|code]; [done|].
    match goal with |- context [add_hook ?x _] => set (new := x) end.
    destruct (add_hook new (default [] (hooks d !! code))) as [ordering|] eqn:Hadd; [|done].
    intros [= <- <-]. unfold unhook. simpl. rewrite lookup_insert_eq. simpl. split.
    - destruct (decide (c = code)) as [->|Hne].
      + rewrite lookup_insert_eq. simpl.
        apply (add_hook_remove code new _ _ (reachable_ordering codec d code Hd) Hadd).
      + by rewrite !lookup_insert_ne by done.
    - pose proof (reachable_timers codec d Hd (next_id d)) as Hfresh.
      destruct (timeout_given opts); [|done].
      apply set_eq. intros t. rewrite elem_of_difference, elem_of_union, elem_of_singleton.
      split; [intros [[->|Ht] Hne]; done|].
      intros Ht. split; [by right|]. intros ->. specialize (Hfresh Ht). lia. }
  split; [intros c; apply Hsame|]. split; [|split; [apply (Hsame CWild)|]].
  - intros h'. rewrite !registered_default. by rewrite (proj1 (Hsame (h_code h'))).
  - intros code. apply (iterateHooks_hooks codec codec); [done..|apply Hsame|apply Hsame].
Qed.

End registry_more.

Section registration.
Context {World : Type}.
Implicit Types (ordering : list (@HookGroup World)) (h hook : @Hook World)
  (d : @Dispatch World).

(** *** The arguments of [hook] *)

Lemma add_hook_total hook ordering : is_Some (add_hook hook ordering).
Proof.
  unfold add_hook. destruct (binarySearch_total ordering (h_order hook)) as [index ->].
  by eexists.
Qed.

Lemma hook_resolved codec d namespace name version opts cb :
  version ≠ VerInvalid →
  (∀ e, resolve_code codec d name version = inl e →
        hook codec d namespace name version opts (Some cb) = inl e)
  ∧ (∀ code, resolve_code codec d name version = inr code →
        ∃ h d', hook codec d namespace name version opts (Some cb) = inr (h, d')).
Proof.
  intros Hversion. unfold hook. rewrite bool_decide_eq_false_2 by done. split.
  - by intros e ->.
  - intros code ->.
    match goal with |- context [add_hook ?x ?o] =>
      destruct (add_hook_total x o) as [ordering ->] end.
    eauto.
Qed.

(** X3.  When [hook] returns a hook.  The version is a number, ['*'] or
    ['raw'], the last argument is a function, and either the name is ['*']
    and the version is not a number, or the name is one the protocol map
    knows and the version is ['raw'] or one the codec has a definition for.
    In every other case [hook] throws; the search for the place of the hook
    in its ordering always ends. *)
Theorem hook_succeeds_iff codec d namespace name version opts cb :
  ((∃ h d', hook codec d namespace name version opts cb = inr (h, d'))
   ↔ version ≠ VerInvalid ∧ is_Some cb
     ∧ ((name = "*"%string ∧ ∀ v, version ≠ VerNum v)
        ∨ (name ≠ "*"%string
           ∧ ∃ map code, protocolMap d = Some map ∧ pm_name map !! name = Some code
               ∧ (version = VerRaw ∨ is_Some (find_definition codec name version)))))
  ∧ hook codec d namespace name version opts cb ≠ inl SearchDiverged.
Proof.
  split.
  - split.
    + intros (h & d' & Hhook). revert Hhook. unfold hook.
      case_bool_decide as Hversion; [done|]. destruct cb as [cb|]; [|done].
      destruct (resolve_code codec d name version) as [e|code] eqn:Hres; [done|].
      intros _. split; [done|]. split; [by eexists|].
      revert Hres. unfold resolve_code. case_bool_decide as Hname.
      * intros Hres. left. split; [done|]. intros v ->. done.
      * destruct (protocolMap d) as [map|]; [|done].
        destruct (pm_name map !! name) as [c|] eqn:Hc; [|done].
        intros Hres. right. split; [done|]. exists map, c. split; [done|]. split; [done|].
        revert Hres. case_bool_decide; [by left|].
        destruct (find_definition codec name version); [by right; eexists|].
        by destruct (latest_greater codec name version).
    + intros (Hversion & [cb' ->] & Hname).
      destruct (hook_resolved codec d namespace name version opts cb' Hversion)
        as [_ Hreturns].
      destruct Hname as [[-> Hnum] | (Hname & map & code & Hmap & Hcode & Hdef)].
      * apply (Hreturns CWild). unfold resolve_code.
        rewrite bool_decide_eq_true_2 by done.
        destruct version as [v| | |]; [by destruct (Hnum v)|done..].
      * apply (Hreturns (COp code)). unfold resolve_code.
        rewrite bool_decide_eq_false_2, Hmap, Hcode by done.
        destruct Hdef as [->|[def ->]]; [by rewrite bool_decide_eq_true_2|].
        by case_bool_decide.
  - unfold hook. case_bool_decide; [done|]. destruct cb as [cb|]; [|done].
    destruct (resolve_code codec d name version) as [e|code] eqn:Hres.
    + intros [= ->]. revert Hres. unfold resolve_code.
      repeat (case_match; try done).
    + match goal with |- context [add_hook ?x ?o] =>
        destruct (add_hook_total x o) as [ordering ->] end.
      done.
Qed.

(** X4.  What [hook] throws, by the first test that fails: a version that
    is neither a number nor ['*'] nor ['raw'], whatever the other arguments;
    then a last argument that is not a function; then, for the name ['*'],
    a version that is a number; for another name, a dispatch without
    protocol map, a name the map does not know, and, for a name it knows,
    the version ['*'], which is the key of no definition. *)
Theorem hook_rejections codec d namespace name opts :
  (∀ cb, hook codec d namespace name VerInvalid opts cb = inl InvalidVersion)
  ∧ (∀ version, version ≠ VerInvalid →
       hook codec d namespace name version opts None = inl NotAFunction)
  ∧ (∀ v cb, hook codec d namespace "*" (VerNum v) opts (Some cb) = inl WildcardVersion)
  ∧ (∀ version cb, version ≠ VerInvalid → name ≠ "*"%string →
       (protocolMap d = None →
          hook codec d namespace name version opts (Some cb) = inl NoProtocolMap)
       ∧ (∀ map, protocolMap d = Some map →
            (pm_name map !! name = None →
               hook codec d namespace name version opts (Some cb) = inl UnmappedPacket)
            ∧ (is_Some (pm_name map !! name) →
                 hook codec d namespace name VerStar opts (Some cb)
                 = inl DefinitionNotFound))).
Proof.
  split; [done|]. split.
  { intros version Hversion. unfold hook. by rewrite bool_decide_eq_false_2. }
  split; [done|].
  intros version cb Hversion Hname.
  destruct (hook_resolved codec d namespace name version opts cb Hversion) as [Habort _].
  destruct (hook_resolved codec d namespace name VerStar opts cb ltac:(done))
    as [Hstar _].
  split.
  - intros Hmap. apply Habort. unfold resolve_code.
    by rewrite bool_decide_eq_false_2, Hmap.
  - intros map Hmap. split.
    + intros Hnone. apply Habort. unfold resolve_code.
      by rewrite bool_decide_eq_false_2, Hmap, Hnone.
    + intros [code Hcode]. apply Hstar.
      rewrite (resolve_named codec d name VerStar map code) by done.
      unfold find_definition, latest_greater.
      by destruct (messages codec !! name), (latestDefVersion codec !! name) as [[?|]|].
Qed.

(** X5.  The hook that [hook] returns: it carries the namespace, the name
    and the callback it was given, the version, [opts.order] or 0, and the
    filter of [opts.filter] over the defaults; it was not registered before
    and was created after every registered hook; it is registered afterwards,
    next to the hooks that were; and it has a timer, newly armed, unless
    [opts.timeout] is missing or 0. *)
Theorem hook_returns codec d namespace name version opts cb h d' :
  reachable codec d →
  hook codec d namespace name version opts cb = inr (h, d') →
  (h_namespace h = namespace ∧ h_name h = name ∧ cb = Some (h_callback h)
   ∧ h_definitionVersion h = def_version version
   ∧ h_order h = default 0 (o_order opts)
   ∧ h_filter h = assign_filter (o_filter opts))
  ∧ ¬ registered d h
  ∧ (∀ h', registered d h' → (h_id h' < h_id h)%nat)
  ∧ (∀ h', registered d' h' ↔ h' = h ∨ registered d h')
  ∧ (h_timeout h = None ↔ o_timeout opts = None ∨ o_timeout opts = Some 0)
  ∧ (∀ t, h_timeout h = Some t → (t ∉ timers d) ∧ timers d' = {[t]} ∪ timers d)
  ∧ (h_timeout h = None → timers d' = timers d).
Proof.
  intros Hd Hhook. pose proof (reachable_ok _ _ Hd) as Hok.
  destruct (hook_registers _ _ _ _ _ _ _ _ _ Hok Hhook) as (_ & Hid & _ & Hreg).
  pose proof (reachable_timers codec d Hd (next_id d)) as Hfresh.
  assert (∀ h', registered d h' → (h_id h' < h_id h)%nat) as Hafter.
  { intros h' Hh'. rewrite Hid. by apply registered_id_bound. }
  revert Hhook. unfold hook. case_bool_decide; [done|]. destruct cb as [cb|]; [|done].
  destruct (resolve_code codec d name version) as [e|code]; [done|].
  match goal with |- context [add_hook ?x ?o] => destruct (add_hook x o); [|done] end.
  intros [= <- <-]. simpl. split; [done|]. split.
  { intros Hin. specialize (Hafter _ Hin). simpl in Hafter. lia. }
  split; [done|]. split; [done|].
  unfold timeout_given. destruct (o_timeout opts) as [ms|]; simpl.
  - destruct (Z.eqb_spec ms 0) as [->|Hms]; simpl.
    + split; [by split; [right|]|]. done.
    + split; [split; [done|by intros [|[= ?]]]|]. split; [|done].
      intros t [= <-]. split; [|done]. intros Ht. specialize (Hfresh Ht). lia.
  - split; [by split; [left|]|]. done.
Qed.

End registration.

Section modules_more.
Context {World : Type}.
Implicit Types (ordering : list (@HookGroup World)) (h hook : @Hook World)
  (d : @Dispatch World) (w : World).

(** *** [unload] and [load] *)

Lemma ordering_hooks_filter (p : @Hook World → bool) ordering :
  ordering_hooks
    (map (λ o, {| g_order := g_order o; g_hooks := List.filter p (g_hooks o) |}) ordering)
  = List.filter p (ordering_hooks ordering).
Proof.
  induction ordering as [|o rest IH]; [done|].
  rewrite map_cons, !ordering_hooks_cons, List.filter_app. simpl. by rewrite IH.
Qed.

Lemma remove_namespace_hooks name d c :
  ordering_hooks (default [] (hooks (remove_namespace name d) !! c))
  = List.filter (λ h, negb (bool_decide (h_namespace h = name)))
      (ordering_hooks (default [] (hooks d !! c))).
Proof.
  unfold remove_namespace. simpl. rewrite lookup_fmap.
  destruct (hooks d !! c) as [ordering|]; simpl; [apply ordering_hooks_filter|done].
Qed.

Lemma remove_namespace_registered name d h :
  registered (remove_namespace name d) h ↔ registered d h ∧ h_namespace h ≠ name.
Proof.
  rewrite !registered_default, remove_namespace_hooks.
  rewrite list_elem_of_In, List.filter_In, <-list_elem_of_In.
  rewrite negb_true_iff, bool_decide_eq_false. done.
Qed.

(** X6.  [unload] of a module that is not loaded changes nothing and
    returns [false].  For a loaded module it returns [true], forgets the
    module, and drops from every ordering the hooks of that namespace and no
    other hook, the hooks that stay keeping their places; this is so when
    the destructor is about to run, and at the end when the destructor leaves
    the registry alone. *)
Theorem unload_removes_namespace d w name destructor :
  (name ∉ modules d → unload_module d w name destructor = (d, w, false))
  ∧ (name ∈ modules d →
     (∀ run, destructor = Some run →
        hooks (run (remove_namespace name d) w).1.1 = hooks (remove_namespace name d)
        ∧ modules (run (remove_namespace name d) w).1.1 = modules d) →
     let r := unload_module d w name destructor in
     r.2 = true
     ∧ modules r.1.1 = modules d ∖ {[name]}
     ∧ (∀ c, ordering_hooks (default [] (hooks r.1.1 !! c))
             = List.filter (λ h, negb (bool_decide (h_namespace h = name)))
                 (ordering_hooks (default [] (hooks d !! c))))
     ∧ ∀ h, registered r.1.1 h ↔ registered d h ∧ h_namespace h ≠ name).
Proof.
  split.
  - intros Hout. unfold unload_module. by rewrite bool_decide_eq_false_2.
  - intros Hin Hkept r.
    assert (r.2 = true ∧ modules r.1.1 = modules d ∖ {[name]}
            ∧ hooks r.1.1 = hooks (remove_namespace name d)) as (Hr & Hm & Hh).
    { subst r. unfold unload_module. rewrite bool_decide_eq_true_2 by done.
      destruct destructor as [run|]; [|done].
      destruct (Hkept run eq_refl) as [Hhooks Hmods].
      destruct (run (remove_namespace name d) w) as [[d2 w2] ok]. simpl in *.
      by rewrite Hhooks, Hmods. }
    split; [done|]. split; [done|].
    assert (∀ c, ordering_hooks (default [] (hooks r.1.1 !! c))
                 = List.filter (λ h, negb (bool_decide (h_namespace h = name)))
                     (ordering_hooks (default [] (hooks d !! c)))) as Hc.
    { intros c. rewrite Hh. apply remove_namespace_hooks. }
    split; [done|].
    intros h. rewrite !registered_default, Hc.
    rewrite list_elem_of_In, List.filter_In, <-list_elem_of_In.
    by rewrite negb_true_iff, bool_decide_eq_false.
Qed.

(** X7.  [load] of a module that is loaded does not run the constructor.
    When the constructor throws, [load] returns [null], records no module,
    and takes out of every ordering the hooks of that namespace, those the
    constructor registered before it threw and any older one; the hooks of
    the other namespaces stay in place.  When the constructor returns, the
    module is recorded, the hooks it registered are kept, and loading it
    again changes nothing. *)
Theorem load_rolls_back d w name (ctor : @ModuleCode World) :
  (name ∈ modules d → load d w name ctor = (d, w, true))
  ∧ (name ∉ modules d → ∀ d1 w1,
       ctor d w = (d1, w1, false) →
       let r := load d w name ctor in
       r.2 = false ∧ r.1.2 = w1 ∧ modules r.1.1 = modules d1
       ∧ (∀ c, ordering_hooks (default [] (hooks r.1.1 !! c))
               = List.filter (λ h, negb (bool_decide (h_namespace h = name)))
                   (ordering_hooks (default [] (hooks d1 !! c))))
       ∧ ∀ h, registered r.1.1 h ↔ registered d1 h ∧ h_namespace h ≠ name)
  ∧ (name ∉ modules d → ∀ d1 w1,
       ctor d w = (d1, w1, true) →
       let r := load d w name ctor in
       r.2 = true ∧ r.1.2 = w1 ∧ name ∈ modules r.1.1 ∧ hooks r.1.1 = hooks d1
       ∧ ∀ ctor', load r.1.1 r.1.2 name ctor' = r).
Proof.
  split; [|split].
  - intros Hin. unfold load. by rewrite bool_decide_eq_true_2.
  - intros Hout d1 w1 Hctor r.
    assert (r = (remove_namespace name d1, w1, false)) as ->.
    { subst r. unfold load. by rewrite bool_decide_eq_false_2, Hctor. }
    simpl. split; [done|]. split; [done|]. split; [done|].
    split; [intros c; apply remove_namespace_hooks|].
    intros h. apply remove_namespace_registered.
  - intros Hout d1 w1 Hctor r.
    assert (r = (register_module d1 name, w1, true)) as ->.
    { subst r. unfold load. by rewrite bool_decide_eq_false_2, Hctor. }
    assert (name ∈ modules (register_module d1 name)) as Hin.
    { simpl. apply elem_of_union. left. by apply elem_of_singleton. }
    simpl. split; [done|]. split; [done|]. split; [done|]. split; [done|].
    intros ctor'. unfold load. by rewrite bool_decide_eq_true_2.
Qed.

(** *** Timers *)

Lemma registered_unhook_iff d h :
  registry_ok d → registered d h →
  ∀ h', registered (unhook d (Some h)) h' ↔ registered d h' ∧ h_id h' ≠ h_id h.
Proof.
  intros [Hok Huniq] (ordering & Ho & Hin) h'. split.
  - intros Hh'. pose proof (registered_unhook _ _ _ Hh') as Hreg. split; [done|].
    intros Hid.
    assert (h' = h) as -> by (apply Huniq; [done|by exists ordering|done]).
    destruct Hh' as (o' & Ho' & Hin'). unfold unhook in Ho'. rewrite Ho in Ho'.
    simpl in Ho'. rewrite lookup_insert_eq in Ho'. injection Ho' as <-.
    by apply (remove_from_group_gone _ _ h ordering (Hok _ _ Ho)).
  - intros [(o' & Ho' & Hin') Hid]. unfold registered, unhook. rewrite Ho. simpl.
    destruct (decide (h_code h' = h_code h)) as [Hc|Hc].
    + rewrite Hc in Ho' |- *. rewrite lookup_insert_eq. eexists. split; [done|].
      rewrite Ho in Ho'. injection Ho' as <-. by apply remove_from_group_keeps.
    + rewrite lookup_insert_ne by done. eauto.
Qed.

(** X8.  A timeout is one-shot.  When the timer of a registered hook
    fires, the callback of the hook is called with [null], the hook is
    taken out of the registry, the other hooks stay, and the timer is no
    longer armed: it does not fire a second time. *)
Theorem timeout_fires_once codec d w h t :
  reachable codec d →
  registered d h →
  h_timeout h = Some t →
  t ∈ timers d →
  let r := fire_timeout d w h in
  r.2 = on_timeout (h_callback h) w
  ∧ (∀ h', registered r.1 h' ↔ registered d h' ∧ h_id h' ≠ h_id h)
  ∧ timers r.1 = timers d ∖ {[t]}
  ∧ fire_timeout r.1 r.2 h = r.
Proof.
  intros Hd Hh Ht Harmed r.
  set (d0 := set_timers d (timers d ∖ {[t]})).
  assert (r = (unhook d0 (Some h), on_timeout (h_callback h) w)) as ->.
  { subst r. unfold fire_timeout. by rewrite Ht, bool_decide_eq_true_2. }
  cbn [fst snd]. subst d0.
  pose proof (reachable_ok _ _ Hd) as Hok.
  assert (registry_ok (set_timers d (timers d ∖ {[t]}))) as Hok'.
  { by apply (registry_ok_same_hooks d). }
  assert (timers (unhook (set_timers d (timers d ∖ {[t]})) (Some h)) = timers d ∖ {[t]})
    as Htimers.
  { destruct Hh as (ordering & Ho & _). unfold unhook. simpl. rewrite Ho, Ht. simpl.
    apply set_eq. intros t'. rewrite !elem_of_difference. tauto. }
  split; [done|]. split; [|split; [done|]].
  - intros h'. by apply (registered_unhook_iff (set_timers d (timers d ∖ {[t]})) h).
  - unfold fire_timeout. rewrite Ht, bool_decide_eq_false_2; [done|].
    rewrite Htimers. intros [_ Hn]%elem_of_difference. apply Hn. by apply elem_of_singleton.
Qed.

(** X9.  Only [unhook] disarms a timer.  [unload] and [reset] take the
    hooks of a module out of the registry and leave their timers armed: the
    callback of a hook that is gone is still called with [null] when its
    timer fires.  After [unhook] of a hook of a known opcode, the firing of
    its timer does nothing. *)
Theorem timeout_survives_unload d w name h t :
  h_timeout h = Some t →
  t ∈ timers d →
  (fire_timeout (unload d name).1 w h).2 = on_timeout (h_callback h) w
  ∧ (fire_timeout (reset d) w h).2 = on_timeout (h_callback h) w
  ∧ (is_Some (hooks d !! h_code h) →
     fire_timeout (unhook d (Some h)) w h = (unhook d (Some h), w)).
Proof.
  intros Ht Harmed. split; [|split].
  - unfold fire_timeout. rewrite Ht.
    assert (timers (unload d name).1 = timers d) as ->.
    { unfold unload. by case_bool_decide. }
    by rewrite bool_decide_eq_true_2.
  - unfold fire_timeout. rewrite Ht. simpl. by rewrite bool_decide_eq_true_2.
  - intros [ordering Ho]. unfold fire_timeout. rewrite Ht.
    rewrite bool_decide_eq_false_2; [done|].
    unfold unhook. rewrite Ho, Ht. simpl.
    intros [_ Hn]%elem_of_difference. apply Hn. by apply elem_of_singleton.
Qed.

End modules_more.

(* ===================================================================== *)
(** * More on [handle] and [write] *)
(* ===================================================================== *)

Section calls.
Context {World : Type}.
Variable codec : Codec.
Variable types : list string.
Variable protoVer : option Z.
Variable code : Z.
Variable copy : bytes.
Variables incoming fake : bool.
Variable hooks_n : jsnumber.

Implicit Types (st : @LoopState World) (hook h : @Hook World)
  (tr evs : list (@Event World)).

Local Abbreviation step := (run_hook codec types protoVer code copy incoming fake hooks_n).
Local Abbreviation steps := (run_hooks codec types protoVer code copy incoming fake hooks_n).

Lemma called_quiet evs : quiet evs = true → called evs = [] ∧ call_flags evs = [].
Proof.
  induction evs as [|ev evs IH]; [done|]. simpl.
  intros [Hev Hevs]%andb_true_iff. destruct (IH Hevs) as [Hc Hf].
  by destruct ev; simpl in *; rewrite ?Hc, ?Hf.
Qed.

(** One turn of the loop calls the callback of its hook once, or not at
    all. *)
Lemma run_hook_called st hook :
  (called (trace (step st hook)) = called (trace st)
   ∧ call_flags (trace (step st hook)) = call_flags (trace st)
   ∧ modified (step st hook) = modified st)
  ∨ (called (trace (step st hook)) = called (trace st) ++ [hook]
     ∧ call_flags (trace (step st hook))
       = call_flags (trace st) ++ [flags_of incoming fake st]).
Proof.
  destruct (run_hook_shape codec types protoVer code copy incoming fake hooks_n st hook)
    as [(evs & -> & Hq & Hm) | (_ & before & arg & after & -> & Hb & Ha)].
  - left. destruct (called_quiet _ Hq) as [Hc Hf].
    unfold called, call_flags in *. by rewrite !omap_app, Hc, Hf, !app_nil_r.
  - right. destruct (called_quiet _ Hb) as [Hcb Hfb], (called_quiet _ Ha) as [Hca Hfa].
    unfold called, call_flags in *. rewrite !omap_app, Hcb, Hfb, Hca, Hfa. simpl.
    by rewrite !app_nil_r.
Qed.

Lemma run_hooks_called hs st :
  ∃ l, called (trace (steps hs st)) = called (trace st) ++ l ∧ l `sublist_of` hs.
Proof.
  revert st. induction hs as [|hook hs IH]; intros st.
  - exists []. by rewrite app_nil_r.
  - rewrite run_hooks_cons. destruct (IH (step st hook)) as (l & -> & Hl).
    destruct (run_hook_called st hook) as [(-> & _) | (-> & _)].
    + exists l. split; [done|]. by apply sublist_cons.
    + exists (hook :: l). rewrite <-app_assoc. split; [done|]. by apply sublist_skip.
Qed.

(** [modified] is set and never cleared. *)
Lemma run_hook_modified st hook : modified st = true → modified (step st hook) = true.
Proof.
  intros Hm. unfold run_hook, raw_step, event_step, obtain_event, callback_event, commit.
  repeat case_inner; simpl; rewrite ?Hm; done.
Qed.

Lemma run_hook_flags_kept st hook : flags_kept st → flags_kept (step st hook).
Proof.
  intros [Hsorted Hseen]. unfold flags_kept.
  pose proof (run_hook_modified st hook) as Hmono.
  destruct (run_hook_called st hook) as [(_ & -> & Hm) | (_ & ->)].
  - split; [done|]. by rewrite Hm.
  - split.
    + apply StronglySorted_app_2; [|done|repeat constructor].
      intros fl1 fl2 Hfl1 ->%list_elem_of_singleton Hset. simpl.
      rewrite Forall_forall in Hseen. by apply (Hseen fl1).
    + apply Forall_app. split.
      * eapply Forall_impl; [done|]. intros fl Hfl Hset. auto.
      * by constructor.
Qed.



End calls.

Section handle_more.
Context {World : Type}.
Implicit Types (d : @Dispatch World) (st : @LoopState World) (h : @Hook World)
  (tr : list (@Event World)) (w : World).

(** The three ways through [handle]. *)
Lemma handle_cases codec types d w next bs incoming fake :
  let r := handle codec types d w next bs incoming fake in
  (readUInt16LE bs 2 = None
   ∧ hd_return r = Thrown ∧ hd_trace r = [] ∧ hd_dispatch r = d
   ∧ hd_heap r = next ∧ hd_world r = w)
  ∨ ∃ code, readUInt16LE bs 2 = Some code
      ∧ let checked := check_version codec d code bs in
        (hooks d !! CWild = None ∧ hooks d !! COp code = None
         ∧ hd_return r = Returned bs ∧ hd_trace r = checked.2)
        ∨ ((is_Some (hooks d !! CWild) ∨ is_Some (hooks d !! COp code))
           ∧ ∃ st,
               st = run_hooks codec types (protocolVersion checked.1) code bs incoming fake
                      (hooks_count (hooks d !! CWild) (hooks d !! COp code))
                      (iterateHooks (hooks d !! CWild) (hooks d !! COp code))
                      (init_state bs w next checked.2)
               ∧ hd_return r = (if silenced st then SUPPRESS else Returned (data st))
               ∧ hd_trace r = trace st).
Proof.
  unfold handle. destruct (readUInt16LE bs 2) as [code|]; [|left; done].
  right. exists code. split; [done|]. cbv zeta.
  pose proof (check_version_hooks codec d code bs) as Hhooks.
  destruct (check_version codec d code bs) as [d' tr0]. simpl in Hhooks. simpl.
  unfold handle_loop. rewrite Hhooks.
  destruct (hooks d !! CWild) as [gs|] eqn:Hg, (hooks d !! COp code) as [cs|] eqn:Hc;
    simpl; [right|right|right|left; done];
    (split; [eauto|]; eexists; split; [reflexivity|done]).
Qed.

Lemma check_version_calls codec d code bs :
  quiet (check_version codec d code bs).2 = true.
Proof. by destruct (check_version_quiet codec d code bs DRaw) as [Hq _]. Qed.

Lemma handle_called codec types d w next bs incoming fake :
  ∀ code, readUInt16LE bs 2 = Some code →
    called (hd_trace (handle codec types d w next bs incoming fake))
    `sublist_of` iterateHooks (hooks d !! CWild) (hooks d !! COp code).
Proof.
  intros code Hcode.
  destruct (handle_cases codec types d w next bs incoming fake)
    as [(Hnone & _) | (code' & Hcode' & [(_ & _ & _ & ->) | (_ & st & -> & _ & ->)])].
  - congruence.
  - destruct (called_quiet _ (check_version_calls codec d code' bs)) as [-> _].
    apply sublist_nil_l.
  - assert (code' = code) as -> by congruence.
    match goal with |- context [run_hooks ?c ?t ?p ?co ?cp ?i ?f ?n ?hs ?s] =>
      destruct (run_hooks_called c t p co cp i f n hs s) as (l & -> & Hl) end.
    simpl. by destruct (called_quiet _ (check_version_calls codec d code bs)) as [-> _].
Qed.



(** X11.  [modified] only goes up while a frame is handled: once a
    callback has seen it set, every callback called later for that frame
    sees it set. *)
Theorem modified_never_cleared codec types d w next bs incoming fake :
  StronglySorted modified_stays
    (call_flags (hd_trace (handle codec types d w next bs incoming fake))).
Proof.
  destruct (handle_cases codec types d w next bs incoming fake)
    as [(_ & _ & -> & _) | (code & _ & [(_ & _ & _ & ->) | (_ & st & -> & _ & ->)])].
  - constructor.
  - destruct (called_quiet _ (check_version_calls codec d code bs)) as [_ ->]. constructor.
  - apply (run_hooks_invariant codec types _ code bs incoming fake _ flags_kept).
    + intros st hook. apply run_hook_flags_kept.
    + unfold flags_kept. simpl.
      destruct (called_quiet _ (check_version_calls codec d code bs)) as [_ ->].
      split; constructor.
Qed.



Lemma readUInt16LE_short (bs : bytes) :
  readUInt16LE bs 2 = None ↔ (length bs < 4)%nat.
Proof.
  unfold readUInt16LE. split.
  - destruct (bs !! 2%nat) eqn:H2, (bs !! 3%nat) eqn:H3; try done;
      intros _; apply lookup_ge_None in H3 || apply lookup_ge_None in H2; lia.
  - intros Hlen. destruct (bs !! 2%nat); [|done].
    destruct (bs !! 3%nat) eqn:H3; [|done]. apply lookup_lt_Some in H3. lia.
Qed.



(** X14.  After [reset] no module is loaded and no hook is registered, so
    [handle] returns every frame of four bytes or more as it came, without a
    call of a callback.  The timers stay armed. *)
Theorem reset_clears codec types d w next bs incoming fake :
  modules (reset d) = ∅
  ∧ (∀ h, ¬ registered (reset d) h)
  ∧ timers (reset d) = timers d
  ∧ ((4 ≤ length bs)%nat →
     hd_return (handle codec types (reset d) w next bs incoming fake) = Returned bs
     ∧ called (hd_trace (handle codec types (reset d) w next bs incoming fake)) = []).
Proof.
  split; [done|]. split; [|split; [done|]].
  - intros h (ordering & Ho & _). simpl in Ho. by rewrite lookup_empty in Ho.
  - intros Hlen.
    assert (readUInt16LE bs 2 ≠ None) as Hcode.
    { intros Hnone%readUInt16LE_short. lia. }
    destruct (handle_cases codec types (reset d) w next bs incoming fake)
      as [(Hnone & _)
         | (code' & Hcode' & [(_ & _ & -> & ->) | ([[? Hs]|[? Hs]] & _)])].
    + congruence.
    + split; [done|].
      by destruct (called_quiet _ (check_version_calls codec (reset d) code' bs)) as [-> _].
    + simpl in Hs. by rewrite lookup_empty in Hs.
    + simpl in Hs. by rewrite lookup_empty in Hs.
Qed.

(** The hooks of a namespace that was taken out of the registry are not
    called. *)
Lemma removed_not_called codec types name d0 d w next bs incoming fake h :
  hooks d = hooks (remove_namespace name d0) →
  h ∈ called (hd_trace (handle codec types d w next bs incoming fake)) →
  h_namespace h ≠ name.
Proof.
  intros Hhooks Hh.
  destruct (readUInt16LE bs 2) as [code|] eqn:Hcode.
  - eapply elem_of_sublist in Hh; [|by apply handle_called].
    assert (∀ c, h ∈ ordering_hooks (default [] (hooks d !! c)) → h_namespace h ≠ name)
      as Hout.
    { intros c. rewrite Hhooks, remove_namespace_hooks.
      rewrite list_elem_of_In, List.filter_In, negb_true_iff, bool_decide_eq_false.
      tauto. }
    apply merge_groups_elem in Hh as [Hh|Hh]; by eapply Hout.
  - destruct (handle_cases codec types d w next bs incoming fake)
      as [(_ & _ & Htr & _) | (code & Hcode' & _)]; [|congruence].
    rewrite Htr in Hh. by apply elem_of_nil in Hh.
Qed.

(** X15.  A module that is gone is not called.  After [unload] of a loaded
    module whose destructor leaves the registry alone, and after a [load]
    whose constructor threw, [handle] calls no callback of a hook of that
    namespace, whatever the frame. *)
Theorem unloaded_module_not_called codec types d w name next bs incoming fake :
  (∀ destructor,
     name ∈ modules d →
     (∀ run, destructor = Some run →
        hooks (run (remove_namespace name d) w).1.1 = hooks (remove_namespace name d)) →
     let r := unload_module d w name destructor in
     ∀ h, h ∈ called (hd_trace (handle codec types r.1.1 r.1.2 next bs incoming fake)) →
          h_namespace h ≠ name)
  ∧ (∀ ctor d1 w1,
       name ∉ modules d →
       ctor d w = (d1, w1, false) →
       let r := load d w name ctor in
       ∀ h, h ∈ called (hd_trace (handle codec types r.1.1 r.1.2 next bs incoming fake)) →
            h_namespace h ≠ name).
Proof.
  split.
  - intros destructor Hin Hkept r h. apply (removed_not_called _ _ name d).
    subst r. unfold unload_module. rewrite bool_decide_eq_true_2 by done.
    destruct destructor as [run|]; [|done].
    specialize (Hkept run eq_refl).
    by destruct (run (remove_namespace name d) w) as [[d2 w2] ok].
  - intros ctor d1 w1 Hout Hctor r h. apply (removed_not_called _ _ name d1).
    subst r. unfold load. by rewrite bool_decide_eq_false_2, Hctor.
Qed.

(** *** [write] *)


(** X17.  A frame sent through [write] is a fake one: every callback that
    is called for it sees [fake] set and [incoming] opposite to [outgoing],
    and a hook whose filter asks for [fake: false], which is the filter of a
    hook registered without one, is not called. *)
Theorem write_is_fake codec types write_named d w next connection outgoing arg pre h fl
    call post :
  wr_trace (dispatch_write codec types write_named d w next connection outgoing arg)
  = pre ++ EvCall h fl call :: post →
  fl_fake fl = true ∧ fl_incoming fl = negb outgoing
  ∧ f_fake (h_filter h) ≠ Some false
  ∧ (∀ opts, h_filter h ≠ assign_filter
               {| fo_fake := None; fo_incoming := fo_incoming opts;
                  fo_modified := fo_modified opts; fo_silenced := fo_silenced opts |}).
Proof.
  unfold dispatch_write. destruct connection; simpl; [|by destruct pre].
  destruct (write_frame write_named d arg) as [frame|]; simpl; [|by destruct pre].
  intros Htr.
  destruct (handle_calls_filtered codec types d w next frame (negb outgoing) true
              pre h fl call post Htr) as (Hpass & Hfake & Hincoming & _).
  assert (f_fake (h_filter h) ≠ Some false) as Hne.
  { intros Hf. unfold filter_pass in Hpass. rewrite Hf, Hfake in Hpass. done. }
  split; [done|]. split; [done|]. split; [done|].
  intros opts Heq. apply Hne. by rewrite Heq.
Qed.

End handle_more.

(* ===================================================================== *)
(** * More on [iterateHooks], [latestDefVersion] and [deepClone] *)
(* ===================================================================== *)

Section merge_more.
Context {World : Type}.
Implicit Types (gs cs : list (@HookGroup World)).

Lemma merge_groups_all gs cs :
  merge_groups gs cs ≡ₚ ordering_hooks gs ++ ordering_hooks cs
  ∧ ordering_hooks gs `sublist_of` merge_groups gs cs
  ∧ ordering_hooks cs `sublist_of` merge_groups gs cs.
Proof.
  revert cs. induction gs as [|g gs IHg]; intros cs.
  { rewrite merge_groups_nil_l. split; [done|]. split; [apply sublist_nil_l|done]. }
  induction cs as [|cg cs IHc].
  { rewrite merge_groups_nil_r. split; [by rewrite app_nil_r|].
    split; [done|apply sublist_nil_l]. }
  rewrite merge_groups_cons, !ordering_hooks_cons.
  destruct (g_order g <=? g_order cg).
  - destruct (IHg (cg :: cs)) as (Hperm & Hleft & Hright).
    rewrite ordering_hooks_cons in Hperm, Hright. split; [|split].
    + by rewrite Hperm, <-app_assoc.
    + by apply sublist_app.
    + by apply sublist_inserts_l.
  - destruct IHc as (Hperm & Hleft & Hright).
    rewrite ordering_hooks_cons in Hperm, Hleft. split; [|split].
    + rewrite Hperm. apply Permutation_app_swap_app.
    + by apply sublist_inserts_l.
    + by apply sublist_app.
Qed.

(** X18.  [iterateHooks] yields every hook of the two orderings it is
    given, once for each place the hook has in them, keeping the hooks of
    an ordering in the order they have there, whether the orderings are
    sorted or not.  An ordering that is missing counts as empty: with one
    ordering only, the hooks come in the order of that ordering. *)
Theorem iterateHooks_yields_all (globalHooks codeHooks : option (list (@HookGroup World))) :
  iterateHooks globalHooks codeHooks
  ≡ₚ ordering_hooks (default [] globalHooks) ++ ordering_hooks (default [] codeHooks)
  ∧ ordering_hooks (default [] globalHooks) `sublist_of` iterateHooks globalHooks codeHooks
  ∧ ordering_hooks (default [] codeHooks) `sublist_of` iterateHooks globalHooks codeHooks
  ∧ iterateHooks None codeHooks = ordering_hooks (default [] codeHooks)
  ∧ iterateHooks globalHooks None = ordering_hooks (default [] globalHooks).
Proof.
  unfold iterateHooks.
  destruct (merge_groups_all (default [] globalHooks) (default [] codeHooks))
    as (Hperm & Hleft & Hright).
  split; [done|]. split; [done|]. split; [done|]. split.
  - apply merge_groups_nil_l.
  - apply merge_groups_nil_r.
Qed.

End merge_more.

(** X19.  [latestDefVersion] holds, for every message the codec has
    definitions for, the greatest version that has one; a message without
    any definition gets [-Infinity], and a name the codec does not know gets
    no entry. *)
Theorem latestDefVersion_greatest codec name :
  match latestDefVersion codec !! name with
  | Some (Some latest) =>
      ∃ defs, messages codec !! name = Some defs
              ∧ is_Some (defs !! latest)
              ∧ ∀ v, is_Some (defs !! v) → v ≤ latest
  | Some None => messages codec !! name = Some ∅
  | None => messages codec !! name = None
  end.
Proof.
  unfold latestDefVersion. rewrite lookup_fmap.
  destruct (messages codec !! name) as [defs|]; simpl; [|done].
  destruct (max_keys defs) as [latest|] eqn:Hmax.
  - exists defs. split; [done|]. by apply max_keys_Some.
  - f_equal. by apply max_keys_None.
Qed.

Section clone_more.
Variable types : list string.

Lemma typeof_object_erase (v v' : value) :
  erase v = erase v' → typeof_object v = typeof_object v'.
Proof. by destruct v, v'. Qed.

Lemma clone_props_respects (fs : list (string * value)) :
  Forall (λ kv : string * value, ∀ v' n m, erase kv.2 = erase v' →
            erase (deepClone types kv.2 n).1 = erase (deepClone types v' m).1) fs →
  ∀ fs' n m,
    map (λ kv : string * value, (kv.1, erase kv.2)) fs
    = map (λ kv : string * value, (kv.1, erase kv.2)) fs' →
    map (λ kv : string * value, (kv.1, erase kv.2)) (clone_props (deepClone types) fs n).1
    = map (λ kv : string * value, (kv.1, erase kv.2)) (clone_props (deepClone types) fs' m).1.
Proof.
  induction 1 as [|[key val] fs Hval _ IH]; intros [|[key' val'] fs'] n m Heq;
    try done.
  simpl in Heq. injection Heq as -> Hv Hfs. simpl.
  unfold clone_entry. rewrite (typeof_object_erase _ _ Hv).
  destruct (typeof_object val').
  - specialize (Hval val' n m Hv). simpl in Hval.
    destruct (deepClone types val n) as [c n1], (deepClone types val' m) as [c' m1].
    specialize (IH fs' n1 m1 Hfs).
    destruct (clone_props (deepClone types) fs n1), (clone_props (deepClone types) fs' m1).
    simpl in *. by rewrite Hval, IH.
  - specialize (IH fs' n m Hfs).
    destruct (clone_props (deepClone types) fs n), (clone_props (deepClone types) fs' m).
    simpl in *. by rewrite Hv, IH.
Qed.

Lemma clone_elems_respects (es : list value) :
  Forall (λ v, ∀ v' n m, erase v = erase v' →
            erase (deepClone types v n).1 = erase (deepClone types v' m).1) es →
  ∀ es' n m,
    map erase es = map erase es' →
    map erase (clone_elems (deepClone types) es n).1
    = map erase (clone_elems (deepClone types) es' m).1.
Proof.
  induction 1 as [|val es Hval _ IH]; intros [|val' es'] n m Heq; try done.
  simpl in Heq. injection Heq as Hv Hes. simpl.
  unfold clone_entry. rewrite (typeof_object_erase _ _ Hv).
  destruct (typeof_object val').
  - specialize (Hval val' n m Hv).
    destruct (deepClone types val n) as [c n1], (deepClone types val' m) as [c' m1].
    specialize (IH es' n1 m1 Hes).
    destruct (clone_elems (deepClone types) es n1), (clone_elems (deepClone types) es' m1).
    simpl in *. by rewrite Hval, IH.
  - specialize (IH es' n m Hes).
    destruct (clone_elems (deepClone types) es n), (clone_elems (deepClone types) es' m).
    simpl in *. by rewrite Hv, IH.
Qed.

Lemma deepClone_respects obj :
  ∀ obj' n m, erase obj = erase obj' →
    erase (deepClone types obj n).1 = erase (deepClone types obj' m).1.
Proof.
  induction obj as [|p|a bs|a cls fs IH|a es IH|a fs IH] using value_nested_ind;
    intros obj' n m Heq; destruct obj'; try done; simpl in Heq.
  - injection Heq as ->. by destruct p0 as [| | | |s].
  - injection Heq as -> Hfs. simpl. case_bool_decide.
    + simpl. by rewrite Hfs.
    + pose proof (clone_props_respects fs IH fields (S n) (S m) Hfs) as Hc.
      destruct (clone_props (deepClone types) fs (S n)),
        (clone_props (deepClone types) fields (S m)).
      simpl in *. by rewrite Hc.
  - injection Heq as Hes. simpl.
    pose proof (clone_elems_respects es IH elems (S n) (S m) Hes) as Hc.
    destruct (clone_elems (deepClone types) es (S n)),
      (clone_elems (deepClone types) elems (S m)).
    simpl in *. by rewrite Hc.
  - injection Heq as Hfs. simpl.
    pose proof (clone_props_respects fs IH fields (S n) (S m) Hfs) as Hc.
    destruct (clone_props (deepClone types) fs (S n)),
      (clone_props (deepClone types) fields (S m)).
    simpl in *. by rewrite Hc.
Qed.

(** What [deepClone] returns is an object, allocated by the call. *)
Lemma deepClone_object obj next :
  typeof_object (deepClone types obj next).1 = true
  ∧ head (addrs (deepClone types obj next).1) = Some next.
Proof.
  destruct obj as [|p|a bs|a cls fs|a es|a fs]; simpl.
  - done.
  - by destruct p.
  - done.
  - case_bool_decide; [done|]. by destruct (clone_props (deepClone types) fs (S next)).
  - by destruct (clone_elems (deepClone types) es (S next)).
  - by destruct (clone_props (deepClone types) fs (S next)).
Qed.

Lemma clone_props_prims rec (fs : list (string * value)) next :
  Forall (λ kv : string * value, is_prim kv.2 = true) fs →
  clone_props rec fs next = (fs, next).
Proof.
  induction 1 as [|[key val] fs Hval _ IH]; [done|]. simpl.
  rewrite (clone_entry_prim rec val next Hval). by rewrite IH.
Qed.

Lemma string_props_prims i s :
  Forall (λ kv : string * value, is_prim kv.2 = true) (string_props i s).
Proof. revert i. induction s as [|c s IH]; intros i; simpl; constructor; auto. Qed.

Lemma clone_props_stable (fs : list (string * value)) :
  Forall (λ kv : string * value, ∀ n m k,
            erase (deepClone types (deepClone types kv.2 n).1 m).1
            = erase (deepClone types kv.2 k).1) fs →
  ∀ n m k,
    map (λ kv : string * value, (kv.1, erase kv.2))
      (clone_props (deepClone types) (clone_props (deepClone types) fs n).1 m).1
    = map (λ kv : string * value, (kv.1, erase kv.2)) (clone_props (deepClone types) fs k).1.
Proof.
  induction 1 as [|[key val] fs Hval _ IH]; intros n m k; [done|]. simpl.
  unfold clone_entry. destruct (typeof_object val) eqn:Hobj.
  - specialize (Hval n m k). simpl in Hval.
    pose proof (proj1 (deepClone_object val n)) as Hc.
    destruct (deepClone types val n) as [c n1], (deepClone types val k) as [c' k1].
    destruct (clone_props (deepClone types) fs n1) as [rest n2] eqn:Hrest.
    simpl in *. unfold clone_entry. rewrite Hc.
    destruct (deepClone types c m) as [c2 m1]. simpl in Hval.
    specialize (IH n1 m1 k1). rewrite Hrest in IH. simpl in IH.
    destruct (clone_props (deepClone types) rest m1), (clone_props (deepClone types) fs k1).
    simpl in *. by rewrite Hval, IH.
  - destruct (clone_props (deepClone types) fs n) as [rest n2] eqn:Hrest.
    simpl. unfold clone_entry. rewrite Hobj.
    specialize (IH n m k). rewrite Hrest in IH. simpl in IH.
    destruct (clone_props (deepClone types) rest m), (clone_props (deepClone types) fs k).
    simpl in *. by rewrite IH.
Qed.

Lemma clone_elems_stable (es : list value) :
  Forall (λ v, ∀ n m k,
            erase (deepClone types (deepClone types v n).1 m).1
            = erase (deepClone types v k).1) es →
  ∀ n m k,
    map erase (clone_elems (deepClone types) (clone_elems (deepClone types) es n).1 m).1
    = map erase (clone_elems (deepClone types) es k).1.
Proof.
  induction 1 as [|val es Hval _ IH]; intros n m k; [done|]. simpl.
  unfold clone_entry. destruct (typeof_object val) eqn:Hobj.
  - specialize (Hval n m k).
    pose proof (proj1 (deepClone_object val n)) as Hc.
    destruct (deepClone types val n) as [c n1], (deepClone types val k) as [c' k1].
    destruct (clone_elems (deepClone types) es n1) as [rest n2] eqn:Hrest.
    simpl in *. unfold clone_entry. rewrite Hc.
    destruct (deepClone types c m) as [c2 m1]. simpl in Hval.
    specialize (IH n1 m1 k1). rewrite Hrest in IH. simpl in IH.
    destruct (clone_elems (deepClone types) rest m1), (clone_elems (deepClone types) es k1).
    simpl in *. by rewrite Hval, IH.
  - destruct (clone_elems (deepClone types) es n) as [rest n2] eqn:Hrest.
    simpl. unfold clone_entry. rewrite Hobj.
    specialize (IH n m k). rewrite Hrest in IH. simpl in IH.
    destruct (clone_elems (deepClone types) rest m), (clone_elems (deepClone types) es k).
    simpl in *. by rewrite IH.
Qed.

Lemma deepClone_stable obj :
  ∀ n m k, erase (deepClone types (deepClone types obj n).1 m).1
           = erase (deepClone types obj k).1.
Proof.
  induction obj as [|p|a bs|a cls fs IH|a es IH|a fs IH] using value_nested_ind;
    intros n m k.
  - done.
  - destruct p as [| | | |s]; try done. simpl.
    by rewrite (clone_props_prims _ _ _ (string_props_prims 0 s)).
  - done.
  - simpl. case_bool_decide as Hcls.
    + simpl. by rewrite bool_decide_eq_true_2.
    + pose proof (clone_props_stable fs IH (S n) (S m) (S k)) as Hc.
      destruct (clone_props (deepClone types) fs (S n)) as [fs1 n1]. simpl in *.
      destruct (clone_props (deepClone types) fs1 (S m)),
        (clone_props (deepClone types) fs (S k)).
      simpl in *. by rewrite Hc.
  - simpl. pose proof (clone_elems_stable es IH (S n) (S m) (S k)) as Hc.
    destruct (clone_elems (deepClone types) es (S n)) as [es1 n1]. simpl in *.
    destruct (clone_elems (deepClone types) es1 (S m)),
      (clone_elems (deepClone types) es (S k)).
    simpl in *. by rewrite Hc.
  - simpl. pose proof (clone_props_stable fs IH (S n) (S m) (S k)) as Hc.
    destruct (clone_props (deepClone types) fs (S n)) as [fs1 n1]. simpl in *.
    destruct (clone_props (deepClone types) fs1 (S m)),
      (clone_props (deepClone types) fs (S k)).
    simpl in *. by rewrite Hc.
Qed.

Lemma clone_props_next (fs : list (string * value)) :
  Forall (λ kv : string * value, ∀ next, (next < (deepClone types kv.2 next).2)%nat) fs →
  ∀ next, (next ≤ (clone_props (deepClone types) fs next).2)%nat.
Proof.
  induction 1 as [|[key val] fs Hval _ IH]; intros next; [done|]. simpl.
  unfold clone_entry. destruct (typeof_object val).
  - specialize (Hval next). simpl in Hval. destruct (deepClone types val next) as [c n1].
    specialize (IH n1). destruct (clone_props (deepClone types) fs n1). simpl in *. lia.
  - specialize (IH next). by destruct (clone_props (deepClone types) fs next).
Qed.

Lemma clone_elems_next (es : list value) :
  Forall (λ v, ∀ next, (next < (deepClone types v next).2)%nat) es →
  ∀ next, (next ≤ (clone_elems (deepClone types) es next).2)%nat.
Proof.
  induction 1 as [|val es Hval _ IH]; intros next; [done|]. simpl.
  unfold clone_entry. destruct (typeof_object val).
  - specialize (Hval next). destruct (deepClone types val next) as [c n1].
    specialize (IH n1). destruct (clone_elems (deepClone types) es n1). simpl in *. lia.
  - specialize (IH next). by destruct (clone_elems (deepClone types) es next).
Qed.

Lemma deepClone_next obj : ∀ next, (next < (deepClone types obj next).2)%nat.
Proof.
  induction obj as [|p|a bs|a cls fs IH|a es IH|a fs IH] using value_nested_ind;
    intros next; simpl; try lia.
  - destruct p; simpl; lia.
  - case_bool_decide; simpl; [lia|].
    pose proof (clone_props_next fs IH (S next)).
    destruct (clone_props (deepClone types) fs (S next)). simpl in *. lia.
  - pose proof (clone_elems_next es IH (S next)).
    destruct (clone_elems (deepClone types) es (S next)). simpl in *. lia.
  - pose proof (clone_props_next fs IH (S next)).
    destruct (clone_props (deepClone types) fs (S next)). simpl in *. lia.
Qed.

(** X20.  [deepClone] looks at the structure of its argument only: two
    values of the same structure have clones of the same structure, wherever
    the objects are.  The clone of a clone has the structure of the clone:
    what [deepClone] changes ([null] and primitives into empty objects,
    strings into objects of characters, instances of unknown classes into
    plain objects) it changes once.  And what it returns is always an object
    of its own, also for [null] and for a primitive. *)
Theorem deepClone_structural :
  (∀ obj obj' n m,
      struct_eq obj obj' →
      struct_eq (deepClone types obj n).1 (deepClone types obj' m).1)
  ∧ (∀ obj n m,
        struct_eq (deepClone types (deepClone types obj n).1 m).1 (deepClone types obj n).1)
  ∧ (∀ obj next,
        typeof_object (deepClone types obj next).1 = true
        ∧ head (addrs (deepClone types obj next).1) = Some next
        ∧ (next < (deepClone types obj next).2)%nat).
Proof.
  split; [|split].
  - intros obj obj' n m. apply deepClone_respects.
  - intros obj n m. apply deepClone_stable.
  - intros obj next. destruct (deepClone_object obj next) as [Hobj Hhead].
    split; [done|]. split; [done|]. apply deepClone_next.
Qed.

End clone_more.

(* ===================================================================== *)
(** * System messages *)
(* ===================================================================== *)

Section strings.

Lemma append_nil (b : string) : EmptyString +:+ b = b.
Proof. done. Qed.

Lemma append_cons x (a b : string) : String x a +:+ b = String x (a +:+ b).
Proof. done. Qed.

Lemma append_assoc (a b c : string) : (a +:+ b) +:+ c = a +:+ b +:+ c.
Proof. induction a as [|x a IH]; [done|]. by rewrite !append_cons, IH. Qed.

Lemma includes_app c (a b : string) : includes c (a +:+ b) = includes c a || includes c b.
Proof.
  induction a as [|x a IH]; [done|]. rewrite append_cons. simpl. by rewrite IH, orb_assoc.
Qed.

Lemma split_nonempty sep s : split sep s ≠ [].
Proof.
  destruct s as [|a s]; simpl; [done|]. case_bool_decide; [done|].
  by destruct (split sep s).
Qed.

Lemma split_whole sep s : includes sep s = false → split sep s = [s].
Proof.
  induction s as [|a s IH]; simpl; [done|].
  intros [Ha Hs]%orb_false_iff. rewrite Ha. by rewrite IH.
Qed.

(** A piece appended after a separator is one more piece. *)
Lemma split_snoc sep s piece :
  includes sep piece = false →
  split sep (s +:+ String sep piece) = split sep s ++ [piece].
Proof.
  intros Hpiece. induction s as [|a s IH].
  - rewrite append_nil. simpl. rewrite bool_decide_eq_true_2 by done.
    by rewrite split_whole.
  - rewrite append_cons. simpl. case_bool_decide; [by rewrite IH|]. rewrite IH.
    pose proof (split_nonempty sep s). by destruct (split sep s).
Qed.

Lemma append_tokens_head a str data :
  append_tokens (String a str) data = String a (append_tokens str data).
Proof.
  revert str. induction data as [|[key val] data IH]; intros str; [done|].
  unfold append_tokens in *. simpl. by rewrite <-IH, append_cons.
Qed.

Lemma split_append_tokens str data :
  Forall (λ kv : string * string, no_vt kv.1 ∧ no_vt kv.2) data →
  split vt (append_tokens str data)
  = split vt str ++ concat (map (λ kv : string * string, [kv.1; kv.2]) data).
Proof.
  intros Hdata. revert str.
  induction Hdata as [|[key val] data [Hkey Hval] _ IH]; intros str.
  - by rewrite app_nil_r.
  - change (append_tokens str ((key, val) :: data))
      with (append_tokens (str +:+ String vt key +:+ String vt val) data).
    rewrite IH. simpl.
    rewrite <-append_assoc, !split_snoc by done.
    by rewrite <-!app_assoc.
Qed.

Lemma token_pairs_concat data m :
  token_pairs (concat (map (λ kv : string * string, [kv.1; kv.2]) data)) m
  = foldl (λ m kv, set_token kv.1 kv.2 m) m data.
Proof. revert m. induction data as [|[key val] data IH]; intros m; simpl; [done|]. apply IH. Qed.

(** *** Numbers as strings *)

Lemma pretty_N_char_digit (k : N) :
  (k < 10)%N →
  is_digit (pretty_N_char k) = true ∧ digit_of (pretty_N_char k) = Some (Z.of_N k).
Proof.
  intros Hk.
  assert (k = 0 ∨ k = 1 ∨ k = 2 ∨ k = 3 ∨ k = 4 ∨ k = 5 ∨ k = 6 ∨ k = 7 ∨ k = 8 ∨ k = 9)%N
    as Hcases by lia.
  repeat destruct Hcases as [->|Hcases]; try subst k; done.
Qed.

Lemma pretty_N_go_digits (x : N) s : all_digits s = true → all_digits (pretty_N_go x s) = true.
Proof.
  revert s. induction (N.lt_wf_0 x) as [x _ IH]; intros s Hs.
  destruct (decide (x = 0)%N) as [->|Hx]; [by rewrite pretty_N_go_0|].
  rewrite pretty_N_go_step by lia. apply IH.
  - apply N.div_lt; lia.
  - simpl. rewrite Hs, andb_true_r.
    apply pretty_N_char_digit, N.mod_lt. lia.
Qed.

Lemma pretty_N_go_value (x : N) s :
  (0 < x)%N →
  parse_digits 10 (pretty_N_go x s) None = parse_digits 10 s (Some (Z.of_N x)).
Proof.
  revert s. induction (N.lt_wf_0 x) as [x _ IH]; intros s Hx.
  rewrite pretty_N_go_step by done.
  assert (x `mod` 10 < 10)%N as Hmod by (apply N.mod_lt; lia).
  destruct (pretty_N_char_digit _ Hmod) as [_ Hdigit].
  pose proof (N.div_mod x 10 ltac:(lia)) as Hdiv.
  destruct (decide (x `div` 10 = 0)%N) as [Hzero|Hpos].
  - rewrite Hzero, pretty_N_go_0. simpl. rewrite Hdigit.
    destruct (Z.ltb_spec (Z.of_N (x `mod` 10)) 10) as [_|]; [|lia].
    f_equal. f_equal. lia.
  - rewrite IH; [|apply N.div_lt; lia|by apply N.neq_0_lt_0]. simpl. rewrite Hdigit.
    destruct (Z.ltb_spec (Z.of_N (x `mod` 10)) 10) as [_|]; [|lia].
    f_equal. f_equal. lia.
Qed.

Lemma pretty_N_go_nonempty (x : N) s : (0 < x)%N → pretty_N_go x s ≠ EmptyString.
Proof.
  revert s. induction (N.lt_wf_0 x) as [x _ IH]; intros s Hx.
  rewrite pretty_N_go_step by done.
  destruct (decide (x `div` 10 = 0)%N) as [->|Hpos]; [by rewrite pretty_N_go_0|].
  apply IH; [apply N.div_lt; lia|by apply N.neq_0_lt_0].
Qed.

Lemma is_digit_cases (a : ascii) :
  is_digit a = true →
  (a = "0" ∨ a = "1" ∨ a = "2" ∨ a = "3" ∨ a = "4" ∨ a = "5" ∨ a = "6" ∨ a = "7"
   ∨ a = "8" ∨ a = "9")%char.
Proof.
  destruct a as [[] [] [] [] [] [] [] []]; try discriminate; intros _; tauto.
Qed.

(** On a string of decimal digits [parseInt] reads the whole number. *)
Lemma parseInt_digits s :
  s ≠ EmptyString → all_digits s = true → parseInt s = parse_digits 10 s None.
Proof.
  destruct s as [|a rest]; [done|]. intros _. simpl.
  intros [Ha Hrest]%andb_true_iff.
  assert (∀ o : option Z, Z.mul 1 <$> o = o) as Hone.
  { intros [z|]; simpl; [|done]. f_equal. lia. }
  assert (∀ b rest', rest = String b rest' → b ≠ "x"%char ∧ b ≠ "X"%char) as Hnext.
  { intros b rest' ->. simpl in Hrest. apply andb_true_iff in Hrest as [Hb _].
    split; intros ->; done. }
  apply is_digit_cases in Ha.
  repeat destruct Ha as [->|Ha]; try subst a; unfold parseInt; simpl;
    try apply Hone.
  destruct rest as [|b rest']; [apply Hone|].
  destruct (Hnext b rest' eq_refl) as [Hx HX].
  destruct b as [[] [] [] [] [] [] [] []]; try done; apply Hone.
Qed.

Lemma pretty_N_digits (x : N) :
  pretty x ≠ EmptyString ∧ all_digits (pretty x) = true
  ∧ parse_digits 10 (pretty x) None = Some (Z.of_N x).
Proof.
  unfold pretty, pretty_N. case_decide as Hx; [by subst x|].
  split; [apply pretty_N_go_nonempty; lia|].
  split; [by apply pretty_N_go_digits|].
  rewrite pretty_N_go_value by lia. done.
Qed.

Lemma includes_digits c s :
  is_digit c = false → all_digits s = true → includes c s = false.
Proof.
  intros Hc. induction s as [|a s IH]; simpl; [done|].
  intros [Ha Hs]%andb_true_iff. rewrite IH by done.
  rewrite orb_false_r. apply bool_decide_eq_false. intros ->. congruence.
Qed.

(** [parseInt] reads back the number that was written into a string, and
    that string holds digits and a sign only. *)
Lemma parseInt_pretty (z : Z) :
  parseInt (pretty z) = Some z
  ∧ ∀ c, is_digit c = false → c ≠ "-"%char → includes c (pretty z) = false.
Proof.
  destruct z as [|p|p]; [by split; [|intros c Hc _; apply includes_digits]|..].
  - change (pretty (Z.pos p)) with (pretty (N.pos p)).
    destruct (pretty_N_digits (N.pos p)) as (Hne & Hdigits & Hvalue).
    split; [by rewrite parseInt_digits|].
    intros c Hc _. by apply includes_digits.
  - change (pretty (Z.neg p)) with ("-" +:+ pretty (N.pos p)).
    destruct (pretty_N_digits (N.pos p)) as (Hne & Hdigits & Hvalue).
    split.
    + pose proof (parseInt_digits _ Hne Hdigits) as Hparse.
      rewrite Hvalue in Hparse. revert Hparse.
      rewrite append_cons, append_nil.
      destruct (pretty (N.pos p)) as [|a rest]; [done|].
      simpl in Hdigits. apply andb_true_iff in Hdigits as [Ha Hrest].
      assert (∀ b rest', rest = String b rest' → b ≠ "x"%char ∧ b ≠ "X"%char) as Hnext.
      { intros b rest' ->. simpl in Hrest. apply andb_true_iff in Hrest as [Hb _].
        split; intros ->; done. }
      unfold parseInt. simpl skip_whitespace.
      apply is_digit_cases in Ha.
      repeat destruct Ha as [->|Ha]; try subst a; simpl;
        try (intros Hp; apply fmap_Some in Hp as (n & -> & Hn); simpl; f_equal; lia).
      destruct rest as [|b rest'].
      { intros Hp. apply fmap_Some in Hp as (n & -> & Hn). simpl. f_equal. lia. }
      destruct (Hnext b rest' eq_refl) as [Hx HX].
      destruct b as [[] [] [] [] [] [] [] []]; try done;
        intros Hp; apply fmap_Some in Hp as (n & -> & Hn); simpl; f_equal; lia.
    + intros c Hc Hdash. rewrite append_cons, append_nil. simpl.
      rewrite includes_digits by done.
      rewrite orb_false_r. by apply bool_decide_eq_false.
Qed.

End strings.

Section system_messages.
Implicit Types (data : list (string * string)) (sysmsgMap : option SysmsgMap).

Lemma token_map_snoc data key val :
  token_map (data ++ [(key, val)]) = set_token key val (token_map data).
Proof. unfold token_map. by rewrite foldl_app. Qed.

(** The object made of pairs with distinct keys holds just these pairs,
    [__proto__] apart. *)
Lemma token_map_lookup data key val :
  NoDup data.*1 → key ≠ "__proto__" →
  token_map data !! key = Some val ↔ (key, val) ∈ data.
Proof.
  intros Hkeys Hkey. induction data as [|[k v] data IH] using rev_ind.
  { unfold token_map. simpl. rewrite lookup_empty, elem_of_nil. by split. }
  rewrite fmap_app in Hkeys. apply NoDup_app in Hkeys as (Hdata & Hfresh & _).
  rewrite token_map_snoc, elem_of_app, list_elem_of_singleton. unfold set_token.
  destruct (decide (k = key)) as [->|Hne].
  - rewrite bool_decide_eq_false_2, lookup_insert_eq by done. split.
    + intros [= ->]. by right.
    + intros [Hin | [= ->]]; [|done].
      destruct (Hfresh key); [|by left].
      apply list_elem_of_fmap. by exists (key, val).
  - assert ((if bool_decide (k = "__proto__") then token_map data
             else <[k:=v]> (token_map data)) !! key = token_map data !! key) as ->.
    { case_bool_decide; [done|]. by rewrite lookup_insert_ne. }
    rewrite (IH Hdata). split; [by left|]. intros [Hin | [= -> ->]]; done.
Qed.

(** The string [buildSystemMessage] makes of an identifier and of tokens
    without separator, and what [parseSystemMessage] reads in it. *)
Lemma parse_built sysmsgMap id data :
  no_vt id →
  Forall (λ kv : string * string, no_vt kv.1 ∧ no_vt kv.2) data →
  let message := append_tokens (String "@" id) data in
  split vt message = String "@" id :: concat (map (λ kv : string * string, [kv.1; kv.2]) data)
  ∧ ∃ rest, message = String "@" rest.
Proof.
  intros Hid Hdata message. subst message. split.
  - rewrite split_append_tokens by done. rewrite split_whole; [done|].
    simpl. by rewrite Hid.
  - rewrite append_tokens_head. eauto.
Qed.

(** X21.  A system message that is built is read back.  For an identifier
    that holds a colon, or a name that the map of the system messages gives
    a code other than 0 and gets back from that code, and for tokens whose
    keys and values hold no separator, [buildSystemMessage] returns a
    string, the same for the call with a string and for the call with an
    object, and [parseSystemMessage] makes of that string the identifier and
    the tokens it was built from; with distinct keys, the tokens read are
    just the pairs given. *)
Theorem system_message_round_trip sysmsgMap id data :
  no_vt id →
  Forall (λ kv : string * string, no_vt kv.1 ∧ no_vt kv.2) data →
  includes ":" id = true
  ∨ (∃ map code, sysmsgMap = Some map ∧ id ≠ EmptyString
       ∧ sm_name map !! id = Some code ∧ code ≠ 0 ∧ sm_code map !! code = Some id) →
  ∃ str,
    buildSystemMessage sysmsgMap (MsgString id data) = inr str
    ∧ buildSystemMessage sysmsgMap (MsgObject (Some id) data) = inr str
    ∧ parseSystemMessage sysmsgMap str = inr (id, token_map data)
    ∧ (NoDup data.*1 →
       ∀ key val, key ≠ "__proto__" → token_map data !! key = Some val ↔ (key, val) ∈ data).
Proof.
  intros Hid Hdata Hknown.
  assert (id ≠ EmptyString) as Hne.
  { destruct Hknown as [Hcolon | (map & code & _ & Hne & _)]; [|done]. by intros ->. }
  assert (∀ shown,
            no_vt shown →
            (if includes ":" shown then inr (Some shown)
             else match sysmsgMap with
                  | None => inl NoSysmsgMap
                  | Some map => inr match parseInt shown with
                                    | Some code => sm_code map !! code
                                    | None => None
                                    end
                  end) = inr (Some id) →
            parseSystemMessage sysmsgMap (append_tokens (String "@" shown) data)
            = inr (id, token_map data)) as Hparse.
  { intros shown Hshown Hname.
    destruct (parse_built sysmsgMap shown data Hshown Hdata) as [Hsplit [rest Hrest]].
    unfold parseSystemMessage. rewrite Hsplit. rewrite Hrest at 1. simpl.
    rewrite Hname. rewrite bool_decide_eq_false_2 by done.
    by rewrite token_pairs_concat. }
  destruct (includes ":" id) eqn:Hcolon.
  - exists (append_tokens (String "@" id) data).
    unfold buildSystemMessage. rewrite bool_decide_eq_false_2 by done. simpl.
    rewrite Hcolon. split; [done|]. split; [done|]. split.
    + apply Hparse; [done|]. by rewrite Hcolon.
    + intros Hkeys key val Hkey. by apply token_map_lookup.
  - destruct Hknown as [|(map & code & -> & _ & Hcode & Hzero & Hback)]; [done|].
    destruct (parseInt_pretty code) as [Hint Hchars].
    exists (append_tokens (String "@" (pretty code)) data).
    unfold buildSystemMessage. rewrite bool_decide_eq_false_2 by done. simpl.
    rewrite Hcolon, Hcode. destruct (Z.eqb_spec code 0) as [|_]; [done|].
    split; [done|]. split; [done|]. split.
    + apply Hparse; [by apply Hchars|]. rewrite Hchars by done. by rewrite Hint, Hback.
    + intros Hkeys key val Hkey. by apply token_map_lookup.
Qed.

Lemma token_pairs_trailing (n : nat) (tokens : list string) m key :
  length tokens = (2 * n)%nat → token_pairs (tokens ++ [key]) m = token_pairs tokens m.
Proof.
  revert tokens m. induction n as [|n IH]; intros tokens m Hlen.
  - by destruct tokens.
  - destruct tokens as [|k [|v rest]]; simpl in Hlen; try lia.
    simpl. apply IH. lia.
Qed.

(** X22.  What [parseSystemMessage] makes of a string that was not built
    for it.  A string that does not begin with [@], the empty one included,
    is refused.  An identifier without colon is looked up as a number: when
    there is no map of the system messages the lookup throws, and an
    identifier that is no number or a number the map does not know is
    refused as unmapped.  The tokens go by pairs: a key that comes last,
    without a value, is dropped. *)
Theorem parseSystemMessage_edges sysmsgMap :
  (∀ message, (∀ rest, message ≠ String "@" rest) →
     parseSystemMessage sysmsgMap message = inl ExpectedAt)
  ∧ (∀ id, no_vt id → includes ":" id = false →
       (sysmsgMap = None →
          parseSystemMessage sysmsgMap (String "@" id) = inl NoSysmsgMap)
       ∧ (∀ map, sysmsgMap = Some map →
            (parseInt id = None ∨ ∃ code, parseInt id = Some code ∧ sm_code map !! code = None) →
            parseSystemMessage sysmsgMap (String "@" id) = inl UnmappedMessage))
  ∧ (∀ message name tokens key (n : nat),
       parseSystemMessage sysmsgMap message = inr (name, tokens) →
       length (split vt message) = S (2 * n) →
       no_vt key →
       parseSystemMessage sysmsgMap (message +:+ String vt key) = inr (name, tokens)).
Proof.
  split; [|split].
  - intros message Hat. destruct message as [|a rest]; [done|].
    destruct a as [[] [] [] [] [] [] [] []]; try done. by destruct (Hat rest).
  - intros id Hid Hcolon.
    assert (split vt (String "@" id) = [String "@" id]) as Hsplit.
    { apply split_whole. simpl. by rewrite Hid. }
    split.
    + intros ->. unfold parseSystemMessage. rewrite Hsplit. simpl. by rewrite Hcolon.
    + intros map -> Hunknown. unfold parseSystemMessage. rewrite Hsplit. simpl.
      rewrite Hcolon. by destruct Hunknown as [->|(code & -> & ->)].
  - intros message name tokens key n Hparse Hlen Hkey.
    destruct message as [|a rest]; [done|].
    destruct (decide (a = "@"%char)) as [->|Hat].
    2:{ by destruct a as [[] [] [] [] [] [] [] []]. }
    rewrite append_cons. revert Hparse. unfold parseSystemMessage.
    rewrite <-append_cons, split_snoc by done.
    destruct (split vt (String "@" rest)) as [|first others] eqn:Hsplit; [done|].
    simpl in Hlen. simpl.
    rewrite (token_pairs_trailing n) by lia. done.
Qed.

(** X23.  What [buildSystemMessage] refuses.  An argument that is neither
    a string nor an object, and an object without [id] or with an empty one,
    are errors of their own.  A name without colon is looked up in the map
    of the system messages: without a map the lookup throws, and a name the
    map does not know is refused, as is a name whose code is 0, though
    [parseSystemMessage] reads that code.  An identifier with a colon needs
    no map. *)
Theorem buildSystemMessage_edges sysmsgMap data :
  buildSystemMessage sysmsgMap MsgOther = inl ExpectedObject
  ∧ buildSystemMessage sysmsgMap (MsgObject None data) = inl IdRequired
  ∧ buildSystemMessage sysmsgMap (MsgObject (Some EmptyString) data) = inl IdRequired
  ∧ (∀ id, includes ":" id = false →
       (sysmsgMap = None →
          buildSystemMessage sysmsgMap (MsgString id data) = inl NoSysmsgMap)
       ∧ (∀ map, sysmsgMap = Some map →
            (sm_name map !! id = None ∨ sm_name map !! id = Some 0) →
            buildSystemMessage sysmsgMap (MsgString id data) = inl UnknownMessage)
       ∧ (∀ map, sysmsgMap = Some map → sm_code map !! 0 = Some id → id ≠ EmptyString →
            parseSystemMessage sysmsgMap "@0" = inr (id, ∅)))
  ∧ (∀ id, includes ":" id = true →
       buildSystemMessage None (MsgString id data)
       = inr (append_tokens (String "@" id) data)).
Proof.
  split; [done|]. split; [done|]. split; [done|]. split.
  - intros id Hcolon. split; [|split].
    + intros ->. unfold buildSystemMessage. by rewrite Hcolon.
    + intros map -> Hcode. unfold buildSystemMessage. rewrite Hcolon.
      by destruct Hcode as [->| ->].
    + intros map -> Hzero Hne. unfold parseSystemMessage.
      change (split vt "@0") with ["@0"]. simpl.
      change (1 * (0 * 10 + (Z.of_nat (nat_of_ascii "0") - 48))) with 0.
      rewrite Hzero. by rewrite bool_decide_eq_false_2.
  - intros id Hcolon. unfold buildSystemMessage. by rewrite Hcolon.
Qed.

End system_messages.

(* ===================================================================== *)
(** * Revisions *)
(* ===================================================================== *)

Section regex_facts.
Implicit Types (p : ascii → bool) (s m rest : string) (c : captures) (k : continuation)
  (r : regex).

Lemma append_empty_r s : s +:+ EmptyString = s.
Proof. induction s as [|a s IH]; [done|]. by rewrite append_cons, IH. Qed.

Lemma all_chars_app p (s1 s2 : string) :
  all_chars p (s1 +:+ s2) = all_chars p s1 && all_chars p s2.
Proof.
  induction s1 as [|a s1 IH]; [done|]. rewrite append_cons. simpl.
  by rewrite IH, andb_assoc.
Qed.

Lemma all_digits_chars s : all_digits s = all_chars is_digit s.
Proof. induction s as [|a s IH]; simpl; [done|]. by rewrite IH. Qed.

(** *** The loops *)

(** The longest run: a run that stops before a character out of the class
    or at the end goes first. *)
Lemma star_greedy_all p m rest c k result :
  all_chars p m = true →
  (∀ a rest', rest = String a rest' → p a = false) →
  k m rest c = Some result →
  star_greedy p (m +:+ rest) c k = Some result.
Proof.
  revert k. induction m as [|a m IH]; intros k Hm Hrest Hk.
  - rewrite append_nil. destruct rest as [|a rest']; simpl; [done|].
    by rewrite (Hrest a rest' eq_refl).
  - simpl in Hm. apply andb_true_iff in Hm as [Ha Hm].
    rewrite append_cons. simpl. rewrite Ha.
    by rewrite (IH (λ m', k (String a m')) Hm Hrest Hk).
Qed.

(** The shortest run: a run goes first when the continuation refuses every
    shorter one. *)
Lemma star_lazy_first p m rest c k result :
  all_chars p m = true →
  k m rest c = Some result →
  (∀ m1 m2, m = m1 +:+ m2 → m2 ≠ EmptyString → k m1 (m2 +:+ rest) c = None) →
  star_lazy p (m +:+ rest) c k = Some result.
Proof.
  revert k. induction m as [|a m IH]; intros k Hm Hk Hshorter.
  - rewrite append_nil. destruct rest; simpl; by rewrite Hk.
  - simpl in Hm. apply andb_true_iff in Hm as [Ha Hm].
    rewrite append_cons. simpl.
    rewrite <-append_cons, (Hshorter EmptyString (String a m)) by done.
    rewrite Ha. apply (IH (λ m', k (String a m'))); [done..|].
    intros m1 m2 -> Hm2. by apply (Hshorter (String a m1) m2).
Qed.

Lemma star_greedy_sound p s c k result :
  star_greedy p s c k = Some result →
  ∃ m rest, s = m +:+ rest ∧ all_chars p m = true ∧ k m rest c = Some result.
Proof.
  revert k. induction s as [|a s IH]; intros k; simpl.
  - intros Hk. by exists EmptyString, EmptyString.
  - destruct (p a) eqn:Ha; [|intros Hk; by exists EmptyString, (String a s)].
    destruct (star_greedy p s c (λ m, k (String a m))) as [res|] eqn:Hmore.
    + intros [= ->]. destruct (IH _ Hmore) as (m & rest & -> & Hm & Hk).
      exists (String a m), rest. simpl. by rewrite Ha, Hm.
    + intros Hk. by exists EmptyString, (String a s).
Qed.

Lemma star_lazy_sound p s c k result :
  star_lazy p s c k = Some result →
  ∃ m rest, s = m +:+ rest ∧ all_chars p m = true ∧ k m rest c = Some result.
Proof.
  revert k. induction s as [|a s IH]; intros k; simpl.
  - destruct (k EmptyString EmptyString c) eqn:Hk; [|done].
    intros [= ->]. by exists EmptyString, EmptyString.
  - destruct (k EmptyString (String a s) c) eqn:Hk.
    + intros [= ->]. by exists EmptyString, (String a s).
    + destruct (p a) eqn:Ha; [|done]. intros Hmore.
      destruct (IH _ Hmore) as (m & rest & -> & Hm & Hk').
      exists (String a m), rest. simpl. by rewrite Ha, Hm.
Qed.

(** *** The matcher *)

Lemma rmatch_class p a rest c k :
  rmatch (RClass p) (String a rest) c k
  = if p a then k (String a EmptyString) rest c else None.
Proof. done. Qed.

Lemma rmatch_seq r1 r2 s c k :
  rmatch (RSeq r1 r2) s c k
  = rmatch r1 s c (λ m1 s1 c1, rmatch r2 s1 c1 (λ m2, k (m1 +:+ m2))).
Proof. done. Qed.

Lemma rmatch_opt r s c k :
  rmatch (ROpt r) s c k
  = match rmatch r s c k with Some result => Some result | None => k EmptyString s c end.
Proof. done. Qed.

Lemma rmatch_group i r s c k :
  rmatch (RGroup i r) s c k = rmatch r s c (λ m s1 c1, k m s1 (<[i := m]> c1)).
Proof. done. Qed.

(** A match is a match of the expression. *)
Lemma rmatch_sound r :
  ∀ s c k result,
    rmatch r s c k = Some result →
    ∃ m rest c', s = m +:+ rest ∧ accepts r m rest ∧ k m rest c' = Some result.
Proof.
  induction r as [p|r1 IH1 r2 IH2|r1 IH1|p|p|i r1 IH1|]; intros s c k result; simpl.
  - destruct s as [|a rest]; [done|]. destruct (p a) eqn:Ha; [|done].
    intros Hk. exists (String a EmptyString), rest, c. eauto.
  - intros Hmatch.
    destruct (IH1 _ _ _ _ Hmatch) as (m1 & rest1 & c1 & -> & Hr1 & Hmatch2).
    destruct (IH2 _ _ _ _ Hmatch2) as (m2 & rest & c2 & -> & Hr2 & Hk).
    exists (m1 +:+ m2), rest, c2. rewrite append_assoc. eauto 10.
  - destruct (rmatch r1 s c k) as [res|] eqn:Hmatch.
    + intros [= ->]. destruct (IH1 _ _ _ _ Hmatch) as (m & rest & c' & -> & Hr1 & Hk).
      exists m, rest, c'. eauto.
    + intros Hk. exists EmptyString, s, c. eauto.
  - destruct s as [|a s]; [done|]. destruct (p a) eqn:Ha; [|done].
    intros (m & rest & -> & Hm & Hk)%star_greedy_sound.
    exists (String a m), rest, c. simpl. rewrite Ha, Hm. eauto.
  - destruct s as [|a s]; [done|]. destruct (p a) eqn:Ha; [|done].
    intros (m & rest & -> & Hm & Hk)%star_lazy_sound.
    exists (String a m), rest, c. simpl. rewrite Ha, Hm. eauto.
  - intros Hmatch. destruct (IH1 _ _ _ _ Hmatch) as (m & rest & c' & -> & Hr1 & Hk).
    eauto 10.
  - destruct s; [|done]. intros Hk. exists EmptyString, EmptyString, c. eauto.
Qed.

(** *** The expression of [setRevision] *)

Local Abbreviation numbers_regex :=
  (RSeq major_part (RSeq minor_part (RSeq sysmsg_part REnd))).

Local Abbreviation optional_number sep i j :=
  (ROpt (RGroup i (RSeq (RClass (is_char sep)) (RGroup j (RPlus is_digit))))).

(** The captures of the three numbers, after those of [c]. *)
Local Abbreviation number_captures major minor sysmsg c :=
  (let c3 := <[3%nat := major]> c in
   let c5 := match minor with
             | Some n => <[4%nat := String "." n]> (<[5%nat := n]> c3)
             | None => c3
             end in
   match sysmsg with
   | Some n => <[6%nat := String "/" n]> (<[7%nat := n]> c5)
   | None => c5
   end).

Lemma plus_digits_ok n t c k result :
  digits_text n →
  (∀ a t', t = String a t' → is_digit a = false) →
  k n t c = Some result →
  rmatch (RPlus is_digit) (n +:+ t) c k = Some result.
Proof.
  intros [Hne Hdigits] Ht Hk. destruct n as [|a n]; [done|].
  simpl in Hdigits. apply andb_true_iff in Hdigits as [Ha Hn].
  rewrite append_cons. simpl. rewrite Ha.
  apply star_greedy_all; [by rewrite <-all_digits_chars|done..].
Qed.

Lemma optional_present sep i j n t c k result :
  digits_text n →
  (∀ a t', t = String a t' → is_digit a = false) →
  k (String sep n) t (<[i := String sep n]> (<[j := n]> c)) = Some result →
  rmatch (optional_number sep i j) (String sep n +:+ t) c k = Some result.
Proof.
  intros Hn Ht Hk. rewrite append_cons.
  rewrite rmatch_opt, rmatch_group, rmatch_seq, rmatch_class.
  unfold is_char at 1. rewrite bool_decide_eq_true_2 by done.
  rewrite rmatch_group.
  by rewrite (plus_digits_ok n t c _ result Hn Ht).
Qed.

Lemma optional_absent sep i j t c k :
  (∀ t', t ≠ String sep t') →
  rmatch (optional_number sep i j) t c k = k EmptyString t c.
Proof.
  intros Ht. rewrite rmatch_opt, rmatch_group, rmatch_seq.
  destruct t as [|a t']; [done|]. rewrite rmatch_class.
  unfold is_char. rewrite bool_decide_eq_false_2; [done|].
  intros ->. by destruct (Ht t').
Qed.

(** The three numbers of a revision are matched, with their captures. *)
Lemma numbers_ok major minor sysmsg c k result :
  digits_text major →
  (∀ n, minor = Some n → digits_text n) →
  (∀ n, sysmsg = Some n → digits_text n) →
  k (numbers_string major minor sysmsg) EmptyString (number_captures major minor sysmsg c)
  = Some result →
  rmatch numbers_regex (numbers_string major minor sysmsg) c k = Some result.
Proof.
  intros Hmajor Hminor Hsysmsg Hk. unfold numbers_string in *.
  change (rmatch numbers_regex ?s c k)
    with (rmatch (RPlus is_digit) s c
            (λ m1 s1 c1,
               rmatch (optional_number "." 4%nat 5%nat) s1 (<[3%nat := m1]> c1)
                 (λ m2 s2 c2,
                    rmatch (optional_number "/" 6%nat 7%nat) s2 c2
                      (λ m3 s3 c3,
                         rmatch REnd s3 c3
                           (λ m4, k (m1 +:+ m2 +:+ m3 +:+ m4)))))).
  destruct minor as [minor|], sysmsg as [sysmsg|]; simpl from_option in *.
  - apply plus_digits_ok; [done|by intros a t' [= <- _]|].
    apply optional_present; [by apply Hminor|by intros a t' [= <- _]|].
    rewrite <-(append_empty_r (String "/" sysmsg)) at 1.
    apply optional_present; [by apply Hsysmsg|done|].
    simpl. by rewrite append_empty_r.
  - rewrite append_empty_r in *.
    apply plus_digits_ok; [done|by intros a t' [= <- _]|].
    rewrite <-(append_empty_r (String "." minor)) at 1.
    apply optional_present; [by apply Hminor|done|].
    rewrite optional_absent by done. simpl. by rewrite !append_empty_r.
  - rewrite append_nil in *.
    apply plus_digits_ok; [done|by intros a t' [= <- _]|].
    rewrite optional_absent by done.
    rewrite <-(append_empty_r (String "/" sysmsg)) at 1.
    apply optional_present; [by apply Hsysmsg|done|].
    simpl. by rewrite append_nil, append_empty_r.
  - rewrite append_nil, append_empty_r in *.
    rewrite <-(append_empty_r major) at 1.
    apply plus_digits_ok; [done|done|].
    rewrite !optional_absent by done.
    simpl. by rewrite !append_nil, append_empty_r.
Qed.

(** What the parts of the expression can match. *)
Lemma accepts_optional sep i j m rest :
  accepts (optional_number sep i j) m rest →
  ∃ number : option string,
    (∀ n, number = Some n → digits_text n) ∧ m = from_option (String sep) EmptyString number.
Proof.
  intros [-> | (m1 & m2 & -> & (a & -> & Ha) & Hne & Hdigits)].
  - by exists None.
  - exists (Some m2). apply bool_decide_eq_true in Ha as ->. split; [|done].
    intros n [= <-]. split; [done|]. by rewrite all_digits_chars.
Qed.

Lemma accepts_numbers m rest :
  accepts numbers_regex m rest →
  rest = EmptyString
  ∧ ∃ major minor sysmsg,
      digits_text major
      ∧ (∀ n, minor = Some n → digits_text n)
      ∧ (∀ n, sysmsg = Some n → digits_text n)
      ∧ m = numbers_string major minor sysmsg.
Proof.
  intros (major & m2 & -> & [Hne Hdigits] & m3 & m4 & -> & Hminor & m5 & m6 & -> & Hsysmsg
          & -> & ->).
  split; [done|].
  apply accepts_optional in Hminor as (minor & Hminor & ->).
  apply accepts_optional in Hsysmsg as (sysmsg & Hsysmsg & ->).
  exists major, minor, sysmsg. split; [split; [done|by rewrite all_digits_chars]|].
  split; [done|]. split; [done|]. unfold numbers_string. by rewrite append_empty_r.
Qed.

Lemma accepts_region m rest :
  accepts region_part m rest →
  m = EmptyString ∨ ∃ text, region_text text ∧ m = text +:+ "-".
Proof.
  intros [-> | (text & m2 & -> & [Hne Hchars] & a & -> & Ha)]; [by left|right].
  apply bool_decide_eq_true in Ha as ->. by exists text.
Qed.

(** The numbers hold no hyphen, so that the hyphen that ends the region is
    the last one. *)
Lemma numbers_no_hyphen major minor sysmsg :
  digits_text major →
  (∀ n, minor = Some n → digits_text n) →
  (∀ n, sysmsg = Some n → digits_text n) →
  includes "-" (numbers_string major minor sysmsg) = false.
Proof.
  intros [_ Hmajor] Hminor Hsysmsg. unfold numbers_string.
  rewrite !includes_app, (includes_digits "-" major) by done.
  destruct minor as [minor|], sysmsg as [sysmsg|]; simpl;
    rewrite ?(includes_digits "-" minor), ?(includes_digits "-" sysmsg);
    try done; try (by apply Hminor); by apply Hsysmsg.
Qed.

Lemma numbers_refuse_hyphen s c k :
  includes "-" s = true → rmatch numbers_regex s c k = None.
Proof.
  intros Hs. destruct (rmatch numbers_regex s c k) as [result|] eqn:Hmatch; [|done].
  apply rmatch_sound in Hmatch as (m & rest & c' & -> & Haccepts & _).
  apply accepts_numbers in Haccepts
    as (-> & major & minor & sysmsg & Hmajor & Hminor & Hsysmsg & ->).
  rewrite append_empty_r, numbers_no_hyphen in Hs by done. done.
Qed.

Lemma region_needs_hyphen s c k :
  includes "-" s = false →
  rmatch (RGroup 1 (RSeq (RGroup 2 (RPlusLazy any_char)) (RClass (is_char "-")))) s c k
  = None.
Proof.
  intros Hs.
  destruct (rmatch _ s c k) as [result|] eqn:Hmatch; [|done].
  apply rmatch_sound in Hmatch
    as (m & rest & c' & -> & (text & m2 & -> & _ & a & -> & Ha) & _).
  apply bool_decide_eq_true in Ha as ->.
  rewrite !includes_app in Hs. simpl in Hs.
  by destruct (includes "-" text).
Qed.

(** The region is matched up to the last hyphen. *)
Lemma region_ok text major minor sysmsg k result :
  region_text text →
  digits_text major →
  (∀ n, minor = Some n → digits_text n) →
  (∀ n, sysmsg = Some n → digits_text n) →
  k (text +:+ "-") (numbers_string major minor sysmsg)
    (<[1%nat := text +:+ "-"]> (<[2%nat := text]> ∅)) = Some result →
  (∀ m s c, includes "-" s = true → k m s c = None) →
  rmatch region_part ((text +:+ "-") +:+ numbers_string major minor sysmsg) ∅ k
  = Some result.
Proof.
  intros [Hne Hchars] Hmajor Hminor Hsysmsg Hk Hrefuse.
  destruct text as [|a text]; [done|].
  simpl in Hchars. apply andb_true_iff in Hchars as [Ha Hchars].
  unfold region_part.
  rewrite rmatch_opt, rmatch_group, rmatch_seq, rmatch_group.
  rewrite append_assoc, append_cons. simpl rmatch at 1. rewrite Ha.
  rewrite (star_lazy_first any_char text _ _ _ result); [done|done|..].
  - rewrite append_cons, append_nil.
    unfold is_char. by rewrite bool_decide_eq_true_2.
  - intros m1 m2 -> Hm2. destruct m2 as [|b m2]; [done|].
    rewrite append_cons. unfold is_char.
    case_bool_decide; [|done]. apply Hrefuse.
    rewrite includes_app. apply orb_true_iff. by right.
Qed.

(** The captures of a revision of the format. *)
Lemma exec_revision (reg : option string) major minor sysmsg :
  (∀ text, reg = Some text → region_text text) →
  digits_text major →
  (∀ n, minor = Some n → digits_text n) →
  (∀ n, sysmsg = Some n → digits_text n) →
  exec revision_regex (revision_string reg major minor sysmsg)
  = Some (<[O := revision_string reg major minor sysmsg]>
            (number_captures major minor sysmsg
               match reg with
               | Some text => <[1%nat := text +:+ "-"]> (<[2%nat := text]> ∅)
               | None => ∅
               end)).
Proof.
  intros Hreg Hmajor Hminor Hsysmsg. unfold exec, revision_regex, revision_string.
  rewrite rmatch_seq. destruct reg as [text|]; simpl from_option.
  - apply region_ok; [by apply Hreg|done..| |].
    + by apply numbers_ok.
    + intros m s c Hs. by apply numbers_refuse_hyphen.
  - rewrite append_nil. unfold region_part. rewrite rmatch_opt.
    rewrite region_needs_hyphen by (by apply numbers_no_hyphen).
    apply numbers_ok; [done..|]. by rewrite append_nil.
Qed.

(** X24.  [setRevision] accepts the revisions of the format
    [(region-)major(.minor)(/sysmsg)] and no other string: the region is any
    text without line break, up to the last hyphen, and the three numbers
    are decimal digits.  It sets the region, or [undefined] without one, the
    major patch version, the minor patch version, 0 without one, and the
    version of the system messages, [undefined] without one. *)
Theorem setRevision_format :
  (∀ (reg : option string) major minor sysmsg,
     (∀ text, reg = Some text → region_text text) →
     digits_text major →
     (∀ n, minor = Some n → digits_text n) →
     (∀ n, sysmsg = Some n → digits_text n) →
     setRevision (revision_string reg major minor sysmsg)
     = Some {| region := reg;
               majorPatchVersion := JNum (number_of major);
               minorPatchVersion := from_option number_of 0 minor;
               sysmsgVersion := number_of <$> sysmsg |})
  ∧ (∀ rev, is_Some (setRevision rev) →
       ∃ (reg : option string) major minor sysmsg,
         (∀ text, reg = Some text → region_text text)
         ∧ digits_text major
         ∧ (∀ n, minor = Some n → digits_text n)
         ∧ (∀ n, sysmsg = Some n → digits_text n)
         ∧ rev = revision_string reg major minor sysmsg).
Proof.
  split.
  - intros reg major minor sysmsg Hreg Hmajor Hminor Hsysmsg. unfold setRevision.
    rewrite exec_revision by done.
    assert (∀ n, sysmsg = Some n → bool_decide (n = EmptyString) = false) as Hne.
    { intros n Hn. apply bool_decide_eq_false. by destruct (Hsysmsg n Hn). }
    destruct reg as [text|], minor as [minor|], sysmsg as [sysmsg|];
      simplify_map_eq; rewrite ?Hne by done; done.
  - intros rev [revision Hrev]. unfold setRevision in Hrev.
    destruct (exec revision_regex rev) as [m|] eqn:Hexec; [|done].
    apply rmatch_sound in Hexec
      as (matched & rest & c' & -> & (m1 & m2 & -> & Hregion & Hnumbers) & _).
    apply accepts_numbers in Hnumbers
      as (-> & major & minor & sysmsg & Hmajor & Hminor & Hsysmsg & ->).
    apply accepts_region in Hregion as [-> | (text & Htext & ->)].
    + exists None, major, minor, sysmsg. split; [done|]. split; [done|].
      split; [done|]. split; [done|]. unfold revision_string. simpl.
      by rewrite append_empty_r.
    + exists (Some text), major, minor, sysmsg. split; [by intros ? [= <-]|].
      split; [done|]. split; [done|]. split; [done|]. unfold revision_string. simpl.
      by rewrite append_empty_r.
Qed.

End regex_facts.

(* ===================================================================== *)
(** * The client side of a connection *)
(* ===================================================================== *)

(** X25.  [close()] of a [RealClient] closes once: it ends and unrefs the
    socket if there is one, closes the connection if there is one, in that
    order, and leaves every field [null], whether the connection calls
    [close()] back or not; a second [close()] does nothing.  When the socket
    reports its own closing, the socket is not ended again.  After
    [close()], [onData] and the handler of the data of the socket throw
    before they do anything. *)
Theorem close_closes_once (calls_back : bool) (client : RealClient) :
  let closed :=
    {| rc_connection := false; rc_socket := false; rc_session := false;
       rc_packetizer := false |} in
  close calls_back client
  = (closed,
     (if rc_socket client then [SocketEnd; SocketUnref] else [])
     ++ (if rc_connection client then [ConnectionClose] else []))
  ∧ (∀ again, close again closed = (closed, []))
  ∧ on_socket_close calls_back client
    = (closed, if rc_connection client then [ConnectionClose] else [])
  ∧ (∀ data, onData closed data = None ∧ on_socket_data closed data = ([], false)).
Proof.
  destruct client as [[] [] session packetizer], calls_back; repeat split;
    by intros [].
Qed.

(* ===================================================================== *)
(** * The theorems on the sample data *)
(* ===================================================================== *)


Lemma iterateHooks_stable_merge_witness :
  let sequence :=
    iterateHooks (hooks sample_registry !! CWild) (hooks sample_registry !! COp 4660) in
  StronglySorted runs_before sequence
  ∧ List.filter is_wildcard sequence
    = ordering_hooks (default [] (hooks sample_registry !! CWild))
  ∧ List.filter (λ h, negb (is_wildcard h)) sequence
    = ordering_hooks (default [] (hooks sample_registry !! COp 4660)).
Proof.
  apply (iterateHooks_stable_merge sample_codec sample_registry 4660).
  apply sample_registry_reachable.
Defined.

Lemma hook_definition_errors_witness :
  hook sample_codec sample_base "mod" "S_LOGIN" (VerNum 0) (with_order 0)
    (Some returns_undefined) = inl ObsoleteDefinition
  ∧ hook sample_codec sample_base "mod" "S_LOGIN" (VerNum 3) (with_order 0)
      (Some returns_undefined) = inl DefinitionNotFound
  ∧ hook sample_codec sample_base "mod" "S_CHAT" (VerNum 1) (with_order 0)
      (Some returns_undefined) = inl DefinitionNotFound
  ∧ ∃ h d', hook sample_codec sample_base "mod" "S_LOGIN" (VerNum 1) (with_order 0)
              (Some returns_undefined) = inr (h, d')
            ∧ h_code h = COp 4660 ∧ h_definitionVersion h = DNum 1.
Proof.
  split; [|split; [|split]].
  - destruct (hook_definition_errors sample_codec sample_base "mod" "S_LOGIN" 0
                (with_order 0) returns_undefined sample_map 4660
                ltac:(discriminate) eq_refl ltac:(vm_compute; reflexivity))
      as (Hmissing & _).
    destruct Hmissing as [Hobsolete _]; [vm_compute; reflexivity|].
    apply (Hobsolete 2); [vm_compute; reflexivity | lia].
  - destruct (hook_definition_errors sample_codec sample_base "mod" "S_LOGIN" 3
                (with_order 0) returns_undefined sample_map 4660
                ltac:(discriminate) eq_refl ltac:(vm_compute; reflexivity))
      as (_ & Hnewer & _).
    apply (Hnewer 2); [vm_compute; reflexivity | lia].
  - destruct (hook_definition_errors sample_codec sample_base "mod" "S_CHAT" 1
                (with_order 0) returns_undefined sample_map 4661
                ltac:(discriminate) eq_refl ltac:(vm_compute; reflexivity))
      as (Hmissing & _).
    destruct Hmissing as [_ Hunknown]; [vm_compute; reflexivity|].
    apply Hunknown. intros latest Hlatest. vm_compute in Hlatest. discriminate.
  - destruct (hook_definition_errors sample_codec sample_base "mod" "S_LOGIN" 1
                (with_order 0) returns_undefined sample_map 4660
                ltac:(discriminate) eq_refl ltac:(vm_compute; reflexivity))
      as (_ & _ & Hknown).
    apply Hknown. vm_compute. eauto.
Defined.







Lemma handle_returns_witness :
  hd_return (handle sample_codec sample_types sample_silencer tt 10%nat sample_frame true false)
  = SUPPRESS
  ∧ hd_return (handle sample_codec sample_types sample_registry tt 10%nat sample_frame
                 true false)
    = Returned sample_frame.
Proof.
  split.
  - destruct (handle_returns sample_codec sample_types sample_silencer tt 10%nat sample_frame
                true false 4660 eq_refl) as (_ & Hhooks).
    destruct Hhooks as [Hsuppress _].
    + right. vm_compute. eauto.
    + apply Hsuppress. vm_compute. reflexivity.
  - destruct (handle_returns sample_codec sample_types sample_registry tt 10%nat sample_frame
                true false 4660 eq_refl) as (_ & Hhooks).
    destruct Hhooks as [_ Hdata].
    + right. vm_compute. eauto.
    + rewrite Hdata; [|vm_compute; reflexivity]. vm_compute. reflexivity.
Defined.



Lemma registry_invariant_witness :
  (∀ c ordering, hooks sample_registry !! c = Some ordering →
     StronglySorted Z.lt (g_order <$> ordering)
     ∧ ∀ g h, g ∈ ordering → h ∈ g_hooks g →
         h_code h = c ∧ h_order h = g_order g ∧ (h_id h < next_id sample_registry)%nat)
  ∧ (∀ h1 h2, registered sample_registry h1 → registered sample_registry h2 →
              h_id h1 = h_id h2 → h1 = h2)
  ∧ (∀ t, t ∈ timers sample_registry → (t < next_id sample_registry)%nat).
Proof. apply (registry_invariant sample_codec), sample_registry_reachable. Defined.

Lemma hook_unhook_round_trip_witness :
  let d'' := unhook sample_timed (Some sample_timed_hook) in
  (∀ c, ordering_hooks (default [] (hooks d'' !! c))
        = ordering_hooks (default [] (hooks sample_base !! c)))
  ∧ (∀ h', registered d'' h' ↔ registered sample_base h')
  ∧ timers d'' = timers sample_base
  ∧ ∀ code : Z, iterateHooks (hooks d'' !! CWild) (hooks d'' !! COp code)
                = iterateHooks (hooks sample_base !! CWild) (hooks sample_base !! COp code).
Proof.
  apply (hook_unhook_round_trip sample_codec sample_base "mod" "S_LOGIN" VerRaw
           (with_timeout 1000) (Some returns_undefined)).
  - apply sample_base_reachable.
  - vm_compute. reflexivity.
Defined.

Lemma hook_returns_witness :
  (h_namespace sample_timed_hook = "mod"%string ∧ h_name sample_timed_hook = "S_LOGIN"%string
   ∧ Some returns_undefined = Some (h_callback sample_timed_hook)
   ∧ h_definitionVersion sample_timed_hook = def_version VerRaw
   ∧ h_order sample_timed_hook = default 0 (o_order (with_timeout 1000))
   ∧ h_filter sample_timed_hook = assign_filter (o_filter (with_timeout 1000)))
  ∧ ¬ registered sample_base sample_timed_hook
  ∧ (∀ h', registered sample_base h' → (h_id h' < h_id sample_timed_hook)%nat)
  ∧ (∀ h', registered sample_timed h' ↔ h' = sample_timed_hook ∨ registered sample_base h')
  ∧ (h_timeout sample_timed_hook = None
     ↔ o_timeout (with_timeout 1000) = None ∨ o_timeout (with_timeout 1000) = Some 0)
  ∧ (∀ t, h_timeout sample_timed_hook = Some t →
          (t ∉ timers sample_base) ∧ timers sample_timed = {[t]} ∪ timers sample_base)
  ∧ (h_timeout sample_timed_hook = None → timers sample_timed = timers sample_base).
Proof.
  apply (hook_returns sample_codec sample_base "mod" "S_LOGIN" VerRaw (with_timeout 1000)
           (Some returns_undefined) sample_timed_hook sample_timed).
  - apply sample_base_reachable.
  - vm_compute. reflexivity.
Defined.

Lemma sample_timed_reachable : reachable sample_codec sample_timed.
Proof. apply reachable_hook_state, sample_base_reachable. Qed.

Lemma sample_timed_hook_registered : registered sample_timed sample_timed_hook.
Proof.
  destruct (hook_registers _ _ _ _ _ _ _ _ _ (reachable_ok _ _ sample_base_reachable)
              sample_timed_registered) as (_ & _ & _ & Hreg).
  apply Hreg. by left.
Qed.

Lemma sample_timed_armed : 0%nat ∈ timers sample_timed.
Proof. vm_compute. set_solver. Qed.

Lemma timeout_fires_once_witness :
  let r := fire_timeout sample_timed tt sample_timed_hook in
  r.2 = on_timeout (h_callback sample_timed_hook) tt
  ∧ (∀ h', registered r.1 h' ↔ registered sample_timed h' ∧ h_id h' ≠ h_id sample_timed_hook)
  ∧ timers r.1 = timers sample_timed ∖ {[0%nat]}
  ∧ fire_timeout r.1 r.2 sample_timed_hook = r.
Proof.
  apply (timeout_fires_once sample_codec sample_timed tt sample_timed_hook 0%nat).
  - apply sample_timed_reachable.
  - apply sample_timed_hook_registered.
  - reflexivity.
  - apply sample_timed_armed.
Defined.

Lemma timeout_survives_unload_witness :
  (fire_timeout (unload sample_timed "mod").1 tt sample_timed_hook).2
  = on_timeout (h_callback sample_timed_hook) tt
  ∧ (fire_timeout (reset sample_timed) tt sample_timed_hook).2
    = on_timeout (h_callback sample_timed_hook) tt
  ∧ (is_Some (hooks sample_timed !! h_code sample_timed_hook) →
     fire_timeout (unhook sample_timed (Some sample_timed_hook)) tt sample_timed_hook
     = (unhook sample_timed (Some sample_timed_hook), tt)).
Proof.
  apply (timeout_survives_unload sample_timed tt "mod" sample_timed_hook 0%nat).
  - reflexivity.
  - apply sample_timed_armed.
Defined.





Lemma sample_fake_trace :
  wr_trace (dispatch_write sample_codec sample_types sample_write_named sample_fake tt
              10%nat true false (WriteBuffer sample_frame))
  = [] ++ EvCall sample_fake_hook sample_fake_flags (ArgRaw sample_frame) :: [].
Proof. vm_compute. reflexivity. Qed.

Lemma write_is_fake_witness :
  fl_fake sample_fake_flags = true ∧ fl_incoming sample_fake_flags = negb false
  ∧ f_fake (h_filter sample_fake_hook) ≠ Some false
  ∧ (∀ opts, h_filter sample_fake_hook
             ≠ assign_filter
                 {| fo_fake := None; fo_incoming := fo_incoming opts;
                    fo_modified := fo_modified opts; fo_silenced := fo_silenced opts |}).
Proof.
  apply (write_is_fake sample_codec sample_types sample_write_named sample_fake tt 10%nat
           true false (WriteBuffer sample_frame) _ _ _ _ _ sample_fake_trace).
Defined.

Lemma system_message_round_trip_witness :
  ∃ str,
    buildSystemMessage (Some sample_sysmsg) (MsgString "SMT_HELLO" sample_tokens) = inr str
    ∧ buildSystemMessage (Some sample_sysmsg) (MsgObject (Some "SMT_HELLO"%string) sample_tokens)
      = inr str
    ∧ parseSystemMessage (Some sample_sysmsg) str = inr ("SMT_HELLO"%string, token_map sample_tokens)
    ∧ (NoDup sample_tokens.*1 →
       ∀ key val, key ≠ "__proto__"%string →
                  token_map sample_tokens !! key = Some val ↔ (key, val) ∈ sample_tokens).
Proof.
  apply (system_message_round_trip (Some sample_sysmsg) "SMT_HELLO" sample_tokens).
  - reflexivity.
  - repeat constructor.
  - right. exists sample_sysmsg, 5. split; [reflexivity|]. split; [discriminate|].
    split; [vm_compute; reflexivity|]. split; [lia|]. vm_compute. reflexivity.
Defined.

(** A revision with every part, and one whose region holds a hyphen. *)
Example setRevision_sample :
  setRevision "EU-75.3/77"
  = Some {| region := Some "EU"%string; majorPatchVersion := JNum 75;
            minorPatchVersion := 3; sysmsgVersion := Some 77 |}
  ∧ setRevision "1-2-3"
    = Some {| region := Some "1-2"%string; majorPatchVersion := JNum 3;
              minorPatchVersion := 0; sysmsgVersion := None |}
  ∧ setRevision "75." = None.
Proof. vm_compute. done. Qed.

Lemma sample_loaded_module : "mod"%string ∈ modules sample_loaded.
Proof. simpl. apply elem_of_union. left. by apply elem_of_singleton. Qed.

Lemma sample_base_modules : "broken"%string ∉ modules sample_base.
Proof. simpl. apply not_elem_of_empty. Qed.

Lemma unload_removes_namespace_witness :
  let r := unload_module sample_loaded tt "mod" None in
  "mod"%string ∈ modules sample_loaded
  ∧ r.2 = true
  ∧ modules r.1.1 = modules sample_loaded ∖ {["mod"%string]}
  ∧ (∀ c, ordering_hooks (default [] (hooks r.1.1 !! c))
          = List.filter (λ h, negb (bool_decide (h_namespace h = "mod"%string)))
              (ordering_hooks (default [] (hooks sample_loaded !! c))))
  ∧ ∀ h, registered r.1.1 h ↔ registered sample_loaded h ∧ h_namespace h ≠ "mod"%string.
Proof.
  split; [apply sample_loaded_module|].
  apply (proj2 (unload_removes_namespace sample_loaded tt "mod" None)).
  - apply sample_loaded_module.
  - intros run. discriminate.
Defined.

Lemma load_rolls_back_witness :
  let r := load sample_base tt "broken" failing_constructor in
  r.2 = false ∧ r.1.2 = tt
  ∧ modules r.1.1 = modules (failing_constructor sample_base tt).1.1
  ∧ (∀ c, ordering_hooks (default [] (hooks r.1.1 !! c))
          = List.filter (λ h, negb (bool_decide (h_namespace h = "broken"%string)))
              (ordering_hooks (default [] (hooks (failing_constructor sample_base tt).1.1 !! c))))
  ∧ ∀ h, registered r.1.1 h
         ↔ registered (failing_constructor sample_base tt).1.1 h
           ∧ h_namespace h ≠ "broken"%string.
Proof.
  apply (proj1 (proj2 (load_rolls_back sample_base tt "broken" failing_constructor))).
  - apply sample_base_modules.
  - reflexivity.
Defined.

Lemma unloaded_module_not_called_witness :
  "mod"%string ∈ modules sample_loaded
  ∧ ∀ h, h ∈ called (hd_trace (handle sample_codec sample_types
                                 (unload_module sample_loaded tt "mod" None).1.1
                                 (unload_module sample_loaded tt "mod" None).1.2
                                 10%nat sample_frame true false)) →
         h_namespace h ≠ "mod"%string.
Proof.
  split; [apply sample_loaded_module|].
  apply (proj1 (unloaded_module_not_called sample_codec sample_types sample_loaded tt "mod"
                  10%nat sample_frame true false) None).
  - apply sample_loaded_module.
  - intros run. discriminate.
Defined.

Lemma setRevision_format_witness :
  setRevision (revision_string (Some "EU"%string) "75" (Some "3"%string) (Some "77"%string))
  = Some {| region := Some "EU"%string;
            majorPatchVersion := JNum (number_of "75");
            minorPatchVersion := from_option number_of 0 (Some "3"%string);
            sysmsgVersion := number_of <$> Some "77"%string |}.
Proof.
  apply (proj1 setRevision_format).
  - intros text [= <-]. by split.
  - by split.
  - intros n [= <-]. by split.
  - intros n [= <-]. by split.
Defined.
